(** * Hybrid retrieval and ranking of the LegalWise RAG backend

    A shallow embedding of [backend/rag/chain.py], [backend/rag/retriever.py]
    and [backend/vectorstore/store.py], and the properties the specification
    states about them.

    Conventions.
    - Python [str] values are byte strings ([string]); a character outside
      ASCII is a sequence of bytes that are neither digits, white space nor
      word characters.  On ASCII text the string functions below agree with
      Python's.
    - Python [float] scores are exact rationals ([Q]): rounding is left out,
      comparisons and the order of additions are kept.
    - Python [int] values that count things or index lists are [nat];
      page numbers and the cached corpus size (initially [-1]) are [Z]. *)

From Stdlib Require Import ZArith QArith Qabs Qround List String Ascii Bool Lia Lqa.
From Stdlib Require Import Sorting.Permutation Sorting.Sorted DecimalString.
From stdpp Require Import base gmap strings list sorting.

Open Scope Z_scope.
Open Scope string_scope.

(** ** Python strings *)

Module PyStr.

(** [str.isspace] on one character, ASCII range. *)
Definition isspace (c : ascii) : bool :=
  let n := nat_of_ascii c in
  ((9 <=? n) && (n <=? 13) || (28 <=? n) && (n <=? 32))%nat.

Definition isdigit (c : ascii) : bool :=
  let n := nat_of_ascii c in ((48 <=? n) && (n <=? 57))%nat.

Definition isupper (c : ascii) : bool :=
  let n := nat_of_ascii c in ((65 <=? n) && (n <=? 90))%nat.

Definition islower (c : ascii) : bool :=
  let n := nat_of_ascii c in ((97 <=? n) && (n <=? 122))%nat.

(** The class [\w] of the [re] module. *)
Definition isword (c : ascii) : bool :=
  isdigit c || isupper c || islower c || Ascii.eqb c "_"%char.

Definition lower_char (c : ascii) : ascii :=
  if isupper c then ascii_of_nat (nat_of_ascii c + 32) else c.

(** [s.lower()] *)
Fixpoint lower (s : string) : string :=
  match s with
  | EmptyString => EmptyString
  | String c s' => String (lower_char c) (lower s')
  end.

(** [s.split()]: the maximal runs of non-space characters, in order.
    [cur] is the run being read, reversed. *)
Fixpoint split_aux (cur : list ascii) (s : string) : list string :=
  let flush (k : list string) :=
    match cur with
    | [] => k
    | _ => string_of_list_ascii (rev cur) :: k
    end in
  match s with
  | EmptyString => flush []
  | String c s' =>
      if isspace c then flush (split_aux [] s') else split_aux (c :: cur) s'
  end.

Definition split (s : string) : list string := split_aux [] s.

(** [int(s)] on a string of decimal digits. *)
Definition digit_val (c : ascii) : Z := Z.of_nat (nat_of_ascii c) - 48.

Fixpoint int_aux (acc : Z) (s : string) : Z :=
  match s with
  | EmptyString => acc
  | String c s' => int_aux (10 * acc + digit_val c) s'
  end.

Definition int (s : string) : Z := int_aux 0 s.

(** [re.findall(r'\d+', s)]: the maximal runs of digits. *)
Fixpoint digit_runs_aux (cur : list ascii) (s : string) : list string :=
  let flush (k : list string) :=
    match cur with
    | [] => k
    | _ => string_of_list_ascii (rev cur) :: k
    end in
  match s with
  | EmptyString => flush []
  | String c s' =>
      if isdigit c then digit_runs_aux (c :: cur) s'
      else flush (digit_runs_aux [] s')
  end.

Definition digit_runs (s : string) : list string := digit_runs_aux [] s.

(** [range(a, b)] *)
Definition range (a b : Z) : list Z :=
  map (fun i => a + Z.of_nat i) (seq 0 (Z.to_nat (b - a))).

(** The first [n] characters of [s]. *)
Fixpoint prefix (n : nat) (s : string) : string :=
  match n, s with
  | S n', String c s' => String c (prefix n' s')
  | _, _ => EmptyString
  end.

End PyStr.

(** ** The fragment of [re] used by the page patterns

    A backtracking matcher in continuation-passing style: alternatives are
    tried left to right, repetitions are greedy, and the first success wins,
    as in Python's [re].  All patterns are compiled with [re.I]: a literal
    matches either case of a letter. *)

Module Re.

Inductive regex : Type :=
| Eps                                  (* the empty pattern *)
| Lit (c : ascii)                      (* one literal character *)
| Digit                                (* \d *)
| Space                                (* \s *)
| WordB                                (* \b *)
| Seq (r1 r2 : regex)
| Alt (r1 r2 : regex)                  (* r1|r2 *)
| Star (r : regex)                     (* r*, greedy *)
| Group (i : nat) (r : regex).         (* the i-th capturing group, from 0 *)

Definition Opt (r : regex) : regex := Alt r Eps.         (* r? *)
Definition Plus (r : regex) : regex := Seq r (Star r).   (* r+ *)

(** A literal word, character by character. *)
Fixpoint Str (s : string) : regex :=
  match s with
  | EmptyString => Eps
  | String c s' => Seq (Lit c) (Str s')
  end.

(** The groups captured so far: [None] for a group that took no part. *)
Abbreviation captures := (list (option string)).

Definition set_group (i : nat) (v : string) (cs : captures) : captures :=
  <[i := Some v]> cs.

Definition head_char (s : string) : option ascii :=
  match s with
  | EmptyString => None
  | String c _ => Some c
  end.

Definition is_word_opt (c : option ascii) : bool :=
  match c with
  | Some c => PyStr.isword c
  | None => false
  end.

(** The matcher's position: the character just before it (for [\b]) and the
    text still to read. *)
Definition cont (R : Type) := option ascii -> string -> captures -> option R.

(** The greedy repetition of [body]: one more round as long as a round
    succeeds and reads something, then the rest of the pattern. *)
Fixpoint star_loop {R : Type}
    (body : option ascii -> string -> captures -> cont R -> option R)
    (k : cont R) (fuel : nat) (prev : option ascii) (s : string)
    (cs : captures) {struct fuel} : option R :=
  match fuel with
  | O => k prev s cs
  | S fuel' =>
      match body prev s cs
              (fun p' s' cs' =>
                 if (String.length s' <? String.length s)%nat
                 then star_loop body k fuel' p' s' cs' else None) with
      | Some x => Some x
      | None => k prev s cs
      end
  end.

Fixpoint run {R : Type} (r : regex) (prev : option ascii) (s : string)
    (cs : captures) (k : cont R) {struct r} : option R :=
  match r with
  | Eps => k prev s cs
  | Lit c =>
      match s with
      | String a s' =>
          if Ascii.eqb (PyStr.lower_char a) (PyStr.lower_char c)
          then k (Some a) s' cs else None
      | EmptyString => None
      end
  | Digit =>
      match s with
      | String a s' => if PyStr.isdigit a then k (Some a) s' cs else None
      | EmptyString => None
      end
  | Space =>
      match s with
      | String a s' => if PyStr.isspace a then k (Some a) s' cs else None
      | EmptyString => None
      end
  | WordB =>
      if xorb (is_word_opt prev) (is_word_opt (head_char s))
      then k prev s cs else None
  | Seq r1 r2 =>
      run r1 prev s cs (fun p' s' cs' => run r2 p' s' cs' k)
  | Alt r1 r2 =>
      match run r1 prev s cs k with
      | Some x => Some x
      | None => run r2 prev s cs k
      end
  | Star r' => star_loop (run r') k (S (String.length s)) prev s cs
  | Group i r' =>
      run r' prev s cs
        (fun p' s' cs' =>
           k p' s'
             (set_group i
                (PyStr.prefix (String.length s - String.length s') s) cs'))
  end.

(** [m.groups()] of one match, and where the match ends. *)
Record match_obj := { groups : captures; last : option ascii; after : string }.

(** [pat.match] anchored at the current position, for a pattern with [n]
    groups. *)
Definition match_here (n : nat) (r : regex) (prev : option ascii)
    (s : string) : option match_obj :=
  run r prev s (replicate n None)
    (fun p' s' cs' => Some {| groups := cs'; last := p'; after := s' |}).

(** [pat.finditer(s)]: the leftmost match, then the leftmost match after it,
    and so on; matches do not overlap. *)
Fixpoint finditer_aux (fuel : nat) (n : nat) (r : regex)
    (prev : option ascii) (s : string) : list match_obj :=
  match fuel with
  | O => []
  | S fuel' =>
      match match_here n r prev s with
      | Some m =>
          if (String.length (after m) <? String.length s)%nat
          then m :: finditer_aux fuel' n r (last m) (after m)
          else m :: match s with
                    | String c s' => finditer_aux fuel' n r (Some c) s'
                    | EmptyString => []
                    end
      | None =>
          match s with
          | String c s' => finditer_aux fuel' n r (Some c) s'
          | EmptyString => []
          end
      end
  end.

(** A compiled pattern: its syntax and its number of groups. *)
Record pattern := { syntax : regex; ngroups : nat }.

Definition finditer (p : pattern) (s : string) : list match_obj :=
  finditer_aux (S (String.length s)) (ngroups p) (syntax p) None s.

End Re.

(** ** Data model *)

(** Chunk metadata as ingestion stores it. *)
Record Metadata := {
  document : string;
  page : Z;
  chunk_index : Z;
  extraction_method : string
}.

(** One row of the ChromaDB collection: the text and its metadata (ids and
    embeddings stay inside the collection). *)
Record Doc := { doc_text : string; doc_meta : Metadata }.

(** The dict every stage passes around.  ["chunk"] and ["metadata"] are always
    present; the other keys appear as the pipeline adds them. *)
Record Hit := {
  chunk : string;
  metadata : Metadata;
  score : option Q;
  source : option string;
  rrf_score : option Q;
  rerank_score : option Q
}.

Definition set_source (v : string) (h : Hit) : Hit :=
  {| chunk := chunk h; metadata := metadata h; score := score h;
     source := Some v; rrf_score := rrf_score h;
     rerank_score := rerank_score h |}.

Definition set_rrf_score (v : Q) (h : Hit) : Hit :=
  {| chunk := chunk h; metadata := metadata h; score := score h;
     source := source h; rrf_score := Some v;
     rerank_score := rerank_score h |}.

Definition set_rerank_score (v : Q) (h : Hit) : Hit :=
  {| chunk := chunk h; metadata := metadata h; score := score h;
     source := source h; rrf_score := rrf_score h;
     rerank_score := Some v |}.

(** [{"chunk": doc, "metadata": meta}] *)
Definition stored_chunk (d : Doc) : Hit :=
  {| chunk := doc_text d; metadata := doc_meta d; score := None;
     source := None; rrf_score := None; rerank_score := None |}.

(** [{"chunk": item["chunk"], "metadata": item["metadata"],
      "rerank_score": 1.0}] *)
Definition exact_result (item : Hit) : Hit :=
  {| chunk := chunk item; metadata := metadata item; score := None;
     source := None; rrf_score := None; rerank_score := Some 1%Q |}.

(** ** What the pipeline calls but does not own

    ChromaDB's nearest-neighbour query (with the embedding of the query
    inside), [rank_bm25]'s scoring of one tokenised document against the
    query in the light of the whole tokenised corpus, numpy's [argpartition]
    and [argsort], and the cross-encoder's batched [predict]. *)

Class Collaborators := {
  chroma_query : list Doc -> string -> nat -> list (Doc * Q);
  bm25_score : list (list string) -> list string -> list string -> Q;
  argpartition : list Q -> Z -> list nat;
  argsort : list Q -> list nat;
  ce_predict : list (string * string) -> list Q
}.

(** [a[i]] for a numpy array of floats, where [i] is in range. *)
Definition at_index (a : list Q) (i : nat) : Q := default 0%Q (a !! i).

(** The documented behaviour of the numpy and cross-encoder calls.
    [argsort] returns the indices that sort its argument in ascending order.
    [argpartition a kth] returns a permutation of the indices in which the
    entry at position [kth] (counted from the end when negative) is the one
    a full sort would put there, with no larger value before it and no
    smaller value after it.  [predict] returns one score per pair. *)
Class Contracts (E : Collaborators) : Prop := {
  argsort_perm : forall a, Permutation (argsort a) (seq 0 (length a));
  argsort_ascending : forall a,
    StronglySorted (fun i j => (at_index a i <= at_index a j)%Q) (argsort a);
  argpartition_perm : forall a kth,
    Permutation (argpartition a kth) (seq 0 (length a));
  argpartition_pivot : forall a kth (p : nat) i j x y,
    (- Z.of_nat (length a) <= kth < Z.of_nat (length a))%Z ->
    Z.of_nat p = (kth mod Z.of_nat (length a))%Z ->
    (i <= p)%nat -> (p <= j)%nat ->
    argpartition a kth !! i = Some x ->
    argpartition a kth !! j = Some y ->
    (at_index a x <= at_index a y)%Q;
  ce_predict_length : forall ps, length (ce_predict ps) = length ps
}.

(** ** Exceptions and the state of the process *)

Inductive exn := IndexError | KeyError.

Inductive result (A : Type) : Type :=
| Ok (a : A)
| Raise (e : exn).
Arguments Ok {A} a.
Arguments Raise {A} e.

(** [l[i]] *)
Definition getitem {A : Type} (l : list A) (i : nat) : result A :=
  match l !! i with
  | Some x => Ok x
  | None => Raise IndexError
  end.

(** numpy's [a[idxs]] for an array of indices. *)
Fixpoint fancy_index {A : Type} (a : list A) (idxs : list nat)
    : result (list A) :=
  match idxs with
  | [] => Ok []
  | i :: idxs' =>
      match getitem a i with
      | Ok x =>
          match fancy_index a idxs' with
          | Ok xs => Ok (x :: xs)
          | Raise e => Raise e
          end
      | Raise e => Raise e
      end
  end.

(** [sorted(xs, key=key, reverse=True)] and [xs.sort(key=key, reverse=True)]:
    descending by key, entries with equal keys in their original order. *)
Fixpoint insert_desc {A : Type} (key : A -> Q) (x : A) (l : list A) : list A :=
  match l with
  | [] => [x]
  | y :: l' =>
      if Qle_bool (key y) (key x) then x :: y :: l'
      else y :: insert_desc key x l'
  end.

Fixpoint sort_desc {A : Type} (key : A -> Q) (l : list A) : list A :=
  match l with
  | [] => []
  | x :: l' => insert_desc key x (sort_desc key l')
  end.

(** [enumerate(l)] *)
Definition enumerate {A : Type} (l : list A) : list (nat * A) :=
  combine (seq 0 (length l)) l.

(** *** The vector store ([backend/vectorstore/store.py]) *)

Module Store.

Definition RETRIEVAL_TOP_K : nat := 15.

Record VectorStore := {
  collection : list Doc;                        (* the ChromaDB collection *)
  _all_chunks_cache : option (list Hit);
  _all_chunks_cache_size : Z
}.

(** [VectorStore()] over an existing collection. *)
Definition open (rows : list Doc) : VectorStore :=
  {| collection := rows; _all_chunks_cache := None;
     _all_chunks_cache_size := -1 |}.

Definition count (vs : VectorStore) : nat := length (collection vs).

(** The [size] property. *)
Definition size (vs : VectorStore) : nat := count vs.

(** [add_chunks]: the rows are appended and the cache is dropped; with
    nothing to add the store is left as it is. *)
Definition add_chunks (chunks : list Doc) (vs : VectorStore)
    : nat * VectorStore :=
  match chunks with
  | [] => (count vs, vs)
  | _ =>
      let vs' := {| collection := collection vs ++ chunks;
                    _all_chunks_cache := None;
                    _all_chunks_cache_size := -1 |} in
      (count vs', vs')
  end.

(** [search] *)
Definition search `{Collaborators} (query : string) (top_k : option nat)
    (vs : VectorStore) : list Hit :=
  if (count vs =? 0)%nat then []
  else
    let requested :=
      match top_k with
      | Some (S n) => S n
      | _ => RETRIEVAL_TOP_K                    (* top_k or RETRIEVAL_TOP_K *)
      end in
    let k := Nat.min requested (count vs) in
    map (fun '(d, dist) =>
           {| chunk := doc_text d; metadata := doc_meta d;
              score := Some dist; source := None; rrf_score := None;
              rerank_score := None |})
        (chroma_query (collection vs) query k).

(** [get_all_chunks]: the cached list when the count it was built at is the
    current one, a fresh list (which becomes the cache) otherwise. *)
Definition get_all_chunks (vs : VectorStore) : list Hit * VectorStore :=
  let n := count vs in
  if (n =? 0)%nat then ([], vs)
  else
    match _all_chunks_cache vs with
    | Some cached =>
        if (_all_chunks_cache_size vs =? Z.of_nat n)%Z then (cached, vs)
        else
          let fresh := map stored_chunk (collection vs) in
          (fresh, {| collection := collection vs;
                     _all_chunks_cache := Some fresh;
                     _all_chunks_cache_size := Z.of_nat n |})
    | None =>
        let fresh := map stored_chunk (collection vs) in
        (fresh, {| collection := collection vs;
                   _all_chunks_cache := Some fresh;
                   _all_chunks_cache_size := Z.of_nat n |})
    end.

Definition on_pages (page_numbers : list Z) (d : Doc) : bool :=
  bool_decide (page (doc_meta d) ∈ page_numbers).

(** [get_chunks_by_pages]: one page is looked up by equality, several with
    [$in]; both keep the rows whose page is among those asked for. *)
Definition get_chunks_by_pages (page_numbers : list Z) (vs : VectorStore)
    : list Hit :=
  if (count vs =? 0)%nat then []
  else map stored_chunk (filter (fun d => on_pages page_numbers d) (collection vs)).

(** [delete_chunks_by_document] *)
Definition delete_chunks_by_document (document_name : string)
    (vs : VectorStore) : nat * VectorStore :=
  if (count vs =? 0)%nat then (0%nat, vs)
  else
    let hit d := bool_decide (document (doc_meta d) = document_name) in
    let ids_to_delete := filter (fun d => hit d) (collection vs) in
    match ids_to_delete with
    | [] => (0%nat, vs)
    | _ =>
        (length ids_to_delete,
         {| collection := filter (fun d => negb (hit d)) (collection vs);
            _all_chunks_cache := None;
            _all_chunks_cache_size := -1 |})
    end.

(** [clear] *)
Definition clear (vs : VectorStore) : VectorStore :=
  {| collection := []; _all_chunks_cache := None;
     _all_chunks_cache_size := -1 |}.

(** The cache, when it is the one [get_all_chunks] would return, lists the
    rows of the collection. *)
Definition cache_coherent (vs : VectorStore) : Prop :=
  forall cached,
    _all_chunks_cache vs = Some cached ->
    _all_chunks_cache_size vs = Z.of_nat (count vs) ->
    cached = map stored_chunk (collection vs).

End Store.

(** *** The retriever ([backend/rag/retriever.py]) *)

Module Retriever.

Import Store.

Definition RERANK_TOP_K : nat := 5.
Definition BM25_WEIGHT : Q := 0.3.
Definition SEMANTIC_WEIGHT : Q := 0.7.

(** [BM25Okapi(tokenized)]: the index is determined by the tokenised corpus
    it was built from. *)
Record BM25Okapi := { corpus : list (list string) }.

(** [bm25.get_scores(query_tokens)]: one score per indexed document. *)
Definition get_scores `{Collaborators} (bm25 : BM25Okapi)
    (query_tokens : list string) : list Q :=
  map (bm25_score (corpus bm25) query_tokens) (corpus bm25).

(** What a run leaves in the log: the stage functions entered and the one
    line [_get_bm25_index] logs when it rebuilds. *)
Inductive event :=
| CallSearch (query : string) (k : nat)          (* vector_store.search *)
| CallBm25Search (query : string) (k : nat)      (* _bm25_search *)
| Bm25Rebuilt (n : nat)                          (* "BM25 index rebuilt for n chunks" *)
| CallFusion                                     (* _reciprocal_rank_fusion *)
| CallRerank                                     (* _rerank *)
| LoadCrossEncoder                               (* CrossEncoder(RERANKER_MODEL) *)
| CallPredict (n : nat)                          (* ce.predict on n pairs *)
| CallGetChunksByPages (pages : list Z)
| CallGetAllChunks.

(** The module-level state of the process: the store singleton, the
    cross-encoder singleton (loaded or not) and the BM25 cache. *)
Record State := {
  vector_store : VectorStore;
  _cross_encoder : bool;
  _bm25_cache_size : Z;
  _bm25_index : option BM25Okapi;
  _bm25_chunks : list Hit;
  calls : list event
}.

(** The state of a process that has just imported the modules. *)
Definition boot (vs : VectorStore) : State :=
  {| vector_store := vs; _cross_encoder := false; _bm25_cache_size := -1;
     _bm25_index := None; _bm25_chunks := []; calls := [] |}.

Definition with_store (vs : VectorStore) (s : State) : State :=
  {| vector_store := vs; _cross_encoder := _cross_encoder s;
     _bm25_cache_size := _bm25_cache_size s; _bm25_index := _bm25_index s;
     _bm25_chunks := _bm25_chunks s; calls := calls s |}.

Definition with_cross_encoder (b : bool) (s : State) : State :=
  {| vector_store := vector_store s; _cross_encoder := b;
     _bm25_cache_size := _bm25_cache_size s; _bm25_index := _bm25_index s;
     _bm25_chunks := _bm25_chunks s; calls := calls s |}.

Definition with_bm25 (n : Z) (bm25 : option BM25Okapi) (cs : list Hit)
    (s : State) : State :=
  {| vector_store := vector_store s; _cross_encoder := _cross_encoder s;
     _bm25_cache_size := n; _bm25_index := bm25; _bm25_chunks := cs;
     calls := calls s |}.

Definition with_calls (l : list event) (s : State) : State :=
  {| vector_store := vector_store s; _cross_encoder := _cross_encoder s;
     _bm25_cache_size := _bm25_cache_size s; _bm25_index := _bm25_index s;
     _bm25_chunks := _bm25_chunks s; calls := l |}.

(** Computations that read and write the state and may raise. *)
Definition M (A : Type) : Type := State -> result (A * State).

Definition ret {A : Type} (a : A) : M A := fun s => Ok (a, s).

Definition bind {A B : Type} (m : M A) (f : A -> M B) : M B :=
  fun s =>
    match m s with
    | Ok (a, s') => f a s'
    | Raise e => Raise e
    end.

Definition lift {A : Type} (r : result A) : M A :=
  fun s =>
    match r with
    | Ok a => Ok (a, s)
    | Raise e => Raise e
    end.

Definition get : M State := fun s => Ok (s, s).
Definition put (s' : State) : M unit := fun _ => Ok (tt, s').
Definition record (e : event) : M unit :=
  fun s => Ok (tt, with_calls (calls s ++ [e]) s).

Declare Scope py_scope.
Delimit Scope py_scope with py.
Notation "'let*' x ':=' m 'in' k" := (bind m (fun x => k))
  (at level 10, x pattern, m at level 100, k at level 200) : py_scope.
Notation "m1 ';;' m2" := (bind m1 (fun _ => m2))
  (at level 100, m2 at level 200, right associativity, only parsing) : py_scope.
Open Scope py_scope.

(** [vector_store.size] *)
Definition store_size : M nat := fun s => Ok (size (vector_store s), s).

(** [vector_store.get_all_chunks()] *)
Definition store_get_all_chunks : M (list Hit) :=
  record CallGetAllChunks ;;
  fun s =>
    let '(cs, vs') := get_all_chunks (vector_store s) in
    Ok (cs, with_store vs' s).

(** [vector_store.search(query, top_k=k)] *)
Definition store_search `{Collaborators} (query : string) (k : nat)
    : M (list Hit) :=
  record (CallSearch query k) ;;
  fun s => Ok (search query (Some k) (vector_store s), s).

(** [vector_store.get_chunks_by_pages(pages)] *)
Definition store_get_chunks_by_pages (pages : list Z) : M (list Hit) :=
  record (CallGetChunksByPages pages) ;;
  fun s => Ok (get_chunks_by_pages pages (vector_store s), s).

(** [_get_cross_encoder]: the model is loaded on first use. *)
Definition _get_cross_encoder : M unit :=
  let* s := get in
  if _cross_encoder s then ret tt
  else record LoadCrossEncoder ;;
       fun s => Ok (tt, with_cross_encoder true s).

(** [doc.lower().split()] *)
Definition tokenize (doc : string) : list string :=
  PyStr.split (PyStr.lower doc).

(** [_get_bm25_index] *)
Definition _get_bm25_index : M (option BM25Okapi * list Hit) :=
  let* current_size := store_size in
  if (current_size =? 0)%nat then ret (None, [])
  else
    let* s := get in
    if negb (Z.of_nat current_size =? _bm25_cache_size s)%Z then
      let* all_chunks := store_get_all_chunks in
      match all_chunks with
      | [] => ret (None, [])
      | _ =>
          let tokenized := map (fun c => tokenize (chunk c)) all_chunks in
          let bm25 := {| corpus := tokenized |} in
          (fun s => Ok (tt, with_bm25 (Z.of_nat current_size) (Some bm25)
                              all_chunks s)) ;;
          record (Bm25Rebuilt current_size) ;;
          let* s := get in
          ret (_bm25_index s, _bm25_chunks s)
      end
    else
      ret (_bm25_index s, _bm25_chunks s).

(** The loop of [_bm25_search] over the chosen indices. *)
Fixpoint bm25_collect (scores_np : list Q) (all_chunks : list Hit)
    (top_indices : list nat) : result (list Hit) :=
  match top_indices with
  | [] => Ok []
  | idx :: rest =>
      match getitem scores_np idx with
      | Raise e => Raise e
      | Ok s =>
          if Qle_bool s 0 then bm25_collect scores_np all_chunks rest
          else
            match getitem all_chunks idx with
            | Raise e => Raise e
            | Ok c =>
                match bm25_collect scores_np all_chunks rest with
                | Raise e => Raise e
                | Ok results =>
                    Ok ({| chunk := chunk c; metadata := metadata c;
                           score := Some s; source := Some "bm25";
                           rrf_score := None; rerank_score := None |}
                        :: results)
                end
            end
      end
  end.

(** The indices [_bm25_search] visits, in the order it visits them:
    [np.argpartition(scores_np, -k)[-k:]] reordered by
    [np.argsort(scores_np[top_indices])[::-1]]. *)
Definition top_k_indices `{Collaborators} (scores_np : list Q) (k : nat)
    : result (list nat) :=
  let part := argpartition scores_np (- Z.of_nat k) in
  let top_indices := drop (length part - k) part in
  match fancy_index scores_np top_indices with
  | Raise e => Raise e
  | Ok top_scores => fancy_index top_indices (rev (argsort top_scores))
  end.

(** [_bm25_search] *)
Definition _bm25_search `{Collaborators} (query : string) (top_k : nat)
    : M (list Hit) :=
  record (CallBm25Search query top_k) ;;
  let* (bm25_opt, all_chunks) := _get_bm25_index in
  match bm25_opt with
  | None => ret []
  | Some bm25 =>
      let query_tokens := tokenize query in
      let scores_np := get_scores bm25 query_tokens in
      let k := Nat.min top_k (length scores_np) in
      if (k =? 0)%nat then ret []
      else
        let* top_indices := lift (top_k_indices scores_np k) in
        lift (bm25_collect scores_np all_chunks top_indices)
  end.

(** A [dict] that remembers the order in which its keys were first set. *)
Definition odict (V : Type) := list (string * V).

Fixpoint dict_get {V : Type} (d : odict V) (key : string) (dflt : V) : V :=
  match d with
  | [] => dflt
  | (k, v) :: d' => if String.eqb k key then v else dict_get d' key dflt
  end.

Fixpoint dict_set {V : Type} (d : odict V) (key : string) (v : V) : odict V :=
  match d with
  | [] => [(key, v)]
  | (k, v0) :: d' =>
      if String.eqb k key then (k, v) :: d' else (k, v0) :: dict_set d' key v
  end.

Definition keys {V : Type} (d : odict V) : list string := map fst d.

(** The two dicts of [_reciprocal_rank_fusion]. *)
Record fusion_acc := {
  scores : odict Q;
  chunk_map : gmap string Hit
}.

(** One round of the first loop. *)
Definition rrf_semantic_step (k : nat) (acc : fusion_acc) (item : nat * Hit)
    : fusion_acc :=
  let '(rank, r) := item in
  let text := chunk r in
  {| scores :=
       dict_set (scores acc) text
         (dict_get (scores acc) text 0
          + SEMANTIC_WEIGHT / inject_Z (Z.of_nat (k + rank + 1)))%Q;
     chunk_map := <[text := r]> (chunk_map acc) |}.

(** One round of the second loop. *)
Definition rrf_bm25_step (k : nat) (acc : fusion_acc) (item : nat * Hit)
    : fusion_acc :=
  let '(rank, r) := item in
  let text := chunk r in
  {| scores :=
       dict_set (scores acc) text
         (dict_get (scores acc) text 0
          + BM25_WEIGHT / inject_Z (Z.of_nat (k + rank + 1)))%Q;
     chunk_map :=
       match chunk_map acc !! text with
       | None => <[text := r]> (chunk_map acc)
       | Some _ => chunk_map acc
       end |}.

(** The state of the two dicts after both loops. *)
Definition rrf_accumulate (semantic_results bm25_results : list Hit) (k : nat)
    : fusion_acc :=
  let acc0 := {| scores := []; chunk_map := ∅ |} in
  let acc1 := foldl (rrf_semantic_step k) acc0 (enumerate semantic_results) in
  foldl (rrf_bm25_step k) acc1 (enumerate bm25_results).

(** The last loop: a copy of the mapped entry with its fused score. *)
Fixpoint rrf_entries (acc : fusion_acc) (sorted_texts : list string)
    : result (list Hit) :=
  match sorted_texts with
  | [] => Ok []
  | text :: rest =>
      match chunk_map acc !! text with
      | None => Raise KeyError
      | Some r =>
          let entry := set_rrf_score (dict_get (scores acc) text 0%Q) r in
          match rrf_entries acc rest with
          | Ok fused => Ok (entry :: fused)
          | Raise e => Raise e
          end
      end
  end.

(** [_reciprocal_rank_fusion] *)
Definition _reciprocal_rank_fusion (semantic_results bm25_results : list Hit)
    (k : nat) : result (list Hit) :=
  let acc := rrf_accumulate semantic_results bm25_results k in
  let sorted_texts :=
    sort_desc (fun t => dict_get (scores acc) t 0%Q) (keys (scores acc)) in
  rrf_entries acc sorted_texts.

(** [for i, score in enumerate(ce_scores): candidates[i]["rerank_score"] =
    float(score)] *)
Fixpoint attach_scores (candidates : list Hit) (ce_scores : list Q)
    : result (list Hit) :=
  match ce_scores, candidates with
  | [], _ => Ok candidates
  | _ :: _, [] => Raise IndexError
  | sc :: ce_scores', c :: candidates' =>
      match attach_scores candidates' ce_scores' with
      | Ok cs => Ok (set_rerank_score sc c :: cs)
      | Raise e => Raise e
      end
  end.

(** The key function [lambda x: x["rerank_score"]] applied to every entry. *)
Fixpoint rerank_keys (candidates : list Hit) : result (list (Q * Hit)) :=
  match candidates with
  | [] => Ok []
  | c :: candidates' =>
      match rerank_score c with
      | None => Raise KeyError
      | Some v =>
          match rerank_keys candidates' with
          | Ok l => Ok ((v, c) :: l)
          | Raise e => Raise e
          end
      end
  end.

(** [_rerank] *)
Definition _rerank `{Collaborators} (query : string) (candidates : list Hit)
    (top_k : nat) : M (list Hit) :=
  record CallRerank ;;
  match candidates with
  | [] => ret []
  | _ =>
      _get_cross_encoder ;;
      let pairs := map (fun c => (query, chunk c)) candidates in
      record (CallPredict (length pairs)) ;;
      let ce_scores := ce_predict pairs in
      let* scored := lift (attach_scores candidates ce_scores) in
      let* keyed := lift (rerank_keys scored) in
      ret (take top_k (map snd (sort_desc fst keyed)))
  end.

(** [hybrid_retrieve] *)
Definition hybrid_retrieve `{Collaborators} (query : string) : M (list Hit) :=
  let* n := store_size in
  if (n =? 0)%nat then ret []
  else
    let* n := store_size in
    let first_pass_k := Nat.min RETRIEVAL_TOP_K n in
    let* semantic_hits := store_search query first_pass_k in
    let semantic_hits := map (set_source "semantic") semantic_hits in
    let* bm25_hits := _bm25_search query first_pass_k in
    record CallFusion ;;
    let* fused := lift (_reciprocal_rank_fusion semantic_hits bm25_hits 60) in
    let rerank_candidates := Nat.min (RETRIEVAL_TOP_K * 2) (length fused) in
    _rerank query (take rerank_candidates fused) RERANK_TOP_K.

End Retriever.

(** *** The question-answering chain ([backend/rag/chain.py]) *)

Module Chain.

Import Re Store Retriever.

(** If total stored chunks <= this threshold, every chunk is sent. *)
Definition _FULL_DOC_CHUNK_THRESHOLD : nat := 40.

Fixpoint Cat (rs : list regex) : regex :=
  match rs with
  | [] => Eps
  | r :: rs' => Seq r (Cat rs')
  end.

Fixpoint AnyOf (rs : list regex) : regex :=
  match rs with
  | [] => Seq WordB (Seq (Lit "a") WordB)   (* never matches; not used *)
  | [r] => r
  | r :: rs' => Alt r (AnyOf rs')
  end.

(** [\bpages?\s+(\d+)\s*(?:to|through|[-–—])\s*(\d+)\b] *)
Definition pat_range : pattern :=
  {| syntax :=
       Cat [WordB; Str "page"; Opt (Lit "s"); Plus Space;
            Group 0 (Plus Digit); Star Space;
            AnyOf [Str "to"; Str "through"; AnyOf [Str "-"; Str "–"; Str "—"]];
            Star Space; Group 1 (Plus Digit); WordB];
     ngroups := 2 |}.

(** [\bpages?\s+(\d+(?:\s*,\s*\d+)+)\b] *)
Definition pat_list : pattern :=
  {| syntax :=
       Cat [WordB; Str "page"; Opt (Lit "s"); Plus Space;
            Group 0
              (Seq (Plus Digit)
                 (Plus (Cat [Star Space; Lit ","; Star Space; Plus Digit])));
            WordB];
     ngroups := 1 |}.

(** [\bpages?\s*#?\s*(\d+)\b] *)
Definition pat_single : pattern :=
  {| syntax :=
       Cat [WordB; Str "page"; Opt (Lit "s"); Star Space; Opt (Lit "#");
            Star Space; Group 0 (Plus Digit); WordB];
     ngroups := 1 |}.

(** [\bpg\.?\s*(\d+)\b] *)
Definition pat_pg : pattern :=
  {| syntax :=
       Cat [WordB; Str "pg"; Opt (Lit "."); Star Space;
            Group 0 (Plus Digit); WordB];
     ngroups := 1 |}.

(** [\b(?:on|in|at|from)\s+page\s*(\d+)\b] *)
Definition pat_on_page : pattern :=
  {| syntax :=
       Cat [WordB; AnyOf [Str "on"; Str "in"; Str "at"; Str "from"];
            Plus Space; Str "page"; Star Space; Group 0 (Plus Digit); WordB];
     ngroups := 1 |}.

Definition _PAGE_PATTERNS : list pattern :=
  [pat_range; pat_list; pat_single; pat_pg; pat_on_page].

(** The page numbers one match stands for: both ends and all between for a
    match with two groups, every run of digits of the group otherwise. *)
Definition match_numbers (m : match_obj) : list Z :=
  match groups m with
  | [Some g0; Some g1] =>
      let start := PyStr.int g0 in
      let end_ := PyStr.int g1 in
      PyStr.range start (end_ + 1)
  | Some raw :: _ => map PyStr.int (PyStr.digit_runs raw)
  | _ => []
  end.

(** The body of the inner loop: [pages.update(...)] or [pages.add(...)]. *)
Definition visit_match (pages : gset Z) (m : match_obj) : gset Z :=
  foldl (fun acc n => {[ n ]} ∪ acc) pages (match_numbers m).

Definition visit_pattern (question : string) (pages : gset Z) (pat : pattern)
    : gset Z :=
  foldl visit_match pages (finditer pat question).

(** [sorted(pages)] for a set of integers. *)
Definition sorted (pages : gset Z) : list Z := merge_sort Z.le (elements pages).

Definition _extract_page_numbers (question : string) : list Z :=
  sorted (foldl (visit_pattern question) ∅ _PAGE_PATTERNS).

(** The list [query_rag] binds to [results], and the empty list when it
    returns at once because nothing has been uploaded.  The rest of
    [query_rag] formats these entries for the language model and for the
    [sources] of the answer. *)
Definition query_rag_results `{Collaborators} (question : string)
    : M (list Hit) :=
  let* n := store_size in
  if (n =? 0)%nat then ret []
  else
    let requested_pages := _extract_page_numbers question in
    let* total_chunks := store_size in
    match requested_pages with
    | _ :: _ =>
        let* page_data := store_get_chunks_by_pages requested_pages in
        match page_data with
        | _ :: _ => ret (map exact_result page_data)
        | [] => hybrid_retrieve question
        end
    | [] =>
        if (total_chunks <=? _FULL_DOC_CHUNK_THRESHOLD)%nat then
          let* all_data := store_get_all_chunks in
          ret (map exact_result all_data)
        else hybrid_retrieve question
    end.

End Chain.

(** * Vocabulary of the statements *)

Import Store Retriever.

Section PageVocabulary.

Import Re.



End PageVocabulary.

(** The order [sort_desc key] sorts by: larger keys first. *)
Definition desc {A : Type} (key : A -> Q) (x y : A) : Prop :=
  (key y <= key x)%Q.

(** One term of the fusion formula. *)
Definition rrf_term (w : Q) (k rank : nat) : Q :=
  (w / inject_Z (Z.of_nat (k + rank + 1)))%Q.

(** The sum the specification gives for one list: a term for every entry of
    [l] whose text is [t], the first entry of [l] having rank [rank]. *)
Fixpoint contributions (w : Q) (k : nat) (t : string) (rank : nat)
    (l : list Hit) : Q :=
  match l with
  | [] => 0%Q
  | r :: l' =>
      ((if String.eqb (chunk r) t then rrf_term w k rank else 0)
       + contributions w k t (S rank) l')%Q
  end.

Definition rrf_sum (k : nat) (t : string) (sem bm : list Hit) : Q :=
  (contributions SEMANTIC_WEIGHT k t 0 sem
   + contributions BM25_WEIGHT k t 0 bm)%Q.

Fixpoint first_with (t : string) (l : list Hit) : option Hit :=
  match l with
  | [] => None
  | r :: l' => if String.eqb (chunk r) t then Some r else first_with t l'
  end.

Fixpoint last_with (t : string) (l : list Hit) : option Hit :=
  match l with
  | [] => None
  | r :: l' =>
      match last_with t l' with
      | Some r' => Some r'
      | None => if String.eqb (chunk r) t then Some r else None
      end
  end.

(** The entry whose copy stands for text [t] in the fused list. *)
Definition retained (t : string) (sem bm : list Hit) : option Hit :=
  match last_with t sem with
  | Some r => Some r
  | None => first_with t bm
  end.

Definition add_key (ks : list string) (t : string) : list string :=
  if bool_decide (t ∈ ks) then ks else ks ++ [t].

Definition items {A : Type} (n : nat) (l : list A) : list (nat * A) :=
  combine (seq n (length l)) l.

(** [t] is the text of the entry at position [i] of [l] and of no other. *)
Definition only_at (t : string) (i : nat) (l : list Hit) : Prop :=
  (exists r, l !! i = Some r /\ chunk r = t) /\
  forall j r, l !! j = Some r -> chunk r = t -> j = i.

Definition absent (t : string) (l : list Hit) : Prop :=
  forall r, r ∈ l -> chunk r <> t.
(** Both loops update [scores] in the same way, with their own weight. *)
Definition scores_step (k : nat) (w : Q)
    (step : fusion_acc -> nat * Hit -> fusion_acc) : Prop :=
  forall acc rank r,
    scores (step acc (rank, r)) =
    dict_set (scores acc) (chunk r)
      (dict_get (scores acc) (chunk r) 0 + rrf_term w k rank)%Q.

(** The key the fused list is sorted by. *)
Definition rrf_key (h : Hit) : Q := default 0%Q (rrf_score h).

(** [t] is the text of an entry at position [p] of [l]; no position when no
    entry of [l] has text [t]. *)
Definition position_of (t : string) (l : list Hit) (p : option nat) : Prop :=
  match p with
  | Some i => exists r, l !! i = Some r /\ chunk r = t
  | None => absent t l
  end.

Definition opt_term (w : Q) (k : nat) (p : option nat) : Q :=
  match p with
  | Some i => rrf_term w k i
  | None => 0%Q
  end.

(** The score formula read with one term per list: the fused score of a text
    is the term of its position in the semantic list (if it is there) plus
    the term of its position in the BM25 list (if it is there). *)
Definition one_term_per_list (sem bm : list Hit) : Prop :=
  forall fused e,
    _reciprocal_rank_fusion sem bm 60 = Ok fused -> e ∈ fused ->
    exists v ps pb,
      rrf_score e = Some v /\
      position_of (chunk e) sem ps /\ position_of (chunk e) bm pb /\
      (v == opt_term SEMANTIC_WEIGHT 60 ps + opt_term BM25_WEIGHT 60 pb)%Q.

Definition sample_meta (p : Z) : Metadata :=
  {| document := "lease.pdf"; page := p; chunk_index := 0;
     extraction_method := "text" |}.

Definition sample_hit (t : string) (p : Z) : Hit :=
  {| chunk := t; metadata := sample_meta p; score := None; source := None;
     rrf_score := None; rerank_score := None |}.

(** The deduplication rule read as "the first occurrence wins": an entry
    whose text is in both lists carries the text and metadata of the first
    entry with that text, the semantic list being read before the BM25
    list. *)
Definition first_occurrence_retained (sem bm : list Hit) : Prop :=
  forall fused e,
    _reciprocal_rank_fusion sem bm 60 = Ok fused -> e ∈ fused ->
    chunk e ∈ map chunk sem -> chunk e ∈ map chunk bm ->
    exists r,
      first_with (chunk e) (sem ++ bm) = Some r /\
      chunk e = chunk r /\ metadata e = metadata r.

(** The index [_get_bm25_index] builds from a list of chunks. *)
Definition build_index (all_chunks : list Hit) : BM25Okapi :=
  {| corpus := map (fun c => tokenize (chunk c)) all_chunks |}.

(** The part of [_bm25_search] after [_get_bm25_index] has answered. *)
Definition bm25_hits `{Collaborators} (bm25_opt : option BM25Okapi)
    (all_chunks : list Hit) (query : string) (top_k : nat)
    : result (list Hit) :=
  match bm25_opt with
  | None => Ok []
  | Some bm25 =>
      let scores_np := get_scores bm25 (tokenize query) in
      let k := Nat.min top_k (length scores_np) in
      if (k =? 0)%nat then Ok []
      else
        match top_k_indices scores_np k with
        | Raise e => Raise e
        | Ok top_indices => bm25_collect scores_np all_chunks top_indices
        end
  end.

(** The state [_get_bm25_index] leaves when it rebuilds from [all_chunks],
    the store having answered [get_all_chunks] with the store [vs']. *)
Definition rebuilt (n : nat) (all_chunks : list Hit) (vs' : VectorStore)
    (s : State) : State :=
  {| vector_store := vs'; _cross_encoder := _cross_encoder s;
     _bm25_cache_size := Z.of_nat n;
     _bm25_index := Some (build_index all_chunks);
     _bm25_chunks := all_chunks;
     calls := calls s ++ [CallGetAllChunks; Bm25Rebuilt n] |}.

(** The cached index scores as many documents as there are cached chunks. *)
Definition cache_aligned (s : State) : Prop :=
  forall bm25, _bm25_index s = Some bm25 ->
               length (corpus bm25) = length (_bm25_chunks s).

Definition sample_doc (t : string) (p : Z) : Doc :=
  {| doc_text := t; doc_meta := sample_meta p |}.

Definition sample_rows : list Doc :=
  [sample_doc "Section 5 governs termination." 1;
   sample_doc "Payment due in 30 days." 2;
   sample_doc "Confidentiality applies for 2 years." 3].

(** ** A small instance of the collaborators

    Scores by counting shared words; sorting by insertion.  It serves to run
    the pipeline on examples. *)

Module Toy.

(** How many tokens of [q] occur in [d]. *)
Definition overlap (q d : list string) : nat :=
  length (filter (fun t => t ∈ d) q).

Definition overlap_score (q d : list string) : Q :=
  inject_Z (Z.of_nat (overlap q d)).

(** Cosine distance stands for: the more shared words, the nearer. *)
Definition distance (query : string) (d : Doc) : Q :=
  (1 / inject_Z (Z.of_nat (1 + overlap (tokenize query) (tokenize (doc_text d)))))%Q.

Fixpoint insert_asc (a : list Q) (i : nat) (l : list nat) : list nat :=
  match l with
  | [] => [i]
  | j :: l' =>
      if Qle_bool (at_index a i) (at_index a j) then i :: j :: l'
      else j :: insert_asc a i l'
  end.

Definition sort_indices (a : list Q) : list nat :=
  foldr (insert_asc a) [] (seq 0 (length a)).

Definition nearest (rows : list Doc) (query : string) (k : nat)
    : list (Doc * Q) :=
  take k (map (fun d => (d, distance query d)) rows).

#[export] Instance toy : Collaborators := {|
  chroma_query := nearest;
  bm25_score := fun _ q d => overlap_score q d;
  argpartition := fun a _ => sort_indices a;
  argsort := sort_indices;
  ce_predict :=
    map (fun qp : string * string =>
           overlap_score (tokenize qp.1) (tokenize qp.2))
|}.

End Toy.

(** The candidate [_bm25_search] makes of the chunk at index [i]. *)
Definition bm25_hit_at (scores_np : list Q) (all_chunks : list Hit) (i : nat)
    : option Hit :=
  match all_chunks !! i with
  | Some c =>
      Some {| chunk := chunk c; metadata := metadata c;
              score := Some (at_index scores_np i); source := Some "bm25";
              rrf_score := None; rerank_score := None |}
  | None => None
  end.

Definition score_key (h : Hit) : Q := default 0%Q (score h).

(** The indices whose score is positive. *)
Definition positive_score (a : list Q) (i : nat) : bool :=
  negb (Qle_bool (at_index a i) 0).

Definition rerank_key (h : Hit) : Q := default 0%Q (rerank_score h).

(** [pairs] of [_rerank]. *)
Definition pairs_of (query : string) (candidates : list Hit)
    : list (string * string) :=
  map (fun c => (query, chunk c)) candidates.

(** What [_rerank] returns, apart from what it does to the state. *)
Definition rerank_result `{Collaborators} (query : string)
    (candidates : list Hit) (top_k : nat) : result (list Hit) :=
  match candidates with
  | [] => Ok []
  | _ =>
      match attach_scores candidates (ce_predict (pairs_of query candidates)) with
      | Raise e => Raise e
      | Ok scored =>
          match rerank_keys scored with
          | Raise e => Raise e
          | Ok keyed => Ok (take top_k (map snd (sort_desc fst keyed)))
          end
      end
  end.

(** What [_rerank] does to the state. *)
Definition rerank_state (candidates : list Hit) (s : State) : State :=
  match candidates with
  | [] => with_calls (calls s ++ [CallRerank]) s
  | _ =>
      {| vector_store := vector_store s; _cross_encoder := true;
         _bm25_cache_size := _bm25_cache_size s;
         _bm25_index := _bm25_index s; _bm25_chunks := _bm25_chunks s;
         calls := calls s ++ [CallRerank]
                  ++ (if _cross_encoder s then [] else [LoadCrossEncoder])
                  ++ [CallPredict (length candidates)] |}
  end.

(** The candidates with the scores of the cross-encoder attached, one score
    per candidate. *)
Definition scored_candidates `{Collaborators} (query : string)
    (candidates : list Hit) : list Hit :=
  map (fun cv : Hit * Q => set_rerank_score cv.2 cv.1)
      (combine candidates (ce_predict (pairs_of query candidates))).

(** What [hybrid_retrieve] returns on a non-empty store, given what
    [_get_bm25_index] answered. *)
Definition hybrid_result `{Collaborators} (vs : VectorStore)
    (bm25_opt : option BM25Okapi) (all_chunks : list Hit) (query : string)
    : result (list Hit) :=
  let first_pass_k := Nat.min RETRIEVAL_TOP_K (size vs) in
  let semantic_hits :=
    map (set_source "semantic") (search query (Some first_pass_k) vs) in
  match bm25_hits bm25_opt all_chunks query first_pass_k with
  | Raise e => Raise e
  | Ok bm25 =>
      match _reciprocal_rank_fusion semantic_hits bm25 60 with
      | Raise e => Raise e
      | Ok fused =>
          rerank_result query
            (take (Nat.min (RETRIEVAL_TOP_K * 2) (length fused)) fused)
            RERANK_TOP_K
      end
  end.

(** The candidates [hybrid_retrieve] hands to [_rerank]. *)
Definition hybrid_candidates `{Collaborators} (vs : VectorStore)
    (bm25_opt : option BM25Okapi) (all_chunks : list Hit) (query : string)
    : list Hit :=
  let first_pass_k := Nat.min RETRIEVAL_TOP_K (size vs) in
  let semantic_hits :=
    map (set_source "semantic") (search query (Some first_pass_k) vs) in
  match bm25_hits bm25_opt all_chunks query first_pass_k with
  | Raise e => []
  | Ok bm25 =>
      match _reciprocal_rank_fusion semantic_hits bm25 60 with
      | Raise e => []
      | Ok fused => take (Nat.min (RETRIEVAL_TOP_K * 2) (length fused)) fused
      end
  end.

(** Two states hold the same BM25 cache. *)
Definition same_cache (s t : State) : Prop :=
  _bm25_cache_size s = _bm25_cache_size t /\
  _bm25_index s = _bm25_index t /\ _bm25_chunks s = _bm25_chunks t.

(** The cache is either out of date by its size, so that the next search
    rebuilds it, or it is the one a rebuild from the rows of the store
    gives. *)
Definition cache_current (s : State) : Prop :=
  let all_chunks := map stored_chunk (collection (vector_store s)) in
  Z.of_nat (size (vector_store s)) <> _bm25_cache_size s \/
  (_bm25_index s = Some (build_index all_chunks) /\
   _bm25_chunks s = all_chunks).




(** The four stages of the hybrid pipeline. *)
Inductive stage := Dense | Sparse | Fusion | Rerank.

Definition stage_of (e : event) : option stage :=
  match e with
  | CallSearch _ _ => Some Dense
  | CallBm25Search _ _ => Some Sparse
  | CallFusion => Some Fusion
  | CallRerank => Some Rerank
  | _ => None
  end.

(** The stages entered, in order, in a piece of the log. *)
Definition stages (log : list event) : list stage := omap stage_of log.

(** The rows of the store that lie on one of the pages. *)
Definition rows_on_pages (pages : list Z) (vs : VectorStore) : list Doc :=
  filter (fun d => on_pages pages d) (collection vs).

(** A store of 41 chunks with different texts, one to a page. *)
Definition many_rows : list Doc :=
  map (fun i => sample_doc (String (ascii_of_nat (48 + i)) " general clause")
                  (Z.of_nat i))
      (seq 1 41).

(** ** The retriever over a store of objects

    The same functions of [backend/rag/retriever.py] and of
    [backend/vectorstore/store.py], with the dicts and lists they pass
    around as objects in a heap, so that two names for one dict or list are
    one location and an assignment [d[key] = v] or an in-place [sort] is a
    write to it.  Objects are never freed; a new object gets the next free
    location. *)

Module Heap.

Import Store Retriever.

Definition loc := nat.

Inductive val :=
| VStr (s : string)
| VInt (z : Z)
| VNum (q : Q)
| VRef (l : loc).

Inductive obj :=
| ODict (d : gmap string val)       (* a dict with string keys *)
| OList (xs : list loc).            (* a list of dicts *)

Inductive error := IndexErr | KeyErr | TypeErr.

Inductive outcome (A : Type) : Type :=
| Done (a : A)
| Fail (e : error).
Arguments Done {A} a.
Arguments Fail {A} e.

(** The heap, the rows of the ChromaDB collection (which live outside the
    Python heap) and the module-level variables. *)
Record PState := {
  heap : list obj;
  rows : list Doc;
  all_chunks_cache : option loc;      (* vector_store._all_chunks_cache *)
  all_chunks_cache_size : Z;
  cross_encoder : bool;
  bm25_cache_size : Z;
  bm25_index : option BM25Okapi;
  bm25_chunks : loc
}.

Definition set_heap (h : list obj) (s : PState) : PState :=
  {| heap := h; rows := rows s; all_chunks_cache := all_chunks_cache s;
     all_chunks_cache_size := all_chunks_cache_size s;
     cross_encoder := cross_encoder s; bm25_cache_size := bm25_cache_size s;
     bm25_index := bm25_index s; bm25_chunks := bm25_chunks s |}.

Definition set_store_cache (l : loc) (n : Z) (s : PState) : PState :=
  {| heap := heap s; rows := rows s; all_chunks_cache := Some l;
     all_chunks_cache_size := n;
     cross_encoder := cross_encoder s; bm25_cache_size := bm25_cache_size s;
     bm25_index := bm25_index s; bm25_chunks := bm25_chunks s |}.

Definition set_cross_encoder (b : bool) (s : PState) : PState :=
  {| heap := heap s; rows := rows s; all_chunks_cache := all_chunks_cache s;
     all_chunks_cache_size := all_chunks_cache_size s;
     cross_encoder := b; bm25_cache_size := bm25_cache_size s;
     bm25_index := bm25_index s; bm25_chunks := bm25_chunks s |}.

Definition set_bm25 (n : Z) (bm25 : BM25Okapi) (l : loc) (s : PState)
    : PState :=
  {| heap := heap s; rows := rows s; all_chunks_cache := all_chunks_cache s;
     all_chunks_cache_size := all_chunks_cache_size s;
     cross_encoder := cross_encoder s; bm25_cache_size := n;
     bm25_index := Some bm25; bm25_chunks := l |}.

(** Computations over the heap.  The state is returned also when an
    exception is raised: what was written before stays written. *)
Definition P (A : Type) : Type := PState -> outcome A * PState.

Definition pret {A : Type} (a : A) : P A := fun s => (Done a, s).

Definition pbind {A B : Type} (m : P A) (f : A -> P B) : P B :=
  fun s =>
    match m s with
    | (Done a, s') => f a s'
    | (Fail e, s') => (Fail e, s')
    end.

Definition raise {A : Type} (e : error) : P A := fun s => (Fail e, s).
Definition pget : P PState := fun s => (Done s, s).
Definition pmodify (f : PState -> PState) : P unit := fun s => (Done tt, f s).

Declare Scope heap_scope.
Delimit Scope heap_scope with heap.
Notation "'let!' x ':=' m 'in' k" := (pbind m (fun x => k))
  (at level 10, x pattern, m at level 100, k at level 200) : heap_scope.
Notation "m1 '>>' m2" := (pbind m1 (fun _ => m2))
  (at level 100, m2 at level 200, right associativity, only parsing)
  : heap_scope.
Open Scope heap_scope.

(** A new object. *)
Definition alloc (o : obj) : P loc :=
  fun s => (Done (length (heap s)), set_heap (heap s ++ [o]) s).

Definition load (l : loc) : P obj :=
  fun s =>
    match heap s !! l with
    | Some o => (Done o, s)
    | None => (Fail TypeErr, s)
    end.

Definition load_dict (l : loc) : P (gmap string val) :=
  let! o := load l in
  match o with
  | ODict d => pret d
  | OList _ => raise TypeErr
  end.

Definition load_list (l : loc) : P (list loc) :=
  let! o := load l in
  match o with
  | OList xs => pret xs
  | ODict _ => raise TypeErr
  end.

(** [d[key]] *)
Definition getitem (l : loc) (key : string) : P val :=
  let! d := load_dict l in
  match d !! key with
  | Some v => pret v
  | None => raise KeyErr
  end.

(** [d[key] = v]: the dict at [l] is changed in place. *)
Definition setitem (l : loc) (key : string) (v : val) : P unit :=
  let! d := load_dict l in
  pmodify (fun s => set_heap (<[l := ODict (<[key := v]> d)]> (heap s)) s).

(** The list at [l] is replaced in place, as by [l.sort(...)]. *)
Definition set_list (l : loc) (xs : list loc) : P unit :=
  let! _ := load_list l in
  pmodify (fun s => set_heap (<[l := OList xs]> (heap s)) s).

(** [xs[i]] *)
Definition index {A : Type} (xs : list A) (i : nat) : P A :=
  match xs !! i with
  | Some x => pret x
  | None => raise IndexErr
  end.

Definition as_str (v : val) : P string :=
  match v with
  | VStr s => pret s
  | _ => raise TypeErr
  end.

Definition as_num (v : val) : P Q :=
  match v with
  | VNum q => pret q
  | _ => raise TypeErr
  end.

Definition lift_result {A : Type} (r : result A) : P A :=
  match r with
  | Ok a => pret a
  | Raise IndexError => raise IndexErr
  | Raise KeyError => raise KeyErr
  end.

Fixpoint map_each {A B : Type} (f : A -> P B) (xs : list A) : P (list B) :=
  match xs with
  | [] => pret []
  | x :: xs' =>
      let! y := f x in
      let! ys := map_each f xs' in
      pret (y :: ys)
  end.

Fixpoint for_each {A : Type} (f : A -> P unit) (xs : list A) : P unit :=
  match xs with
  | [] => pret tt
  | x :: xs' => f x >> for_each f xs'
  end.

Fixpoint fold_each {A S : Type} (f : S -> A -> P S) (acc : S) (xs : list A)
    : P S :=
  match xs with
  | [] => pret acc
  | x :: xs' =>
      let! acc' := f acc x in
      fold_each f acc' xs'
  end.

(** The metadata dict ChromaDB hands out for a row. *)
Definition meta_dict (m : Metadata) : gmap string val :=
  list_to_map [("document", VStr (document m)); ("page", VInt (page m));
               ("chunk_index", VInt (chunk_index m));
               ("extraction_method", VStr (extraction_method m))].

(** [{"chunk": doc, "metadata": meta, ...}] for a row, with a metadata dict
    of its own. *)
Definition new_chunk_dict (extra : list (string * val)) (d : Doc) : P loc :=
  let! m := alloc (ODict (meta_dict (doc_meta d))) in
  alloc (ODict (list_to_map
                  (("chunk", VStr (doc_text d)) :: ("metadata", VRef m)
                   :: extra))).

(** [VectorStore.search] *)
Definition search `{Collaborators} (query : string) (top_k : option nat)
    : P loc :=
  let! s := pget in
  let count := length (rows s) in
  if (count =? 0)%nat then alloc (OList [])
  else
    let requested :=
      match top_k with
      | Some (S n) => S n
      | _ => RETRIEVAL_TOP_K
      end in
    let k := Nat.min requested count in
    let! hits :=
      map_each (fun r : Doc * Q => new_chunk_dict [("score", VNum r.2)] r.1)
           (chroma_query (rows s) query k) in
    alloc (OList hits).

(** [VectorStore.get_all_chunks] *)
Definition get_all_chunks : P loc :=
  let! s := pget in
  let count := length (rows s) in
  if (count =? 0)%nat then alloc (OList [])
  else
    let refresh :=
      let! cs := map_each (new_chunk_dict []) (rows s) in
      let! l := alloc (OList cs) in
      pmodify (set_store_cache l (Z.of_nat count)) >>
      pret l in
    match all_chunks_cache s with
    | Some cached =>
        if (all_chunks_cache_size s =? Z.of_nat count)%Z then pret cached
        else refresh
    | None => refresh
    end.

(** [_get_bm25_index] *)
Definition _get_bm25_index : P (option BM25Okapi * loc) :=
  let! s := pget in
  let current_size := length (rows s) in
  if (current_size =? 0)%nat then
    let! l := alloc (OList []) in pret (None, l)
  else if negb (Z.of_nat current_size =? bm25_cache_size s)%Z then
    let! all_chunks := get_all_chunks in
    let! cs := load_list all_chunks in
    match cs with
    | [] => let! l := alloc (OList []) in pret (None, l)
    | _ =>
        let! texts := map_each (fun c => let! v := getitem c "chunk" in as_str v)
                           cs in
        let bm25 := {| corpus := map tokenize texts |} in
        pmodify (set_bm25 (Z.of_nat current_size) bm25 all_chunks) >>
        let! s := pget in
        pret (bm25_index s, bm25_chunks s)
    end
  else pret (bm25_index s, bm25_chunks s).

(** The loop of [_bm25_search]. *)
Fixpoint bm25_collect (scores_np : list Q) (cs : list loc)
    (top_indices : list nat) : P (list loc) :=
  match top_indices with
  | [] => pret []
  | idx :: rest =>
      let! s := index scores_np idx in
      if Qle_bool s 0 then bm25_collect scores_np cs rest
      else
        let! c := index cs idx in
        let! text := getitem c "chunk" in
        let! meta := getitem c "metadata" in
        let! h := alloc (ODict (list_to_map
                                  [("chunk", text); ("metadata", meta);
                                   ("score", VNum s);
                                   ("source", VStr "bm25")])) in
        let! results := bm25_collect scores_np cs rest in
        pret (h :: results)
  end.

(** [_bm25_search] *)
Definition _bm25_search `{Collaborators} (query : string) (top_k : nat)
    : P loc :=
  let! (bm25_opt, all_chunks) := _get_bm25_index in
  match bm25_opt with
  | None => alloc (OList [])
  | Some bm25 =>
      let scores_np := get_scores bm25 (tokenize query) in
      let k := Nat.min top_k (length scores_np) in
      if (k =? 0)%nat then alloc (OList [])
      else
        let! top_indices := lift_result (top_k_indices scores_np k) in
        let! cs := load_list all_chunks in
        let! results := bm25_collect scores_np cs top_indices in
        alloc (OList results)
  end.

(** The two dicts of [_reciprocal_rank_fusion]; [chunk_map] maps a text to
    the dict that stands for it. *)
Record acc := { scores : odict Q; chunk_map : gmap string loc }.

Definition rrf_step (w : Q) (overwrite : bool) (k : nat) (a : acc)
    (item : nat * loc) : P acc :=
  let '(rank, r) := item in
  let! v := getitem r "chunk" in
  let! text := as_str v in
  pret {| scores :=
            dict_set (scores a) text
              (dict_get (scores a) text 0
               + w / inject_Z (Z.of_nat (k + rank + 1)))%Q;
          chunk_map :=
            if overwrite then <[text := r]> (chunk_map a)
            else match chunk_map a !! text with
                 | None => <[text := r]> (chunk_map a)
                 | Some _ => chunk_map a
                 end |}.

(** [entry = chunk_map[text].copy(); entry["rrf_score"] = scores[text]] *)
Definition rrf_entry (a : acc) (text : string) : P loc :=
  match chunk_map a !! text with
  | None => raise KeyErr
  | Some r =>
      let! d := load_dict r in
      let! entry := alloc (ODict d) in
      setitem entry "rrf_score" (VNum (dict_get (scores a) text 0%Q)) >>
      pret entry
  end.

(** [_reciprocal_rank_fusion] *)
Definition _reciprocal_rank_fusion (semantic_results bm25_results : loc)
    (k : nat) : P loc :=
  let! sem := load_list semantic_results in
  let! bm := load_list bm25_results in
  let! a1 := fold_each (rrf_step SEMANTIC_WEIGHT true k)
                   {| scores := []; chunk_map := ∅ |} (enumerate sem) in
  let! a2 := fold_each (rrf_step BM25_WEIGHT false k) a1 (enumerate bm) in
  let sorted_texts :=
    sort_desc (fun t => dict_get (scores a2) t 0%Q) (keys (scores a2)) in
  let! fused := map_each (rrf_entry a2) sorted_texts in
  alloc (OList fused).

(** The first loop of [_rerank]: [candidates[i]["rerank_score"] = score]. *)
Definition attach_score (cs : list loc) (item : nat * Q) : P unit :=
  let '(i, sc) := item in
  let! c := index cs i in
  setitem c "rerank_score" (VNum sc).

(** [_rerank] *)
Definition _rerank `{Collaborators} (query : string) (candidates : loc)
    (top_k : nat) : P loc :=
  let! cs := load_list candidates in
  match cs with
  | [] => alloc (OList [])
  | _ =>
      pmodify (set_cross_encoder true) >>
      let! texts := map_each (fun c => let! v := getitem c "chunk" in as_str v)
                         cs in
      let pairs := map (fun t => (query, t)) texts in
      let ce_scores := ce_predict pairs in
      for_each (attach_score cs) (enumerate ce_scores) >>
      let! keyed :=
        map_each (fun c => let! v := getitem c "rerank_score" in
                       let! q := as_num v in pret (q, c)) cs in
      let sorted := map snd (sort_desc fst keyed) in
      set_list candidates sorted >>
      alloc (OList (take top_k sorted))
  end.

(** [hybrid_retrieve] *)
Definition hybrid_retrieve `{Collaborators} (query : string) : P loc :=
  let! s := pget in
  let n := length (rows s) in
  if (n =? 0)%nat then alloc (OList [])
  else
    let first_pass_k := Nat.min RETRIEVAL_TOP_K n in
    let! semantic_hits := search query (Some first_pass_k) in
    let! hs := load_list semantic_hits in
    for_each (fun h => setitem h "source" (VStr "semantic")) hs >>
    let! bm25_hits := _bm25_search query first_pass_k in
    let! fused := _reciprocal_rank_fusion semantic_hits bm25_hits 60 in
    let! fs := load_list fused in
    let rerank_candidates := Nat.min (RETRIEVAL_TOP_K * 2) (length fs) in
    let! slice := alloc (OList (take rerank_candidates fs)) in
    _rerank query slice RERANK_TOP_K.

(** The state of a process that has just imported the modules: the only
    object is the empty list [_bm25_chunks] starts as. *)
Definition boot (rs : list Doc) : PState :=
  {| heap := [OList []]; rows := rs; all_chunks_cache := None;
     all_chunks_cache_size := -1; cross_encoder := false;
     bm25_cache_size := -1; bm25_index := None; bm25_chunks := 0%nat |}.

(** Reading a dict back as a record. *)
Definition read_str (d : gmap string val) (key : string) : option string :=
  match d !! key with
  | Some (VStr s) => Some s
  | _ => None
  end.

Definition read_int (d : gmap string val) (key : string) : option Z :=
  match d !! key with
  | Some (VInt z) => Some z
  | _ => None
  end.

Definition read_num (d : gmap string val) (key : string) : option Q :=
  match d !! key with
  | Some (VNum q) => Some q
  | _ => None
  end.

Definition read_meta (h : list obj) (v : option val) : option Metadata :=
  match v with
  | Some (VRef m) =>
      match h !! m with
      | Some (ODict d) =>
          match read_str d "document", read_int d "page",
                read_int d "chunk_index", read_str d "extraction_method" with
          | Some doc, Some p, Some ci, Some em =>
              Some {| document := doc; page := p; chunk_index := ci;
                      extraction_method := em |}
          | _, _, _, _ => None
          end
      | _ => None
      end
  | _ => None
  end.

Definition read_hit (h : list obj) (l : loc) : option Hit :=
  match h !! l with
  | Some (ODict d) =>
      match read_str d "chunk", read_meta h (d !! "metadata") with
      | Some text, Some meta =>
          Some {| chunk := text; metadata := meta;
                  score := read_num d "score";
                  source := read_str d "source";
                  rrf_score := read_num d "rrf_score";
                  rerank_score := read_num d "rerank_score" |}
      | _, _ => None
      end
  | _ => None
  end.

(** The list of dicts at [l], read back as records. *)
Definition read_hits (h : list obj) (l : loc) : option (list Hit) :=
  match h !! l with
  | Some (OList xs) => mapM (read_hit h) xs
  | _ => None
  end.

End Heap.

Module HeapLogic.

Import Heap.

(** The module-level BM25 cache. *)
Definition pcache (s : PState) : Z * option BM25Okapi * loc :=
  (bm25_cache_size s, bm25_index s, bm25_chunks s).

(** What every step of a query respects, [n0] being the size of the heap
    when the query started: the heap only grows, the objects that existed
    when the query started are as they were, and the rows of the store are
    as they were. *)
Definition keeps (n0 : nat) (s s' : PState) : Prop :=
  (length (heap s) <= length (heap s'))%nat /\
  (forall l, (l < n0)%nat -> heap s' !! l = heap s !! l) /\
  rows s' = rows s.

(** A step that also leaves the BM25 cache variables alone. *)
Definition quiet (n0 : nat) (s s' : PState) : Prop :=
  keeps n0 s s' /\ pcache s' = pcache s.

(** A step that leaves the BM25 cache variables alone unless the store is
    not empty and its size differs from the cached size, in which case the
    cached size becomes the size of the store. *)
Definition frame (n0 : nat) (s s' : PState) : Prop :=
  keeps n0 s s' /\
  (pcache s' = pcache s \/
   (rows s <> [] /\ Z.of_nat (length (rows s)) <> bm25_cache_size s /\
    bm25_cache_size s' = Z.of_nat (length (rows s)))).

(** [m], started in a state that satisfies [Pre] and whose heap has at
    least [n0] objects, makes a step in [F] whether it returns or raises,
    and what it returns satisfies [Post]. *)
Definition triple {A : Type} (F : nat -> PState -> PState -> Prop) (n0 : nat)
    (Pre : PState -> Prop) (m : P A) (Post : A -> PState -> Prop) : Prop :=
  forall s, (n0 <= length (heap s))%nat -> Pre s ->
    F n0 s (m s).2 /\ forall a, (m s).1 = Done a -> Post a (m s).2.

(** [l] is a list that was made during the query, of dicts that were made
    during the query. *)
Definition fresh_list (n0 : nat) (l : loc) (s : PState) : Prop :=
  (n0 <= l)%nat /\
  exists xs, heap s !! l = Some (OList xs) /\ Forall (fun x => (n0 <= x)%nat) xs.

(** Reading does not change the state. *)
Definition readonly {A : Type} (m : P A) : Prop := forall s, (m s).2 = s.

(** The frames are orders, and the heap grows along them. *)
Class Framing (F : nat -> PState -> PState -> Prop) : Prop := {
  framing_refl : forall n0 s, F n0 s s;
  framing_trans : forall n0 s1 s2 s3, F n0 s1 s2 -> F n0 s2 s3 -> F n0 s1 s3;
  framing_keeps : forall n0 s s', F n0 s s' -> keeps n0 s s'
}.

End HeapLogic.

(** ** The rest of [backend/vectorstore/store.py]

    [add_chunks] with the batches it hands to ChromaDB, the two queries by
    document, and the stores a process can reach. *)

Module StoreOps.

Import Store.

(** [range(0, n, step)] for a positive [step]. *)
Definition range_step (n step : nat) : list nat :=
  map (fun i => i * step)%nat (seq 0 ((n + step - 1) / step)).

(** [l[i : i + n]] *)
Definition slice {A : Type} (l : list A) (i n : nat) : list A :=
  take n (drop i l).

(** The chunk dicts ingestion hands over: [{"text": ..., "metadata": ...}]. *)
Definition texts_of (chunks : list Doc) : list string := map doc_text chunks.
Definition metadatas_of (chunks : list Doc) : list Metadata :=
  map doc_meta chunks.

(** [self._collection.add(documents=..., metadatas=...)]: one row per
    document text, with the metadata at the same position (the ids and the
    embeddings stay inside the collection). *)
Definition collection_add (documents : list string) (metadatas : list Metadata)
    (rows : list Doc) : list Doc :=
  rows ++ map (fun tm : string * Metadata =>
                 {| doc_text := tm.1; doc_meta := tm.2 |})
              (combine documents metadatas).

Definition batch_size : nat := 5000.

(** [add_chunks] as it is written: the texts and the metadata are split off,
    and added in slices of [batch_size]. *)
Definition add_chunks (chunks : list Doc) (vs : VectorStore)
    : nat * VectorStore :=
  match chunks with
  | [] => (count vs, vs)
  | _ =>
      let texts := texts_of chunks in
      let metadatas := metadatas_of chunks in
      let rows :=
        foldl (fun rows i =>
                 collection_add (slice texts i batch_size)
                   (slice metadatas i batch_size) rows)
              (collection vs) (range_step (length texts) batch_size) in
      let vs' := {| collection := rows; _all_chunks_cache := None;
                    _all_chunks_cache_size := -1 |} in
      (count vs', vs')
  end.

Definition of_document (document_name : string) (d : Doc) : bool :=
  bool_decide (document (doc_meta d) = document_name).

(** [get_chunks_by_document] *)
Definition get_chunks_by_document (document_name : string) (vs : VectorStore)
    : list Hit :=
  if (count vs =? 0)%nat then []
  else map stored_chunk (filter (fun d => of_document document_name d)
                           (collection vs)).

(** The order of Python's [str]: by code point, which on UTF-8 bytes is the
    order of the bytes; a proper prefix comes first. *)
Definition str_le (a b : string) : Prop := String.leb a b = true.

#[export] Instance str_le_dec : RelDecision str_le :=
  fun a b => decide (String.leb a b = true).

Definition str_lt (a b : string) : Prop := String.ltb a b = true.

(** [get_documents]: the names are collected in a set and sorted.  (Every
    row ingestion writes has a [document]; the default ["unknown"] of
    [m.get] is for rows written by other means.) *)
Definition get_documents (vs : VectorStore) : list string :=
  if (count vs =? 0)%nat then []
  else
    let names : gset string :=
      list_to_set (map (fun d => document (doc_meta d)) (collection vs)) in
    merge_sort str_le (elements names).

(** The stores a process can be in: it opens the collection and then calls
    the methods that write. *)
Inductive reachable : VectorStore -> Prop :=
| reach_open (rows : list Doc) : reachable (open rows)
| reach_add_chunks (chunks : list Doc) (vs : VectorStore) :
    reachable vs -> reachable (Store.add_chunks chunks vs).2
| reach_get_all_chunks (vs : VectorStore) :
    reachable vs -> reachable (get_all_chunks vs).2
| reach_delete (document_name : string) (vs : VectorStore) :
    reachable vs -> reachable (delete_chunks_by_document document_name vs).2
| reach_clear (vs : VectorStore) : reachable vs -> reachable (clear vs).

(** The cache, when there is one, is the list of the rows and is filed
    under their number. *)
Definition cache_exact (vs : VectorStore) : Prop :=
  forall cached,
    _all_chunks_cache vs = Some cached ->
    cached = map stored_chunk (collection vs) /\
    _all_chunks_cache_size vs = Z.of_nat (count vs).

(** What ChromaDB's [query] is documented to do when asked for [k] results
    with [1 <= k <= count]: it returns [k] rows of the collection. *)
Class ChromaContract (E : Collaborators) : Prop := {
  chroma_query_length : forall rows q k,
    (1 <= k <= length rows)%nat -> length (chroma_query rows q k) = k;
  chroma_query_rows : forall rows q k d dist,
    (d, dist) ∈ chroma_query rows q k -> d ∈ rows
}.

(** The number of results [search] asks for: [top_k or RETRIEVAL_TOP_K]. *)
Definition requested (top_k : option nat) : nat :=
  match top_k with
  | Some (S n) => S n
  | _ => RETRIEVAL_TOP_K
  end.

End StoreOps.

(** A hit that stands for a row of the store: its text and metadata are the
    row's, it says which search found it, and both later stages have scored
    it. *)
Definition hit_of_row (vs : VectorStore) (h : Hit) : Prop :=
  exists d,
    d ∈ collection vs /\
    chunk h = doc_text d /\ metadata h = doc_meta d /\
    (source h = Some "semantic" \/ source h = Some "bm25") /\
    is_Some (score h) /\ is_Some (rrf_score h) /\ is_Some (rerank_score h).

(** Every character of [s] is in the class [P]. *)
Fixpoint all_chars (P : ascii -> bool) (s : string) : bool :=
  match s with
  | EmptyString => true
  | String c s' => P c && all_chars P s'
  end.

(** What a token of the BM25 index or of a query looks like: it is not
    empty and holds no white space and no upper-case ASCII letter. *)
Definition token_char (c : ascii) : bool :=
  negb (PyStr.isspace c) && negb (PyStr.isupper c).

Definition well_formed_token (t : string) : Prop :=
  t <> "" /\ all_chars token_char t = true.

(** The model was loaded exactly once in this stretch of the log. *)
Definition loaded_once (log : list event) : Prop :=
  exists before after,
    log = (before ++ (LoadCrossEncoder :: after))%list /\
    (LoadCrossEncoder ∉ before) /\ (LoadCrossEncoder ∉ after).

(** ** The retrieval service ([backend/services/retrieval_service.py]) *)

Module RetrievalService.

Import Store Retriever.

(** [l[:n]] for a Python [int]: a negative [n] counts from the end. *)
Definition slice_to {A : Type} (l : list A) (n : Z) : list A :=
  if (0 <=? n)%Z then take (Z.to_nat n) l
  else take (length l - Z.to_nat (- n)) l.

(** [retrieve] (the log lines left out). *)
Definition retrieve `{Collaborators} (question : string) (top_k : Z)
    : M (list Hit) :=
  let* n := store_size in
  if (n =? 0)%nat then ret []
  else
    let* results := hybrid_retrieve question in
    ret (slice_to results top_k).

(** [r.get("rerank_score", 0.0)] *)
Definition rerank_score_or_zero (r : Hit) : Q := default 0%Q (rerank_score r).

(** [min(xs)] and [max(xs)] on a non-empty sequence: the first of the
    smallest, the first of the largest. *)
Definition py_min (x : Q) (xs : list Q) : Q :=
  foldl (fun m y => if Qle_bool m y then m else y) x xs.

Definition py_max (x : Q) (xs : list Q) : Q :=
  foldl (fun m y => if Qle_bool y m then m else y) x xs.

Definition get_min_similarity (results : list Hit) : Q :=
  match map rerank_score_or_zero results with
  | [] => 0%Q
  | x :: xs => py_min x xs
  end.

Definition get_max_similarity (results : list Hit) : Q :=
  match map rerank_score_or_zero results with
  | [] => 0%Q
  | x :: xs => py_max x xs
  end.

End RetrievalService.

(** ** Conversation memory ([backend/rag/chain.py])

    [_sessions] is a [defaultdict(list)]: reading a missing key stores an
    empty list under it.  A dict keeps its keys in the order in which they
    were first set, which is the order [_evict_sessions_if_needed] goes
    by. *)

Module Sessions.

Import Retriever.

Definition MAX_HISTORY_TURNS : nat := 5.          (* backend/config.py *)
Definition _MAX_SESSIONS : nat := 200.
Definition _MAX_TURNS_PER_SESSION : nat := 50.

(** [{"role": role, "content": content}] *)
Record Turn := { role : string; content : string }.

Definition sessions : Type := odict (list Turn).

(** [_sessions[session_id]] *)
Definition getitem_default (session_id : string) (ss : sessions)
    : list Turn * sessions :=
  if bool_decide (session_id ∈ keys ss) then (dict_get ss session_id [], ss)
  else ([], dict_set ss session_id []).

(** [del d[key]] and [d.pop(key, None)] *)
Fixpoint dict_del {V : Type} (d : odict V) (key : string) : odict V :=
  match d with
  | [] => []
  | (k, v) :: d' =>
      if String.eqb k key then dict_del d' key else (k, v) :: dict_del d' key
  end.

(** [l[-n:]] for a positive [n]. *)
Definition last_n {A : Type} (n : nat) (l : list A) : list A :=
  drop (length l - n) l.

(** The [while] loop of [_evict_sessions_if_needed], at most [fuel] times
    round. *)
Fixpoint evict_loop (fuel : nat) (ss : sessions) : sessions :=
  match fuel with
  | O => ss
  | S fuel' =>
      if (_MAX_SESSIONS <? length ss)%nat then
        match ss with
        | [] => ss
        | (oldest, _) :: _ => evict_loop fuel' (dict_del ss oldest)
        end
      else ss
  end.

(** Every round removes a session, so as many rounds as there are sessions
    are enough. *)
Definition _evict_sessions_if_needed (ss : sessions) : sessions :=
  evict_loop (length ss) ss.

Definition _get_history (session_id : string) (ss : sessions)
    : list Turn * sessions :=
  let '(turns, ss') := getitem_default session_id ss in
  (last_n (MAX_HISTORY_TURNS * 2) turns, ss').

(** [_add_turn]: [turns] is the list the dict holds, so the [append] is a
    write to the dict. *)
Definition _add_turn (session_id role content : string) (ss : sessions)
    : sessions :=
  let '(turns, ss1) := getitem_default session_id ss in
  let turns := (turns ++ [{| role := role; content := content |}])%list in
  let ss2 := dict_set ss1 session_id turns in
  let ss3 :=
    if (_MAX_TURNS_PER_SESSION <? length turns)%nat
    then dict_set ss2 session_id (last_n _MAX_TURNS_PER_SESSION turns)
    else ss2 in
  _evict_sessions_if_needed ss3.

Definition clear_session (session_id : string) (ss : sessions) : sessions :=
  dict_del ss session_id.

Definition clear_all_sessions (ss : sessions) : sessions := [].

(** The turns recorded for a session, none when it is not known. *)
Definition turns_of (session_id : string) (ss : sessions) : list Turn :=
  dict_get ss session_id [].

(** No key twice, as in every dict. *)
Definition well_formed (ss : sessions) : Prop := NoDup (keys ss).

(** 201 sessions with different names and no turns, oldest first, and a
    small memory with one conversation. *)
Definition many_sessions : sessions :=
  map (fun i => (String (ascii_of_nat i) "", [])) (seq 0 201).

Definition two_sessions : sessions :=
  [("alice", [{| role := "human"; content := "What is clause 5?" |};
              {| role := "ai"; content := "Termination." |}]);
   ("bob", [])].

(** The bounds the module keeps. *)
Definition bounded (ss : sessions) : Prop :=
  (length ss <= _MAX_SESSIONS)%nat /\
  Forall (fun kv : string * list Turn =>
            (length kv.2 <= _MAX_TURNS_PER_SESSION)%nat) ss.

End Sessions.

(** ** The rest of [query_rag] ([backend/rag/chain.py])

    The context and the prompt it builds, the call of the language model,
    the turns it records and the sources it returns. *)

Module Rag.

Import Store Retriever Chain Sessions.

(** The language model behind [generate], and the text of
    [RAG_SYSTEM_PROMPT] that comes before its one field, [{context}] (a line
    break follows the field).  [generate] answers [None] when the call
    raises. *)
Class LanguageModel := {
  RAG_SYSTEM_PROMPT_head : string;
  generate : string -> string -> option string
}.

Definition nl : string := String (ascii_of_nat 10) "".

(** [str(n)] for an [int]. *)
Definition str_int (n : Z) : string := NilZero.string_of_int (Z.to_int n).

(** [sep.join(parts)] *)
Fixpoint join (sep : string) (parts : list string) : string :=
  match parts with
  | [] => ""
  | [p] => p
  | p :: ps => p ++ sep ++ join sep ps
  end.

(** [enumerate(l, 1)] *)
Definition enumerate_from_1 {A : Type} (l : list A) : list (nat * A) :=
  combine (seq 1 (length l)) l.

(** [round(x, 4)]: to the nearest multiple of 1/10000, a tie going to the
    even one. *)
Definition round_half_even (q : Q) : Z :=
  let f := Qfloor q in
  match Qcompare (q - inject_Z f) (1 # 2) with
  | Lt => f
  | Gt => f + 1
  | Eq => if Z.even f then f else f + 1
  end.

Definition round4 (x : Q) : Q :=
  (inject_Z (round_half_even (x * 10000)) / 10000)%Q.

(** [f"[Source {i}] (Document: {doc}, Page: {page})"] *)
Definition header (i : nat) (r : Hit) : string :=
  "[Source " ++ str_int (Z.of_nat i) ++ "] (Document: "
  ++ document (metadata r) ++ ", Page: " ++ str_int (page (metadata r)) ++ ")".

(** One numbered source of the context: the header, a line break and the
    text. *)
Definition context_part (ir : nat * Hit) : string :=
  header ir.1 ir.2 ++ nl ++ chunk ir.2.

Definition _build_context (results : list Hit) : string :=
  join (nl ++ nl ++ "---" ++ nl ++ nl) (map context_part (enumerate_from_1 results)).

(** One entry of ["sources"]. *)
Record Source := {
  source_id : nat;
  src_document : string;
  src_page : Z;
  chunk_preview : string;
  src_rerank_score : Q
}.

(** [r["chunk"][:200] + ("..." if len(r["chunk"]) > 200 else "")] *)
Definition preview (text : string) : string :=
  PyStr.prefix 200 text
  ++ (if (200 <? String.length text)%nat then "..." else "").

Definition source_of (ir : nat * Hit) : Source :=
  {| source_id := ir.1;
     src_document := document (metadata ir.2);
     src_page := page (metadata ir.2);
     chunk_preview := preview (chunk ir.2);
     src_rerank_score := round4 (default 0%Q (rerank_score ir.2)) |}.

(** The dict [query_rag] returns. *)
Record Answer := {
  answer : string;
  sources : list Source;
  session_id : string
}.

(** How a call of [query_rag] ends: with an answer, with an exception from
    the retrieval, or with an exception from the language model.  With it,
    the state of the retriever and the conversation memory it leaves (the
    retrieval monad does not keep the state of a call that raised), and
    the calls of [generate] it made, as prompt and system prompt. *)
Inductive outcome :=
| Answered (a : Answer) (s : State) (ss : sessions)
    (sent : list (string * string))
| RetrievalRaised (e : exn)
| GenerateRaised (s : State) (ss : sessions) (sent : list (string * string)).

(** [f"{role}: {turn['content']}"] *)
Definition history_part (turn : Turn) : string :=
  (if String.eqb (role turn) "human" then "User" else "Assistant")
  ++ ": " ++ content turn.

Definition full_prompt (history : list Turn) (question : string) : string :=
  let history_parts := map history_part history in
  let previous :=
    match history_parts with
    | [] => []
    | _ => ["Previous conversation:" ++ nl ++ join nl history_parts]
    end in
  let asked := ["Question: " ++ question] in
  let prompt_parts := (previous ++ asked)%list in
  join (nl ++ nl) prompt_parts.

(** [query_rag].  [query_rag_results] is its first part: the two reads of
    the store size and the choice of the retrieval mode. *)
Definition query_rag `{Collaborators} `{LanguageModel}
    (question session_id : string) (s : State) (ss : sessions) : outcome :=
  match query_rag_results question s with
  | Raise e => RetrievalRaised e
  | Ok (results, s') =>
      if (size (vector_store s) =? 0)%nat then
        Answered
          {| answer := "No documents have been uploaded yet. Please upload a document first.";
             sources := []; session_id := session_id |} s' ss []
      else
        match results with
        | [] =>
            Answered
              {| answer := "No relevant content found for your question.";
                 sources := []; session_id := session_id |} s' ss []
        | _ =>
            let context_text := _build_context results in
            let system_msg :=
              RAG_SYSTEM_PROMPT_head ++ context_text ++ nl in
            let '(history, ss1) := _get_history session_id ss in
            let prompt := full_prompt history question in
            match generate prompt system_msg with
            | None => GenerateRaised s' ss1 [(prompt, system_msg)]
            | Some text =>
                let ss2 := _add_turn session_id "human" question ss1 in
                let ss3 := _add_turn session_id "ai" text ss2 in
                Answered
                  {| answer := text;
                     sources := map source_of (enumerate_from_1 results);
                     session_id := session_id |}
                  s' ss3 [(prompt, system_msg)]
            end
        end
  end.


(** A language model for the examples: it answers with the question it
    finds at the end of the prompt. *)
Definition echo : LanguageModel :=
  {| RAG_SYSTEM_PROMPT_head := "CONTEXT:" ++ nl;
     generate := fun prompt _ => Some ("You asked: " ++ prompt) |}.


End Rag.

Section PageWordVocabulary.

Import Re.




End PageWordVocabulary.

(** * Page-number extraction *)

Section PageNumbers.

Import Re Chain.














End PageNumbers.

(** * Lists, sorting and numpy indexing *)

Lemma elem_of_map {A B : Type} (f : A -> B) (l : list A) (y : B) :
  y ∈ map f l <-> exists x, y = f x /\ x ∈ l.
Proof. exact (list_elem_of_fmap f l y). Qed.

Section SortDesc.

Context {A : Type} (key : A -> Q).

Lemma insert_desc_perm (x : A) (l : list A) :
  Permutation (insert_desc key x l) (x :: l).
Proof.
  induction l as [|y l IH]; simpl; [done|].
  destruct (Qle_bool (key y) (key x)); [done|].
  rewrite IH. apply perm_swap.
Qed.

Lemma sort_desc_perm (l : list A) : Permutation (sort_desc key l) l.
Proof.
  induction l as [|x l IH]; simpl; [done|].
  rewrite insert_desc_perm. by constructor.
Qed.


Lemma insert_desc_sorted (x : A) (l : list A) :
  StronglySorted (desc key) l -> StronglySorted (desc key) (insert_desc key x l).
Proof.
  induction l as [|y l IH]; intros Hs; simpl.
  - repeat constructor.
  - apply StronglySorted_inv in Hs as [Hs Hy].
    destruct (Qle_bool (key y) (key x)) eqn:E.
    + apply Qle_bool_iff in E. constructor; [by constructor|].
      constructor; [exact E|].
      eapply Forall_impl; [exact Hy|]. intros z Hz. unfold desc in *.
      by eapply Qle_trans.
    + constructor; [auto|].
      assert (Hxy : desc key y x).
      { unfold desc. destruct (Qlt_le_dec (key y) (key x)) as [Hlt|Hle].
        - apply Qlt_le_weak, Qle_bool_iff in Hlt. congruence.
        - done. }
      rewrite (insert_desc_perm x l). by constructor.
Qed.

Lemma sort_desc_sorted (l : list A) : StronglySorted (desc key) (sort_desc key l).
Proof.
  induction l as [|x l IH]; simpl; [constructor|].
  by apply insert_desc_sorted.
Qed.

Lemma elem_of_sort_desc (x : A) (l : list A) : x ∈ sort_desc key l <-> x ∈ l.
Proof. by rewrite sort_desc_perm. Qed.

End SortDesc.

Lemma sort_desc_map {A B : Type} (f : A -> B) (key : B -> Q) (l : list A) :
  sort_desc key (map f l) = map f (sort_desc (fun a => key (f a)) l).
Proof.
  induction l as [|x l IH]; simpl; [done|]. rewrite IH.
  generalize (sort_desc (fun a => key (f a)) l) as m. intros m.
  induction m as [|y m IHm]; simpl; [done|].
  destruct (Qle_bool (key (f y)) (key (f x))); simpl; [done|]. by rewrite IHm.
Qed.

Lemma StronglySorted_take {A : Type} (R : A -> A -> Prop) (n : nat) (l : list A) :
  StronglySorted R l -> StronglySorted R (take n l).
Proof.
  intros H. rewrite <- (take_drop n l) in H. by apply StronglySorted_app_1_l in H.
Qed.

Lemma StronglySorted_map {A B : Type} (f : A -> B) (R : B -> B -> Prop)
    (l : list A) :
  StronglySorted (fun x y => R (f x) (f y)) l -> StronglySorted R (map f l).
Proof.
  induction 1 as [|x l Hs IH Hx]; simpl; constructor; [done|].
  apply Forall_forall. intros y Hy. apply elem_of_map in Hy as (z & -> & Hz).
  rewrite Forall_forall in Hx. auto.
Qed.

Section FancyIndex.

Context {A : Type}.

Lemma getitem_ok (l : list A) (i : nat) (x : A) :
  getitem l i = Ok x <-> l !! i = Some x.
Proof. unfold getitem. destruct (l !! i); split; congruence. Qed.

Lemma fancy_index_ok (a : list A) (idxs : list nat) :
  Forall (fun i => (i < length a)%nat) idxs ->
  exists xs, fancy_index a idxs = Ok xs /\
             Forall2 (fun i x => a !! i = Some x) idxs xs.
Proof.
  induction 1 as [|i idxs Hi _ (xs & IH & H2)]; simpl.
  - exists []. split; [done|constructor].
  - apply lookup_lt_is_Some in Hi as [x Hx].
    unfold getitem. rewrite Hx, IH. exists (x :: xs). split; [done|].
    by constructor.
Qed.

Lemma fancy_index_inv (a : list A) (idxs : list nat) (xs : list A) :
  fancy_index a idxs = Ok xs ->
  Forall2 (fun i x => a !! i = Some x) idxs xs.
Proof.
  revert xs. induction idxs as [|i idxs IH]; intros xs H; simpl in H.
  - injection H as <-. constructor.
  - unfold getitem in H. destruct (a !! i) as [x|] eqn:Hx; [|done].
    destruct (fancy_index a idxs) as [ys|]; [|done].
    injection H as <-. constructor; auto.
Qed.

End FancyIndex.

Section Dict.

Context {V : Type}.

Lemma dict_get_set (d : odict V) (k k' : string) (v dflt : V) :
  dict_get (dict_set d k v) k' dflt =
  if String.eqb k k' then v else dict_get d k' dflt.
Proof.
  induction d as [|[k0 v0] d IH]; simpl.
  - done.
  - destruct (String.eqb k0 k) eqn:E0; simpl.
    + apply String.eqb_eq in E0 as ->. by destruct (String.eqb k k').
    + rewrite IH. destruct (String.eqb k0 k') eqn:E1; [|done].
      apply String.eqb_eq in E1 as ->.
      destruct (String.eqb k k') eqn:E2; [|done].
      apply String.eqb_eq in E2 as ->. by rewrite String.eqb_refl in E0.
Qed.

Lemma keys_dict_set (d : odict V) (k : string) (v : V) :
  keys (dict_set d k v) = add_key (keys d) k.
Proof.
  unfold add_key. induction d as [|[k0 v0] d IH]; simpl.
  - reflexivity.
  - destruct (String.eqb k0 k) eqn:E0; simpl.
    + apply String.eqb_eq in E0 as ->.
      rewrite bool_decide_eq_true_2; [done|]. left.
    + rewrite IH. apply String.eqb_neq in E0.
      destruct (decide (k ∈ keys d)) as [Hin|Hnin].
      * rewrite !bool_decide_eq_true_2; [done|by right|done].
      * rewrite !bool_decide_eq_false_2; [done| |done].
        intros [?|?]%elem_of_cons; congruence.
Qed.

End Dict.

Lemma elem_of_add_keys (ks ts : list string) (t : string) :
  t ∈ foldl add_key ks ts <-> t ∈ ks \/ t ∈ ts.
Proof.
  revert ks. induction ts as [|x ts IH]; intros ks; simpl.
  - rewrite elem_of_nil. tauto.
  - rewrite IH, elem_of_cons. unfold add_key. case_bool_decide.
    + split; [tauto|]. intros [?|[->|?]]; auto.
    + rewrite elem_of_app, list_elem_of_singleton. tauto.
Qed.

Lemma NoDup_add_keys (ks ts : list string) :
  NoDup ks -> NoDup (foldl add_key ks ts).
Proof.
  revert ks. induction ts as [|x ts IH]; intros ks Hks; simpl; [done|].
  apply IH. unfold add_key. case_bool_decide; [done|].
  apply NoDup_app. split; [done|]. split; [|apply NoDup_singleton].
  intros y Hy ->%list_elem_of_singleton. done.
Qed.

Lemma items_cons {A : Type} (n : nat) (x : A) (l : list A) :
  items n (x :: l) = (n, x) :: items (S n) l.
Proof. reflexivity. Qed.

Section Fusion.

Variable k : nat.

Lemma semantic_scores_step : scores_step k SEMANTIC_WEIGHT (rrf_semantic_step k).
Proof. intros acc rank r. reflexivity. Qed.

Lemma bm25_scores_step : scores_step k BM25_WEIGHT (rrf_bm25_step k).
Proof. intros acc rank r. reflexivity. Qed.

Lemma fold_keys w step (Hstep : scores_step k w step) (l : list Hit) :
  forall n acc,
    keys (scores (foldl step acc (items n l))) =
    foldl add_key (keys (scores acc)) (map chunk l).
Proof.
  induction l as [|r l IH]; intros n acc; [done|].
  rewrite items_cons. simpl. rewrite IH, Hstep, keys_dict_set. done.
Qed.

Lemma fold_get w step (Hstep : scores_step k w step) (l : list Hit) :
  forall n acc t,
    (dict_get (scores (foldl step acc (items n l))) t 0
     == dict_get (scores acc) t 0 + contributions w k t n l)%Q.
Proof.
  induction l as [|r l IH]; intros n acc t.
  - simpl. ring.
  - rewrite items_cons. simpl. rewrite IH, Hstep, dict_get_set.
    destruct (String.eqb (chunk r) t) eqn:E.
    + apply String.eqb_eq in E as ->. ring.
    + ring.
Qed.

Lemma semantic_fold_map (l : list Hit) :
  forall n acc t,
    chunk_map (foldl (rrf_semantic_step k) acc (items n l)) !! t =
    match last_with t l with
    | Some r => Some r
    | None => chunk_map acc !! t
    end.
Proof.
  induction l as [|r l IH]; intros n acc t; [done|].
  rewrite items_cons. simpl. rewrite IH.
  destruct (last_with t l); [done|]. simpl.
  destruct (String.eqb (chunk r) t) eqn:E.
  - apply String.eqb_eq in E as ->. apply lookup_insert_eq.
  - apply String.eqb_neq in E. by apply lookup_insert_ne.
Qed.

Lemma bm25_fold_map (l : list Hit) :
  forall n acc t,
    chunk_map (foldl (rrf_bm25_step k) acc (items n l)) !! t =
    match chunk_map acc !! t with
    | Some r => Some r
    | None => first_with t l
    end.
Proof.
  induction l as [|r l IH]; intros n acc t.
  - simpl. by destruct (chunk_map acc !! t).
  - rewrite items_cons. simpl. rewrite IH. simpl.
    destruct (String.eqb (chunk r) t) eqn:E.
    + apply String.eqb_eq in E. subst t.
      destruct (chunk_map acc !! chunk r) eqn:Hc; [by rewrite Hc|].
      by rewrite lookup_insert_eq.
    + apply String.eqb_neq in E.
      destruct (chunk_map acc !! chunk r) eqn:Hc; [done|].
      by rewrite lookup_insert_ne.
Qed.

Lemma first_with_chunk t l r : first_with t l = Some r -> chunk r = t /\ r ∈ l.
Proof.
  induction l as [|x l IH]; simpl; [done|].
  destruct (String.eqb (chunk x) t) eqn:E.
  - intros [= <-]. apply String.eqb_eq in E. split; [done|left].
  - intros H. destruct (IH H). split; [done|by right].
Qed.

Lemma last_with_chunk t l r : last_with t l = Some r -> chunk r = t /\ r ∈ l.
Proof.
  induction l as [|x l IH]; simpl; [done|].
  destruct (last_with t l) as [r'|].
  - intros [= <-]. destruct IH as [? ?]; [done|]. split; [done|by right].
  - destruct (String.eqb (chunk x) t) eqn:E; [|done].
    intros [= <-]. apply String.eqb_eq in E. split; [done|left].
Qed.

Lemma first_with_is_Some t l : is_Some (first_with t l) <-> t ∈ map chunk l.
Proof.
  induction l as [|x l IH]; simpl.
  - split; [by intros [? ?]|by intros ?%elem_of_nil].
  - rewrite elem_of_cons. destruct (String.eqb (chunk x) t) eqn:E.
    + apply String.eqb_eq in E. split; [auto|by eexists].
    + apply String.eqb_neq in E. rewrite IH. split; [auto|].
      intros [?|?]; [congruence|done].
Qed.

Lemma last_with_is_Some t l : is_Some (last_with t l) <-> t ∈ map chunk l.
Proof.
  induction l as [|x l IH]; simpl.
  - split; [by intros [? ?]|by intros ?%elem_of_nil].
  - rewrite elem_of_cons. destruct (last_with t l) as [r'|].
    + split; [intros _; right; apply IH; by eexists|by eexists].
    + destruct (String.eqb (chunk x) t) eqn:E.
      * apply String.eqb_eq in E. split; [auto|by eexists].
      * apply String.eqb_neq in E. split; [by intros [? ?]|].
        intros [?|H]; [congruence|]. by apply IH in H.
Qed.

Lemma retained_is_Some t sem bm :
  is_Some (retained t sem bm) <-> t ∈ map chunk sem \/ t ∈ map chunk bm.
Proof.
  unfold retained. destruct (last_with t sem) as [r|] eqn:E.
  - split; [|intros _; by eexists].
    intros _. left. apply last_with_is_Some. rewrite E. by eexists.
  - rewrite first_with_is_Some. split; [auto|]. intros [H|H]; [|done].
    apply last_with_is_Some in H. rewrite E in H. by destruct H.
Qed.

Lemma retained_chunk t sem bm r : retained t sem bm = Some r -> chunk r = t.
Proof.
  unfold retained. destruct (last_with t sem) eqn:E.
  - intros [= <-]. by destruct (last_with_chunk _ _ _ E).
  - intros H. by destruct (first_with_chunk _ _ _ H).
Qed.

(** The two dicts after both loops. *)
Lemma accumulate_keys sem bm :
  keys (scores (rrf_accumulate sem bm k)) =
  foldl add_key [] (map chunk sem ++ map chunk bm).
Proof.
  unfold rrf_accumulate. change (enumerate sem) with (items 0 sem).
  change (enumerate bm) with (items 0 bm).
  rewrite (fold_keys _ _ bm25_scores_step), (fold_keys _ _ semantic_scores_step).
  simpl. by rewrite foldl_app.
Qed.

Lemma accumulate_get sem bm t :
  (dict_get (scores (rrf_accumulate sem bm k)) t 0 == rrf_sum k t sem bm)%Q.
Proof.
  unfold rrf_accumulate, rrf_sum. change (enumerate sem) with (items 0 sem).
  change (enumerate bm) with (items 0 bm).
  rewrite (fold_get _ _ bm25_scores_step), (fold_get _ _ semantic_scores_step).
  simpl. ring.
Qed.

Lemma accumulate_map sem bm t :
  chunk_map (rrf_accumulate sem bm k) !! t = retained t sem bm.
Proof.
  unfold rrf_accumulate, retained. change (enumerate sem) with (items 0 sem).
  change (enumerate bm) with (items 0 bm).
  rewrite bm25_fold_map, semantic_fold_map. simpl. rewrite lookup_empty.
  by destruct (last_with t sem).
Qed.

Lemma rrf_entries_spec acc (texts : list string) :
  (forall t, t ∈ texts -> is_Some (chunk_map acc !! t)) ->
  exists fused,
    rrf_entries acc texts = Ok fused /\
    Forall2 (fun t e => exists r, chunk_map acc !! t = Some r /\
                                  e = set_rrf_score (dict_get (scores acc) t 0%Q) r)
            texts fused.
Proof.
  induction texts as [|t texts IH]; intros Hin; simpl.
  - exists []. split; [done|constructor].
  - destruct (Hin t) as [r Hr]; [left|]. rewrite Hr.
    destruct IH as (fused & -> & H2). { intros t' Ht'. apply Hin. by right. }
    eexists. split; [done|]. constructor; eauto.
Qed.

End Fusion.

(** What [_reciprocal_rank_fusion] returns: it never raises; the texts of
    the fused list are those of the two lists, each once; every entry is a
    copy of the retained entry of its text, with the accumulated score. *)
Lemma rrf_spec (sem bm : list Hit) (k : nat) :
  exists fused,
    _reciprocal_rank_fusion sem bm k = Ok fused /\
    NoDup (map chunk fused) /\
    (forall t, t ∈ map chunk fused <-> t ∈ map chunk sem \/ t ∈ map chunk bm) /\
    (forall e, e ∈ fused ->
       exists r v,
         retained (chunk e) sem bm = Some r /\ e = set_rrf_score v r /\
         (v == rrf_sum k (chunk e) sem bm)%Q) /\
    StronglySorted (fun x y => (rrf_key y <= rrf_key x)%Q) fused.
Proof.
  unfold _reciprocal_rank_fusion.
  set (acc := rrf_accumulate sem bm k).
  set (texts := sort_desc (fun t => dict_get (scores acc) t 0%Q) (keys (scores acc))).
  assert (Hkeys : forall t, t ∈ texts <-> t ∈ map chunk sem \/ t ∈ map chunk bm).
  { intros t. unfold texts. rewrite elem_of_sort_desc. unfold acc.
    rewrite accumulate_keys, elem_of_add_keys, elem_of_app, elem_of_nil. tauto. }
  assert (Hnd : NoDup texts).
  { unfold texts. rewrite sort_desc_perm. unfold acc. rewrite accumulate_keys.
    apply NoDup_add_keys, NoDup_nil_2. }
  assert (Hsorted : StronglySorted
            (fun x y => (dict_get (scores acc) y 0 <= dict_get (scores acc) x 0)%Q)
            texts).
  { apply (sort_desc_sorted (fun t => dict_get (scores acc) t 0%Q)). }
  destruct (rrf_entries_spec acc texts) as (fused & Hok & H2).
  { intros t Ht. unfold acc. rewrite accumulate_map.
    apply retained_is_Some, Hkeys, Ht. }
  exists fused. split; [exact Hok|].
  assert (Hentry : Forall2 (fun t e =>
            chunk e = t /\ rrf_key e = dict_get (scores acc) t 0%Q /\
            exists r, retained t sem bm = Some r /\
                      e = set_rrf_score (dict_get (scores acc) t 0%Q) r)
            texts fused).
  { eapply Forall2_impl; [exact H2|]. intros t e (r & Hr & ->).
    unfold acc in Hr. rewrite accumulate_map in Hr.
    split; [exact (retained_chunk _ _ _ _ Hr)|]. split; [done|]. eauto. }
  assert (Hmap : map chunk fused = texts).
  { clear -Hentry. induction Hentry as [|t e ts es (Hc & _) _ IH]; simpl;
      [done|]. by rewrite Hc, IH. }
  rewrite Hmap. split; [done|]. split; [done|]. split.
  - intros e He. apply list_elem_of_lookup in He as [i Hi].
    destruct (Forall2_lookup_r _ _ _ _ _ Hentry Hi) as (t & _ & Hc & _ & r & Hr & He).
    exists r, (dict_get (scores acc) t 0%Q). rewrite Hc.
    split; [done|]. split; [done|]. apply accumulate_get.
  - clear -Hentry Hsorted. revert Hsorted.
    induction Hentry as [|t e ts es (Hc & Hk & _) Hrest IH]; intros Hs;
      [constructor|].
    apply StronglySorted_inv in Hs as [Hs Ht].
    constructor; [auto|]. apply Forall_forall.
    pose proof (proj1 (Forall_forall _ _) Ht) as Ht'. clear Ht.
    intros e' He'. apply list_elem_of_lookup in He' as [i Hi].
    destruct (Forall2_lookup_r _ _ _ _ _ Hrest Hi) as (t' & Hi' & _ & Hk' & _).
    rewrite Hk, Hk'. apply Ht'. eapply list_elem_of_lookup_2, Hi'.
Qed.

(** * Reciprocal rank fusion: scores *)

Lemma rrf_term_pos (w : Q) (k rank : nat) : (0 < w)%Q -> (0 < rrf_term w k rank)%Q.
Proof.
  intros Hw. unfold rrf_term, Qdiv. apply Qmult_lt_0_compat; [done|].
  apply Qinv_lt_0_compat. change 0%Q with (inject_Z 0).
  rewrite <- Zlt_Qlt. lia.
Qed.

Lemma contributions_nonneg (w : Q) (k : nat) (t : string) (l : list Hit) :
  (0 < w)%Q -> forall n, (0 <= contributions w k t n l)%Q.
Proof.
  intros Hw. induction l as [|r l IH]; intros n; simpl; [apply Qle_refl|].
  specialize (IH (S n)). pose proof (rrf_term_pos w k n Hw) as Hp.
  apply Qlt_le_weak in Hp.
  destruct (String.eqb (chunk r) t); lra.
Qed.

Lemma contributions_ge (w : Q) (k : nat) (t : string) (l : list Hit) :
  (0 < w)%Q ->
  forall n i r, l !! i = Some r -> chunk r = t ->
    (rrf_term w k (n + i) <= contributions w k t n l)%Q.
Proof.
  intros Hw. induction l as [|x l IH]; intros n i r Hi Hr; [done|].
  simpl. destruct i as [|i]; simpl in Hi.
  - injection Hi as ->. rewrite Hr, String.eqb_refl, Nat.add_0_r.
    pose proof (contributions_nonneg w k t l Hw (S n)). lra.
  - specialize (IH (S n) i r Hi Hr).
    replace (n + S i)%nat with (S n + i)%nat by lia.
    pose proof (rrf_term_pos w k n Hw).
    destruct (String.eqb (chunk x) t); lra.
Qed.

Lemma contributions_absent (w : Q) (k : nat) (t : string) (l : list Hit) :
  absent t l -> forall n, (contributions w k t n l == 0)%Q.
Proof.
  induction l as [|x l IH]; intros Ha n; simpl; [reflexivity|].
  assert (Hx : chunk x <> t) by (apply Ha; left).
  apply String.eqb_neq in Hx. rewrite Hx, IH; [ring|].
  intros r Hr. apply Ha. by right.
Qed.

Lemma contributions_only_at (w : Q) (k : nat) (t : string) (l : list Hit) :
  forall n i, only_at t i l ->
    (contributions w k t n l == rrf_term w k (n + i))%Q.
Proof.
  induction l as [|x l IH]; intros n i [(r & Hi & Hr) Huniq]; [done|].
  simpl. destruct i as [|i]; simpl in Hi.
  - injection Hi as ->. rewrite Hr, String.eqb_refl, Nat.add_0_r.
    rewrite contributions_absent; [ring|].
    intros r' Hr' Hc. apply list_elem_of_lookup in Hr' as [j Hj].
    specialize (Huniq (S j) r' Hj Hc). lia.
  - assert (Hx : chunk x <> t).
    { intros Hc. specialize (Huniq 0%nat x eq_refl Hc). lia. }
    apply String.eqb_neq in Hx. rewrite Hx, (IH (S n) i).
    + replace (n + S i)%nat with (S n + i)%nat by lia. ring.
    + split; [eauto|]. intros j r' Hj Hc.
      specialize (Huniq (S j) r' Hj Hc). lia.
Qed.

Lemma elem_of_map_chunk (t : string) (l : list Hit) :
  t ∈ map chunk l <-> exists i r, l !! i = Some r /\ chunk r = t.
Proof.
  rewrite elem_of_map. split.
  - intros (r & -> & Hr). apply list_elem_of_lookup in Hr as [i Hi]. eauto.
  - intros (i & r & Hi & <-). exists r. split; [done|].
    by eapply list_elem_of_lookup_2.
Qed.

Lemma contributions_pos (w : Q) (k : nat) (t : string) (l : list Hit) (n : nat) :
  (0 < w)%Q -> t ∈ map chunk l -> (0 < contributions w k t n l)%Q.
Proof.
  intros Hw (i & r & Hi & Hr)%elem_of_map_chunk.
  eapply Qlt_le_trans; [apply (rrf_term_pos w k (n + i) Hw)|].
  by eapply contributions_ge.
Qed.

Lemma semantic_weight_pos : (0 < SEMANTIC_WEIGHT)%Q.
Proof. reflexivity. Qed.

Lemma bm25_weight_pos : (0 < BM25_WEIGHT)%Q.
Proof. reflexivity. Qed.

Lemma rrf_key_set (v : Q) (r : Hit) : rrf_key (set_rrf_score v r) = v.
Proof. reflexivity. Qed.

(** The fused score of an entry, as a rational. *)
Lemma fused_score (sem bm fused : list Hit) (k : nat) (e : Hit) :
  _reciprocal_rank_fusion sem bm k = Ok fused -> e ∈ fused ->
  rrf_score e = Some (rrf_key e) /\
  (rrf_key e == rrf_sum k (chunk e) sem bm)%Q.
Proof.
  intros Hok He. destruct (rrf_spec sem bm k) as (fused' & Hok' & _ & _ & Hent & _).
  rewrite Hok in Hok'. injection Hok' as <-.
  destruct (Hent e He) as (r & v & _ & -> & Hv). by split.
Qed.

Lemma only_at_position (t : string) (i : nat) (l : list Hit) :
  only_at t i l -> position_of t l (Some i).
Proof. by intros [H _]. Qed.

(** C3 (amended).  The fusion never raises, and the score of every fused
    entry is the sum, over every entry of either list that has its text, of
    weight / (60 + rank + 1), with weight 0.7 for the semantic list and 0.3
    for the BM25 list.  When each list holds the text at most once this is
    one term per list that contains it.  An entry whose text is in both
    lists scores strictly more than an entry (of any fusion) whose text
    occurs once only, at the rank the first has in the list of the same
    kind. *)
Theorem rrf_score_is_sum_of_rank_terms (sem bm : list Hit) :
  (SEMANTIC_WEIGHT == 7 # 10)%Q /\ (BM25_WEIGHT == 3 # 10)%Q /\
  exists fused,
    _reciprocal_rank_fusion sem bm 60 = Ok fused /\
    (forall e, e ∈ fused ->
       rrf_score e = Some (rrf_key e) /\
       (rrf_key e ==
          contributions SEMANTIC_WEIGHT 60 (chunk e) 0 sem
          + contributions BM25_WEIGHT 60 (chunk e) 0 bm)%Q /\
       (forall i, only_at (chunk e) i sem -> absent (chunk e) bm ->
          (rrf_key e == SEMANTIC_WEIGHT / inject_Z (Z.of_nat (60 + i + 1)))%Q) /\
       (forall j, absent (chunk e) sem -> only_at (chunk e) j bm ->
          (rrf_key e == BM25_WEIGHT / inject_Z (Z.of_nat (60 + j + 1)))%Q) /\
       (forall i j, only_at (chunk e) i sem -> only_at (chunk e) j bm ->
          (rrf_key e ==
             SEMANTIC_WEIGHT / inject_Z (Z.of_nat (60 + i + 1))
             + BM25_WEIGHT / inject_Z (Z.of_nat (60 + j + 1)))%Q)) /\
    (forall a i j,
       a ∈ fused ->
       position_of (chunk a) sem (Some i) ->
       position_of (chunk a) bm (Some j) ->
       forall sem' bm' fused' b,
         _reciprocal_rank_fusion sem' bm' 60 = Ok fused' -> b ∈ fused' ->
         only_at (chunk b) i sem' /\ absent (chunk b) bm' \/
         absent (chunk b) sem' /\ only_at (chunk b) j bm' ->
         (rrf_key b < rrf_key a)%Q).
Proof.
  split; [reflexivity|]. split; [reflexivity|].
  destruct (rrf_spec sem bm 60) as (fused & Hok & _).
  exists fused. split; [exact Hok|]. split.
  - intros e He. destruct (fused_score _ _ _ _ _ Hok He) as [Hs Hv].
    unfold rrf_sum in Hv. split; [done|]. split; [done|].
    repeat split.
    + intros i Hi Hb. rewrite Hv, (contributions_only_at _ _ _ _ 0 i Hi).
      rewrite contributions_absent by done. unfold rrf_term. simpl. ring.
    + intros j Ha Hj. rewrite Hv, (contributions_only_at _ _ _ _ 0 j Hj).
      rewrite contributions_absent by done. unfold rrf_term. simpl. ring.
    + intros i j Hi Hj.
      rewrite Hv, (contributions_only_at _ _ _ _ 0 i Hi),
        (contributions_only_at _ _ _ _ 0 j Hj).
      unfold rrf_term. simpl. ring.
  - intros a i j Ha (ra & Hra & Hca) (rb & Hrb & Hcb) sem' bm' fused' b Hok' Hb Hcase.
    destruct (fused_score _ _ _ _ _ Hok Ha) as [_ Hva].
    destruct (fused_score _ _ _ _ _ Hok' Hb) as [_ Hvb].
    unfold rrf_sum in *.
    pose proof (contributions_ge SEMANTIC_WEIGHT 60 (chunk a) sem
                  semantic_weight_pos 0 i ra Hra Hca) as H1.
    pose proof (contributions_ge BM25_WEIGHT 60 (chunk a) bm
                  bm25_weight_pos 0 j rb Hrb Hcb) as H2.
    pose proof (rrf_term_pos SEMANTIC_WEIGHT 60 (0 + i) semantic_weight_pos).
    pose proof (rrf_term_pos BM25_WEIGHT 60 (0 + j) bm25_weight_pos).
    destruct Hcase as [[Hi Hn]|[Hn Hj]].
    + pose proof (contributions_only_at SEMANTIC_WEIGHT 60 _ _ 0 i Hi) as E1.
      pose proof (contributions_absent BM25_WEIGHT 60 _ _ Hn 0) as E2. lra.
    + pose proof (contributions_only_at BM25_WEIGHT 60 _ _ 0 j Hj) as E1.
      pose proof (contributions_absent SEMANTIC_WEIGHT 60 _ _ Hn 0) as E2. lra.
Qed.

(** C3 as stated fails when one list holds a text twice: the text is given
    a term for each of its two ranks. *)
Lemma rrf_repeated_text_counterexample :
  ~ one_term_per_list [sample_hit "alpha" 1; sample_hit "alpha" 1] [].
Proof.
  intros H.
  assert (E : exists e,
             _reciprocal_rank_fusion
               [sample_hit "alpha" 1; sample_hit "alpha" 1] [] 60 = Ok [e]).
  { eexists. vm_compute. reflexivity. }
  destruct E as [e E].
  destruct (H [e] e E) as (v & ps & pb & Hv & Hps & Hpb & Heq); [left|].
  vm_compute in E. injection E as <-. injection Hv as <-.
  destruct pb as [j|].
  { destruct Hpb as (r & Hr & _). done. }
  destruct ps as [i|].
  - destruct Hps as (r & Hr & _).
    destruct i as [|[|i]]; [| |done]; vm_compute in Heq; lia.
  - vm_compute in Heq. lia.
Qed.

Ltac only_at_concrete :=
  split;
  [eexists; split; reflexivity
  |let j := fresh "j" in let r := fresh "r" in
   let Hj := fresh "Hj" in let Hc := fresh "Hc" in
   intros j r Hj Hc;
   repeat (destruct j as [|j];
           [first [reflexivity
                  |exfalso; injection Hj as <-; vm_compute in Hc; congruence]
           |]);
   try discriminate Hj].

Ltac absent_concrete :=
  let r := fresh "r" in let Hr := fresh "Hr" in
  intros r Hr;
  repeat (apply elem_of_cons in Hr as [->|Hr]; [vm_compute; congruence|]);
  by apply elem_of_nil in Hr.

Lemma rrf_score_witness :
  exists fused fused' a c,
    _reciprocal_rank_fusion
      [sample_hit "alpha" 1; sample_hit "beta" 2] [sample_hit "alpha" 1] 60
      = Ok fused /\
    _reciprocal_rank_fusion [sample_hit "gamma" 3] [] 60 = Ok fused' /\
    a ∈ fused /\ chunk a = "alpha" /\ c ∈ fused' /\ chunk c = "gamma" /\
    (rrf_key a == (7 # 10) / inject_Z 61 + (3 # 10) / inject_Z 61)%Q /\
    (rrf_key c < rrf_key a)%Q.
Proof.
  destruct (rrf_score_is_sum_of_rank_terms
              [sample_hit "alpha" 1; sample_hit "beta" 2] [sample_hit "alpha" 1])
    as (_ & _ & fused & Hok & Hform & Hcons).
  assert (E' : exists c, _reciprocal_rank_fusion [sample_hit "gamma" 3] [] 60 = Ok [c]
                         /\ chunk c = "gamma").
  { eexists. split; vm_compute; reflexivity. }
  destruct E' as (c & Hok' & Hc).
  assert (E : exists a b, fused = [a; b] /\ chunk a = "alpha").
  { vm_compute in Hok. injection Hok as <-. eexists _, _. split; reflexivity. }
  destruct E as (a & b & -> & Ha).
  exists [a; b], [c], a, c.
  split; [exact Hok|]. split; [exact Hok'|]. split; [left|]. split; [exact Ha|].
  split; [left|]. split; [exact Hc|].
  destruct (Hform a) as (_ & _ & _ & _ & Hboth); [left|]. split.
  - rewrite (Hboth 0%nat 0%nat); try rewrite Ha;
      [vm_compute; reflexivity| |]; only_at_concrete.
  - apply (Hcons a 0%nat 0%nat) with (sem' := [sample_hit "gamma" 3])
      (bm' := []) (fused' := [c]); try rewrite Ha; try rewrite Hc.
    + left.
    + eexists. split; reflexivity.
    + eexists. split; reflexivity.
    + exact Hok'.
    + left.
    + left. split; [only_at_concrete|absent_concrete].
Defined.

(** * Reciprocal rank fusion: one entry per text *)

Lemma first_with_app (t : string) (l1 l2 : list Hit) :
  first_with t (l1 ++ l2) =
  match first_with t l1 with
  | Some r => Some r
  | None => first_with t l2
  end.
Proof.
  induction l1 as [|x l1 IH]; simpl; [done|].
  by destruct (String.eqb (chunk x) t).
Qed.

Lemma first_with_None (t : string) (l : list Hit) :
  first_with t l = None <-> absent t l.
Proof.
  split.
  - intros H r Hr Hc.
    assert (Hs : is_Some (first_with t l)).
    { apply first_with_is_Some, elem_of_map. eauto. }
    rewrite H in Hs. by destruct Hs.
  - intros Ha. destruct (first_with t l) as [r|] eqn:E; [|done].
    apply first_with_chunk in E as [Hc Hr]. by destruct (Ha r Hr).
Qed.

Lemma last_with_None (t : string) (l : list Hit) :
  last_with t l = None <-> absent t l.
Proof.
  split.
  - intros H r Hr Hc.
    assert (Hs : is_Some (last_with t l)).
    { apply last_with_is_Some, elem_of_map. eauto. }
    rewrite H in Hs. by destruct Hs.
  - intros Ha. destruct (last_with t l) as [r|] eqn:E; [|done].
    apply last_with_chunk in E as [Hc Hr]. by destruct (Ha r Hr).
Qed.

Lemma only_at_first_last (t : string) (l : list Hit) :
  forall i, only_at t i l -> first_with t l = last_with t l.
Proof.
  induction l as [|x l IH]; intros i [(r & Hi & Hr) Huniq]; [done|].
  simpl. destruct i as [|i]; simpl in Hi.
  - injection Hi as ->. rewrite Hr, String.eqb_refl.
    assert (Hn : last_with t l = None).
    { apply last_with_None. intros r' Hr' Hc.
      apply list_elem_of_lookup in Hr' as [j Hj].
      specialize (Huniq (S j) r' Hj Hc). lia. }
    by rewrite Hn.
  - assert (Hx : chunk x <> t).
    { intros Hc. specialize (Huniq 0%nat x eq_refl Hc). lia. }
    apply String.eqb_neq in Hx. rewrite Hx. rewrite (IH i).
    + by destruct (last_with t l).
    + split; [eauto|]. intros j r' Hj Hc.
      specialize (Huniq (S j) r' Hj Hc). lia.
Qed.

(** C8 (amended).  The fusion never raises and its result has exactly one
    entry for every text that occurs in either list.  Each entry is a copy
    of an entry of the lists with the fused score added: of an entry of the
    semantic list when the text occurs there, of the first BM25 entry with
    the text otherwise; whenever the semantic list holds the text at most
    once this is the first entry with that text, the semantic list being
    read first. *)
Theorem rrf_one_entry_per_text (sem bm : list Hit) :
  exists fused,
    _reciprocal_rank_fusion sem bm 60 = Ok fused /\
    NoDup (map chunk fused) /\
    (forall t, t ∈ map chunk fused <-> t ∈ map chunk sem \/ t ∈ map chunk bm) /\
    (forall e, e ∈ fused ->
       exists r,
         e = set_rrf_score (rrf_key e) r /\
         chunk e = chunk r /\ metadata e = metadata r /\
         (chunk e ∈ map chunk sem -> r ∈ sem) /\
         (absent (chunk e) sem -> first_with (chunk e) bm = Some r) /\
         (absent (chunk e) sem \/ (exists i, only_at (chunk e) i sem) ->
          first_with (chunk e) (sem ++ bm) = Some r)).
Proof.
  destruct (rrf_spec sem bm 60) as (fused & Hok & Hnd & Hmem & Hent & _).
  exists fused. split; [done|]. split; [done|]. split; [done|].
  intros e He. destruct (Hent e He) as (r & v & Hr & -> & _).
  exists r. simpl. split; [done|]. split; [done|]. split; [done|].
  unfold retained in Hr. simpl in Hr. repeat split.
  - intros Hin. apply last_with_is_Some in Hin as [r' Hr'].
    rewrite Hr' in Hr. injection Hr as <-. by apply last_with_chunk in Hr' as [_ ?].
  - intros Ha. apply last_with_None in Ha. by rewrite Ha in Hr.
  - rewrite first_with_app. intros [Ha|[i Hi]].
    + pose proof Ha as Ha'. apply last_with_None in Ha. rewrite Ha in Hr.
      apply first_with_None in Ha'. by rewrite Ha'.
    + rewrite (only_at_first_last _ _ i Hi).
      destruct Hi as [(r' & Hi & Hc) _].
      assert (Hs : is_Some (last_with (chunk r) sem)).
      { apply last_with_is_Some, elem_of_map_chunk. eauto. }
      destruct Hs as [r'' Hs]. by rewrite Hs in Hr |- *.
Qed.

(** C8 as stated fails when the semantic list holds a text twice: the later
    of the two semantic entries is the one that is kept. *)
Lemma rrf_first_occurrence_counterexample :
  ~ first_occurrence_retained
      [sample_hit "alpha" 1; sample_hit "alpha" 2] [sample_hit "alpha" 3].
Proof.
  intros H.
  assert (E : exists e,
             _reciprocal_rank_fusion
               [sample_hit "alpha" 1; sample_hit "alpha" 2]
               [sample_hit "alpha" 3] 60 = Ok [e]).
  { eexists. vm_compute. reflexivity. }
  destruct E as [e E].
  destruct (H [e] e E) as (r & Hr & _ & Hm); [left| | |].
  - vm_compute in E. injection E as <-. left.
  - vm_compute in E. injection E as <-. left.
  - vm_compute in E. injection E as <-.
    vm_compute in Hr. injection Hr as <-. discriminate Hm.
Qed.

Lemma rrf_one_entry_witness :
  exists fused e,
    _reciprocal_rank_fusion
      [sample_hit "alpha" 1; sample_hit "beta" 2]
      [sample_hit "beta" 7; sample_hit "gamma" 3] 60 = Ok fused /\
    map chunk fused = ["beta"; "alpha"; "gamma"] /\
    e ∈ fused /\ chunk e = "beta" /\ metadata e = sample_meta 2.
Proof.
  destruct (rrf_one_entry_per_text
              [sample_hit "alpha" 1; sample_hit "beta" 2]
              [sample_hit "beta" 7; sample_hit "gamma" 3])
    as (fused & Hok & Hnd & Hmem & Hent).
  assert (E : exists a b c, fused = [b; a; c] /\ chunk b = "beta" /\
                            map chunk fused = ["beta"; "alpha"; "gamma"]).
  { vm_compute in Hok. injection Hok as <-. eexists _, _, _.
    split; [reflexivity|]. split; reflexivity. }
  destruct E as (a & b & c & -> & Hb & Hmap).
  exists [b; a; c], b. split; [exact Hok|]. split; [exact Hmap|].
  split; [left|]. split; [exact Hb|].
  destruct (Hent b) as (r & _ & _ & Hmeta & _ & _ & Hfirst); [left|].
  rewrite Hmeta. rewrite Hb in Hfirst.
  assert (Hr : first_with "beta"
                 ([sample_hit "alpha" 1; sample_hit "beta" 2]
                  ++ [sample_hit "beta" 7; sample_hit "gamma" 3]) = Some r).
  { apply Hfirst. right. exists 1%nat. only_at_concrete. }
  vm_compute in Hr. by injection Hr as <-.
Defined.

Lemma with_calls_app_assoc (s : State) (l1 l2 : list event) :
  with_calls (calls (with_calls (calls s ++ l1) s) ++ l2)
    (with_calls (calls s ++ l1) s) = with_calls (calls s ++ l1 ++ l2) s.
Proof. unfold with_calls. simpl. by rewrite <- app_assoc. Qed.

(** [_get_bm25_index], case by case. *)
Lemma get_bm25_index_empty (s : State) :
  size (vector_store s) = 0%nat ->
  _get_bm25_index s = Ok ((None, []), s).
Proof.
  intros H. unfold _get_bm25_index, bind, store_size. simpl. by rewrite H.
Qed.

Lemma get_bm25_index_fresh (s : State) :
  size (vector_store s) <> 0%nat ->
  Z.of_nat (size (vector_store s)) = _bm25_cache_size s ->
  _get_bm25_index s = Ok ((_bm25_index s, _bm25_chunks s), s).
Proof.
  intros Hn He. unfold _get_bm25_index, bind, store_size, get. simpl.
  apply Nat.eqb_neq in Hn. rewrite Hn.
  apply Z.eqb_eq in He. by rewrite He.
Qed.

Lemma get_bm25_index_stale (s : State) :
  size (vector_store s) <> 0%nat ->
  Z.of_nat (size (vector_store s)) <> _bm25_cache_size s ->
  _get_bm25_index s =
  let '(all_chunks, vs') := get_all_chunks (vector_store s) in
  match all_chunks with
  | [] => Ok ((None, []),
              with_store vs' (with_calls (calls s ++ [CallGetAllChunks]) s))
  | _ => Ok ((Some (build_index all_chunks), all_chunks),
             rebuilt (size (vector_store s)) all_chunks vs' s)
  end.
Proof.
  intros Hn He. unfold _get_bm25_index, bind, store_size, get. simpl.
  apply Nat.eqb_neq in Hn. rewrite Hn.
  apply Z.eqb_neq in He. rewrite He. simpl.
  unfold store_get_all_chunks, bind, record. simpl.
  destruct (get_all_chunks (vector_store s)) as [all_chunks vs'].
  destruct all_chunks as [|c cs]; [done|].
  unfold ret, rebuilt, with_bm25, with_calls, with_store. simpl.
  by rewrite <- app_assoc.
Qed.

Lemma get_all_chunks_coherent (vs : VectorStore) :
  cache_coherent vs -> count vs <> 0%nat ->
  (get_all_chunks vs).1 = map stored_chunk (collection vs) /\
  collection (get_all_chunks vs).2 = collection vs /\
  cache_coherent (get_all_chunks vs).2.
Proof.
  intros Hc Hn. unfold get_all_chunks. apply Nat.eqb_neq in Hn. rewrite Hn.
  destruct (_all_chunks_cache vs) as [cached|] eqn:E.
  - destruct (_all_chunks_cache_size vs =? Z.of_nat (count vs))%Z eqn:E2.
    + apply Z.eqb_eq in E2. simpl. split; [by apply Hc|done].
    + simpl. split; [done|]. split; [done|]. intros c [= <-] _. done.
  - simpl. split; [done|]. split; [done|]. intros c [= <-] _. done.
Qed.


(** * The BM25 index cache *)

(** [_bm25_search] is [_get_bm25_index] followed by the scoring of the
    query against what it returned. *)
Lemma bm25_search_unfold `{Collaborators} (query : string) (top_k : nat)
    (s : State) :
  _bm25_search query top_k s =
  match _get_bm25_index
          (with_calls (calls s ++ [CallBm25Search query top_k]) s) with
  | Ok ((bm25_opt, all_chunks), s') =>
      match bm25_hits bm25_opt all_chunks query top_k with
      | Ok hits => Ok (hits, s')
      | Raise e => Raise e
      end
  | Raise e => Raise e
  end.
Proof.
  unfold _bm25_search, bind at 1, record. simpl. unfold bind at 1.
  destruct (_get_bm25_index _) as [[[bm25_opt all_chunks] s']|e]; [|done].
  unfold bm25_hits. destruct bm25_opt as [bm25|]; [|done].
  simpl. destruct (_ =? 0)%nat; [done|].
  unfold bind, lift. destruct (top_k_indices _ _) as [idxs|e]; [|done].
  by destruct (bm25_collect _ _ _).
Qed.

Lemma get_bm25_index_spec (s : State) :
  size (vector_store s) <> 0%nat -> cache_coherent (vector_store s) ->
  let n := size (vector_store s) in
  let all_chunks := map stored_chunk (collection (vector_store s)) in
  exists s',
    _get_bm25_index s = Ok ((_bm25_index s', _bm25_chunks s'), s') /\
    _bm25_cache_size s' = Z.of_nat n /\
    collection (vector_store s') = collection (vector_store s) /\
    cache_coherent (vector_store s') /\
    (Z.of_nat n <> _bm25_cache_size s ->
       s' = rebuilt n all_chunks (get_all_chunks (vector_store s)).2 s) /\
    (Z.of_nat n = _bm25_cache_size s -> s' = s).
Proof.
  intros Hn Hc n all_chunks.
  destruct (decide (Z.of_nat n = _bm25_cache_size s)) as [He|He].
  - exists s. rewrite get_bm25_index_fresh by done.
    split; [done|]. split; [done|]. split; [done|]. split; [done|].
    split; [|done]. intros H. by destruct H.
  - rewrite get_bm25_index_stale by done.
    destruct (get_all_chunks_coherent _ Hc Hn) as (Hall & Hcol & Hcoh).
    destruct (get_all_chunks (vector_store s)) as [cs vs'] eqn:E.
    simpl in Hall, Hcol, Hcoh. subst cs. fold all_chunks.
    assert (Hne : all_chunks <> []).
    { unfold all_chunks. intros Hm. apply (f_equal length) in Hm.
      rewrite length_map in Hm. done. }
    destruct all_chunks as [|c cs] eqn:Ea; [done|].
    exists (rebuilt (size (vector_store s)) (c :: cs) vs' s).
    split; [done|]. split; [done|]. split; [done|]. split; [done|].
    split; [done|]. intros H. by destruct He.
Qed.

(** C6.  On a non-empty store whose chunk list is the one the store would
    hand out, [_get_bm25_index] (the first step of every sparse search)
    rebuilds the index exactly when the live size differs from the cached
    size: it then indexes the lower-cased, white-space split text of every
    row of the store, caches the chunks and logs the rebuild; otherwise it
    leaves the state as it is and returns the cached index.  Either way the
    cached size is the live size afterwards, and asking again returns the
    same index without a rebuild. *)
Theorem bm25_index_rebuilt_iff_size_differs (s : State) :
  size (vector_store s) <> 0%nat -> cache_coherent (vector_store s) ->
  let n := size (vector_store s) in
  let rows := collection (vector_store s) in
  exists s',
    _get_bm25_index s = Ok ((_bm25_index s', _bm25_chunks s'), s') /\
    _bm25_cache_size s' = Z.of_nat (size (vector_store s')) /\
    size (vector_store s') = n /\
    (Z.of_nat n <> _bm25_cache_size s ->
       _bm25_index s' =
         Some {| corpus :=
                   map (fun d => PyStr.split (PyStr.lower (doc_text d))) rows |} /\
       _bm25_chunks s' = map stored_chunk rows /\
       calls s' = (calls s ++ [CallGetAllChunks; Bm25Rebuilt n])%list) /\
    (Z.of_nat n = _bm25_cache_size s -> s' = s) /\
    _get_bm25_index s' = Ok ((_bm25_index s', _bm25_chunks s'), s') /\
    (forall (E : Collaborators) query top_k hits s1,
       _bm25_search query top_k s = Ok (hits, s1) ->
       _bm25_cache_size s1 = Z.of_nat n /\
       (Z.of_nat n <> _bm25_cache_size s ->
          calls s1 = (calls s ++ [CallBm25Search query top_k; CallGetAllChunks;
                                  Bm25Rebuilt n])%list) /\
       (Z.of_nat n = _bm25_cache_size s ->
          calls s1 = (calls s ++ [CallBm25Search query top_k])%list /\
          _bm25_index s1 = _bm25_index s /\ _bm25_chunks s1 = _bm25_chunks s)).
Proof.
  intros Hn Hc n rows.
  destruct (get_bm25_index_spec s Hn Hc)
    as (s' & Hrun & Hsize & Hcol & Hcoh & Hstale & Hfresh).
  assert (Hn' : size (vector_store s') = n).
  { unfold size, count. by rewrite Hcol. }
  exists s'. split; [exact Hrun|]. split; [by rewrite Hn'|]. split; [exact Hn'|].
  split; [|split; [exact Hfresh|split]].
  - intros He. rewrite (Hstale He). simpl. unfold build_index.
    rewrite map_map. done.
  - apply get_bm25_index_fresh; [by rewrite Hn'|by rewrite Hn'].
  - intros E query top_k hits s1 Hs. rewrite bm25_search_unfold in Hs.
    set (s0 := with_calls (calls s ++ [CallBm25Search query top_k]) s) in Hs.
    destruct (get_bm25_index_spec s0 Hn Hc)
      as (s0' & Hrun0 & Hsize0 & _ & _ & Hstale0 & Hfresh0).
    rewrite Hrun0 in Hs. destruct (bm25_hits _ _ _ _); [|done].
    injection Hs as _ <-. split; [exact Hsize0|]. split.
    + intros He. rewrite (Hstale0 He). simpl. by rewrite <- app_assoc.
    + intros He. by rewrite (Hfresh0 He).
Qed.

Lemma bm25_index_rebuilt_witness :
  exists s',
    _get_bm25_index (boot (open sample_rows))
      = Ok ((_bm25_index s', _bm25_chunks s'), s') /\
    _bm25_cache_size s' = 3 /\
    calls s' = [CallGetAllChunks; Bm25Rebuilt 3] /\
    _get_bm25_index s' = Ok ((_bm25_index s', _bm25_chunks s'), s').
Proof.
  destruct (bm25_index_rebuilt_iff_size_differs (boot (open sample_rows)))
    as (s' & Hrun & Hsize & Hn & Hstale & _ & Hagain & _).
  - discriminate.
  - intros cached Hcached. discriminate Hcached.
  - exists s'. split; [exact Hrun|]. split; [by rewrite Hsize, Hn|].
    split; [|exact Hagain].
    destruct Hstale as (_ & _ & Hcalls); [discriminate|exact Hcalls].
Defined.

(** * The toy collaborators honour the contracts *)

Lemma StronglySorted_lookup {A : Type} (R : A -> A -> Prop) (l : list A) :
  StronglySorted R l ->
  forall i j x y, (i < j)%nat -> l !! i = Some x -> l !! j = Some y -> R x y.
Proof.
  induction 1 as [|a l Hs IH Ha]; intros i j x y Hij Hi Hj; [done|].
  destruct j as [|j]; [lia|]. simpl in Hj.
  destruct i as [|i]; simpl in Hi.
  - injection Hi as <-. rewrite Forall_forall in Ha. apply Ha.
    by eapply list_elem_of_lookup_2.
  - eapply (IH i j); [lia|done|done].
Qed.

Lemma elem_of_rev {A : Type} (x : A) (l : list A) : x ∈ rev l <-> x ∈ l.
Proof. rewrite !list_elem_of_In. symmetry. apply in_rev. Qed.

Lemma StronglySorted_rev {A : Type} (R : A -> A -> Prop) (l : list A) :
  StronglySorted R l -> StronglySorted (fun x y => R y x) (rev l).
Proof.
  induction 1 as [|a l Hs IH Ha]; simpl; [constructor|].
  apply StronglySorted_app_2; [|done|repeat constructor].
  intros x y Hx Hy. apply list_elem_of_singleton in Hy as ->.
  rewrite Forall_forall in Ha. apply Ha. by apply elem_of_rev.
Qed.

Section ToyContracts.

Import Toy.

Lemma insert_asc_perm (a : list Q) (i : nat) (l : list nat) :
  Permutation (insert_asc a i l) (i :: l).
Proof.
  induction l as [|j l IH]; simpl; [done|].
  destruct (Qle_bool _ _); [done|]. rewrite IH. apply perm_swap.
Qed.

Lemma insert_asc_sorted (a : list Q) (i : nat) (l : list nat) :
  StronglySorted (fun x y => (at_index a x <= at_index a y)%Q) l ->
  StronglySorted (fun x y => (at_index a x <= at_index a y)%Q)
    (insert_asc a i l).
Proof.
  induction l as [|j l IH]; intros Hs; simpl; [repeat constructor|].
  apply StronglySorted_inv in Hs as [Hs Hj].
  destruct (Qle_bool (at_index a i) (at_index a j)) eqn:E.
  - apply Qle_bool_iff in E. constructor; [by constructor|].
    constructor; [done|]. eapply Forall_impl; [exact Hj|].
    intros z Hz. simpl in *. lra.
  - assert (Hji : (at_index a j <= at_index a i)%Q).
    { destruct (Qlt_le_dec (at_index a j) (at_index a i)) as [Hlt|Hle];
        [lra|]. apply Qle_bool_iff in Hle. congruence. }
    constructor; [auto|]. rewrite (insert_asc_perm a i l). by constructor.
Qed.

Lemma sort_indices_perm (a : list Q) :
  Permutation (sort_indices a) (seq 0 (length a)).
Proof.
  unfold sort_indices. induction (seq 0 (length a)) as [|i l IH]; simpl;
    [done|]. rewrite insert_asc_perm. by constructor.
Qed.

Lemma sort_indices_sorted (a : list Q) :
  StronglySorted (fun x y => (at_index a x <= at_index a y)%Q) (sort_indices a).
Proof.
  unfold sort_indices. induction (seq 0 (length a)) as [|i l IH]; simpl;
    [constructor|]. by apply insert_asc_sorted.
Qed.

Lemma toy_contracts : Contracts toy.
Proof.
  constructor.
  - apply sort_indices_perm.
  - apply sort_indices_sorted.
  - intros a kth. apply sort_indices_perm.
  - intros a kth p i j x y _ _ Hi Hj Hx Hy. simpl in Hx, Hy.
    destruct (decide (i = j)) as [->|Hne].
    + rewrite Hx in Hy. injection Hy as ->. apply Qle_refl.
    + eapply (StronglySorted_lookup _ _ (sort_indices_sorted a) i j);
        [lia|done|done].
  - intros ps. simpl. apply length_map.
Qed.

End ToyContracts.

(** * BM25 search *)

Lemma perm_seq_bounds (l : list nat) (n : nat) :
  Permutation l (seq 0 n) ->
  length l = n /\ NoDup l /\ forall i, i ∈ l <-> (i < n)%nat.
Proof.
  intros Hp. split; [|split].
  - by rewrite Hp, length_seq.
  - rewrite Hp. apply NoDup_seq.
  - intros i. rewrite Hp, elem_of_seq. lia.
Qed.

Lemma map_lookup_seq {A : Type} (d : A) (l : list A) :
  map (fun i => default d (l !! i)) (seq 0 (length l)) = l.
Proof.
  induction l as [|x l IH] using rev_ind; [done|].
  rewrite length_app, Nat.add_1_r, seq_S, map_app. simpl. f_equal.
  - rewrite <- IH at 2. apply map_ext_in. intros i Hi%in_seq.
    by rewrite lookup_app_l by lia.
  - by rewrite list_lookup_middle.
Qed.

Lemma Forall2_lookup_map {A : Type} (d : A) (l : list A) (ix : list nat)
    (xs : list A) :
  Forall2 (fun i x => l !! i = Some x) ix xs ->
  xs = map (fun i => default d (l !! i)) ix.
Proof.
  induction 1 as [|i x ix xs Hi _ IH]; simpl; [done|]. by rewrite Hi, IH.
Qed.

Lemma StronglySorted_map_elem {A B : Type} (f : A -> B) (R : A -> A -> Prop)
    (R' : B -> B -> Prop) (l : list A) :
  (forall x y, x ∈ l -> y ∈ l -> R x y -> R' (f x) (f y)) ->
  StronglySorted R l -> StronglySorted R' (map f l).
Proof.
  intros Hf Hs. induction Hs as [|x l Hs IH Hx]; simpl; [constructor|].
  constructor.
  - apply IH. intros a b Ha Hb. apply Hf; by right.
  - apply Forall_forall. intros y (z & -> & Hz)%elem_of_map.
    rewrite Forall_forall in Hx. apply Hf; [left|by right|auto].
Qed.

Section TopK.

Context `{E : Collaborators} {HC : Contracts E}.

(** The indices [_bm25_search] visits are [k] distinct indices of the score
    array, in the order of descending score, and no index left out has a
    higher score than one of them. *)
Lemma top_k_indices_spec (a : list Q) (k : nat) :
  (1 <= k <= length a)%nat ->
  exists idxs,
    top_k_indices a k = Ok idxs /\
    length idxs = k /\ NoDup idxs /\
    (forall i, i ∈ idxs -> (i < length a)%nat) /\
    StronglySorted (fun i j => (at_index a j <= at_index a i)%Q) idxs /\
    (forall i j, (i < length a)%nat -> i ∉ idxs -> j ∈ idxs ->
                 (at_index a i <= at_index a j)%Q).
Proof.
  intros Hk. unfold top_k_indices.
  set (n := length a) in *.
  set (part := argpartition a (- Z.of_nat k)).
  destruct (perm_seq_bounds part n (argpartition_perm a _))
    as (Hlen & Hnd & Hmem).
  set (top := drop (length part - k) part).
  assert (Htop_len : length top = k).
  { unfold top. rewrite length_drop. lia. }
  assert (Htop_sub : forall i, i ∈ top -> i ∈ part).
  { intros i Hi. unfold top in Hi. rewrite <- (take_drop (length part - k) part).
    apply elem_of_app. by right. }
  assert (Htop_nd : NoDup top).
  { unfold top. rewrite <- (take_drop (length part - k) part) in Hnd.
    by apply NoDup_app in Hnd as (_ & _ & ?). }
  assert (Hbest : forall i j, (i < n)%nat -> i ∉ top -> j ∈ top ->
                    (at_index a i <= at_index a j)%Q).
  { intros i j Hi Hni Hj.
    apply Hmem in Hi. apply list_elem_of_lookup in Hi as [pi Hpi].
    apply list_elem_of_lookup in Hj as [pj Hpj]. unfold top in Hpj.
    rewrite lookup_drop in Hpj.
    assert (Hpi_lt : (pi < length part - k)%nat).
    { destruct (decide (pi < length part - k)%nat) as [?|Hge]; [done|].
      exfalso. apply Hni. apply list_elem_of_lookup.
      exists (pi - (length part - k))%nat. unfold top. rewrite lookup_drop.
      rewrite <- Hpi. f_equal. lia. }
    eapply (argpartition_pivot a (- Z.of_nat k) (n - k)%nat pi
              (length part - k + pj)); [| | | |exact Hpi|exact Hpj].
    - fold n. lia.
    - fold n. apply (Z.mod_unique_pos _ _ (-1)); lia.
    - lia.
    - lia. }
  destruct (fancy_index_ok a top) as (top_scores & Hts & Hts2).
  { apply Forall_forall. intros i Hi. by apply Hmem, Htop_sub. }
  rewrite Hts.
  assert (Hts_len : length top_scores = k).
  { apply Forall2_length in Hts2. lia. }
  set (order := rev (argsort top_scores)).
  destruct (perm_seq_bounds (argsort top_scores) k) as (Hol & Hond & Homem).
  { rewrite <- Hts_len. apply argsort_perm. }
  assert (Hperm_order : Permutation order (seq 0 (length top))).
  { unfold order. rewrite <- Permutation_rev, Htop_len, <- Hts_len.
    apply argsort_perm. }
  destruct (fancy_index_ok top order) as (idxs & Hidx & Hidx2).
  { apply Forall_forall. intros o Ho. unfold order in Ho.
    apply elem_of_rev, Homem in Ho. lia. }
  exists idxs. split; [exact Hidx|].
  pose proof (Forall2_lookup_map 0%nat _ _ _ Hidx2) as Hmap.
  assert (Hperm : Permutation idxs top).
  { rewrite Hmap, Hperm_order. by rewrite map_lookup_seq. }
  split; [by rewrite Hperm|]. split; [by rewrite Hperm|]. split.
  { intros i Hi. apply Hmem, Htop_sub. by rewrite <- Hperm. }
  split.
  - rewrite Hmap.
    apply (StronglySorted_map_elem _
             (fun x y => (at_index top_scores y <= at_index top_scores x)%Q)).
    + intros x y Hx Hy Hxy.
      assert (Hval : forall o, o ∈ order ->
                at_index a (default 0%nat (top !! o)) = at_index top_scores o).
      { intros o Ho. unfold order in Ho. apply elem_of_rev, Homem in Ho.
        destruct (lookup_lt_is_Some_2 top o) as [i Hi]; [lia|].
        destruct (Forall2_lookup_l _ _ _ _ _ Hts2 Hi) as (v & Hv & Hav).
        unfold at_index. rewrite Hi, Hv. simpl. by rewrite Hav. }
      by rewrite !Hval.
    + unfold order. apply StronglySorted_rev, argsort_ascending.
  - intros i j Hi Hni Hj. apply Hbest; [done| |].
    + by rewrite <- Hperm.
    + by rewrite <- Hperm.
Qed.

End TopK.

Lemma positive_score_iff (a : list Q) (i : nat) :
  positive_score a i = true <-> (0 < at_index a i)%Q.
Proof.
  unfold positive_score. rewrite negb_true_iff.
  destruct (Qle_bool (at_index a i) 0) eqn:E.
  - apply Qle_bool_iff in E. split; [done|]. intros H. lra.
  - split; [|done]. intros _.
    destruct (Qlt_le_dec 0 (at_index a i)) as [?|Hle]; [done|].
    apply Qle_bool_iff in Hle. congruence.
Qed.

Lemma bm25_collect_spec (a : list Q) (all_chunks : list Hit) (idxs : list nat) :
  (forall i, i ∈ idxs -> (i < length a)%nat) ->
  length all_chunks = length a ->
  exists hits,
    bm25_collect a all_chunks idxs = Ok hits /\
    Forall2 (fun i h => bm25_hit_at a all_chunks i = Some h)
            (List.filter (positive_score a) idxs) hits.
Proof.
  intros Hb Hlen. induction idxs as [|i idxs IH]; simpl.
  - exists []. split; [done|constructor].
  - destruct IH as (hits & Hok & H2). { intros j Hj. apply Hb. by right. }
    assert (Hi : (i < length a)%nat) by (apply Hb; left).
    destruct (lookup_lt_is_Some_2 a i Hi) as [v Hv].
    unfold getitem at 1. rewrite Hv.
    assert (Hat : at_index a i = v) by (unfold at_index; by rewrite Hv).
    unfold positive_score at 1. rewrite Hat.
    destruct (Qle_bool v 0); simpl; [by exists hits|].
    destruct (lookup_lt_is_Some_2 all_chunks i) as [c Hc]; [lia|].
    unfold getitem. rewrite Hc, Hok. eexists. split; [done|].
    constructor; [|done]. unfold bm25_hit_at. by rewrite Hc, Hat.
Qed.

Lemma filter_sub {A : Type} (p : A -> bool) (l : list A) (x : A) :
  x ∈ List.filter p l <-> x ∈ l /\ p x = true.
Proof. rewrite !list_elem_of_In. apply filter_In. Qed.

Lemma filter_length_le {A : Type} (p : A -> bool) (l : list A) :
  (length (List.filter p l) <= length l)%nat.
Proof.
  induction l as [|x l IH]; simpl; [done|]. destruct (p x); simpl; lia.
Qed.

Lemma filter_NoDup {A : Type} (p : A -> bool) (l : list A) :
  NoDup l -> NoDup (List.filter p l).
Proof.
  induction 1 as [|x l Hx Hnd IH]; simpl; [constructor|].
  destruct (p x); [|done]. constructor; [|done].
  intros [H _]%filter_sub. done.
Qed.

Lemma filter_StronglySorted {A : Type} (R : A -> A -> Prop) (p : A -> bool)
    (l : list A) :
  StronglySorted R l -> StronglySorted R (List.filter p l).
Proof.
  induction 1 as [|x l Hs IH Hx]; simpl; [constructor|].
  destruct (p x); [|done]. constructor; [done|].
  apply Forall_forall. intros y [Hy _]%filter_sub.
  rewrite Forall_forall in Hx. auto.
Qed.

Lemma get_bm25_index_aligned (s : State) :
  cache_aligned s ->
  exists bm25_opt all_chunks s',
    _get_bm25_index s = Ok ((bm25_opt, all_chunks), s') /\
    (forall bm25, bm25_opt = Some bm25 ->
                  length (corpus bm25) = length all_chunks) /\
    cache_aligned s'.
Proof.
  intros Ha.
  destruct (decide (size (vector_store s) = 0%nat)) as [Hz|Hnz].
  { rewrite get_bm25_index_empty by done. by eexists None, [], s. }
  destruct (decide (Z.of_nat (size (vector_store s)) = _bm25_cache_size s))
    as [He|He].
  { rewrite get_bm25_index_fresh by done. eexists _, _, s.
    split; [done|]. split; [|done]. intros bm25 Hb. by apply Ha. }
  rewrite get_bm25_index_stale by done.
  destruct (get_all_chunks (vector_store s)) as [[|c cs] vs'].
  - eexists None, [], _. split; [done|]. split; [done|].
    intros bm25 Hb. simpl in Hb. by apply Ha.
  - eexists _, _, _. split; [done|]. split.
    + intros bm25 [= <-]. simpl. by rewrite length_map.
    + intros bm25 [= <-]. simpl. by rewrite length_map.
Qed.

Section Bm25Search.

Context `{E : Collaborators} {HC : Contracts E}.

Lemma bm25_hits_spec (bm25 : BM25Okapi) (all_chunks : list Hit)
    (query : string) (top_k : nat) :
  length (corpus bm25) = length all_chunks ->
  let scores_np := get_scores bm25 (tokenize query) in
  exists hits idxs,
    bm25_hits (Some bm25) all_chunks query top_k = Ok hits /\
    (length idxs <= top_k)%nat /\ NoDup idxs /\
    Forall2 (fun i h => bm25_hit_at scores_np all_chunks i = Some h) idxs hits /\
    (forall i, i ∈ idxs -> (0 < at_index scores_np i)%Q) /\
    StronglySorted (fun i j => (at_index scores_np j <= at_index scores_np i)%Q)
      idxs /\
    (forall i j, (i < length all_chunks)%nat -> i ∉ idxs -> j ∈ idxs ->
                 (at_index scores_np i <= at_index scores_np j)%Q).
Proof.
  intros Hlen scores_np. unfold bm25_hits. fold scores_np.
  assert (Hn : length scores_np = length all_chunks).
  { unfold scores_np, get_scores. by rewrite length_map. }
  destruct (Nat.min top_k (length scores_np) =? 0)%nat eqn:Ek.
  { exists [], []. split; [done|]. split; [simpl; lia|].
    split; [constructor|]. split; [constructor|].
    split; [by intros i ?%elem_of_nil|]. split; [constructor|].
    by intros i j _ _ ?%elem_of_nil. }
  apply Nat.eqb_neq in Ek.
  destruct (top_k_indices_spec scores_np (Nat.min top_k (length scores_np)))
    as (idxs0 & Hok & Hl0 & Hnd0 & Hb0 & Hs0 & Hbest0); [lia|].
  rewrite Hok.
  destruct (bm25_collect_spec scores_np all_chunks idxs0 Hb0)
    as (hits & Hc & H2); [done|].
  exists hits, (List.filter (positive_score scores_np) idxs0).
  split; [done|]. split.
  { pose proof (filter_length_le (positive_score scores_np) idxs0). lia. }
  split; [by apply filter_NoDup|]. split; [done|]. split.
  { intros i [_ Hi]%filter_sub. by apply positive_score_iff. }
  split; [by apply filter_StronglySorted|].
  intros i j Hi Hni Hj. apply filter_sub in Hj as [Hj Hpj].
  apply positive_score_iff in Hpj.
  destruct (decide (i ∈ idxs0)) as [Hin|Hnin].
  - destruct (positive_score scores_np i) eqn:Ep.
    + exfalso. apply Hni. by apply filter_sub.
    + assert (~ (0 < at_index scores_np i)%Q).
      { intros Hp. apply positive_score_iff in Hp. congruence. }
      lra.
  - apply Hbest0; [lia|done|done].
Qed.

End Bm25Search.

(** C5.  With numpy behaving as documented and a cache whose index and
    chunk list have the same length, [_bm25_search] returns at most [top_k]
    candidates; each is the chunk at one index of the indexed corpus with its
    BM25 score, which is strictly positive, and the provenance "bm25"; the
    candidates are in the order of non-increasing score; the indices are
    distinct, and no chunk of the indexed corpus that is left out scores more
    than a chunk that is returned. *)
Theorem bm25_search_contract `{E : Collaborators} {HC : Contracts E}
    (query : string) (top_k : nat) (s : State) :
  cache_aligned s ->
  exists hits s' bm25_opt all_chunks,
    _bm25_search query top_k s = Ok (hits, s') /\
    _get_bm25_index (with_calls (calls s ++ [CallBm25Search query top_k]) s)
      = Ok ((bm25_opt, all_chunks), s') /\
    (length hits <= top_k)%nat /\
    Forall (fun h => exists v, score h = Some v /\ (0 < v)%Q /\
                               source h = Some "bm25") hits /\
    StronglySorted (fun x y => (score_key y <= score_key x)%Q) hits /\
    match bm25_opt with
    | None => hits = []
    | Some bm25 =>
        let scores_np := get_scores bm25 (tokenize query) in
        exists idxs,
          NoDup idxs /\
          Forall2 (fun i h => bm25_hit_at scores_np all_chunks i = Some h)
                  idxs hits /\
          forall i j, (i < length all_chunks)%nat -> i ∉ idxs -> j ∈ idxs ->
                      (at_index scores_np i <= at_index scores_np j)%Q
    end.
Proof.
  intros Ha. rewrite bm25_search_unfold.
  set (s0 := with_calls (calls s ++ [CallBm25Search query top_k]) s).
  destruct (get_bm25_index_aligned s0) as (bm25_opt & cs & s' & Hrun & Hal & _).
  { exact Ha. }
  rewrite Hrun. destruct bm25_opt as [bm25|].
  - destruct (bm25_hits_spec bm25 cs query top_k (Hal bm25 eq_refl))
      as (hits & idxs & Hok & Hlen & Hnd & H2 & Hpos & Hsorted & Hbest).
    rewrite Hok. exists hits, s', (Some bm25), cs.
    split; [done|]. split; [done|].
    assert (Hkey : Forall2 (fun i h =>
              score h = Some (at_index (get_scores bm25 (tokenize query)) i) /\
              source h = Some "bm25") idxs hits).
    { eapply Forall2_impl; [exact H2|]. intros i h Hh. unfold bm25_hit_at in Hh.
      destruct (cs !! i); [|done]. by injection Hh as <-. }
    split; [by rewrite <- (Forall2_length _ _ _ H2)|]. split.
    { apply Forall_forall. intros h Hh. apply list_elem_of_lookup in Hh as [p Hp].
      destruct (Forall2_lookup_r _ _ _ _ _ Hkey Hp) as (i & Hi & Hs & Hsrc).
      eexists. split; [exact Hs|]. split; [|done]. apply Hpos.
      by eapply list_elem_of_lookup_2. }
    split.
    { clear -Hkey Hsorted. revert Hsorted.
      induction Hkey as [|i h idxs hits [Hs _] Hrest IH]; intros Hsorted;
        [constructor|].
      apply StronglySorted_inv in Hsorted as [Hsorted Hi].
      constructor; [auto|]. apply Forall_forall. intros h' Hh'.
      apply list_elem_of_lookup in Hh' as [p Hp].
      destruct (Forall2_lookup_r _ _ _ _ _ Hrest Hp) as (i' & Hi' & Hs' & _).
      unfold score_key. rewrite Hs, Hs'. simpl.
      pose proof (proj1 (Forall_forall _ _) Hi) as Hall. apply Hall.
      by eapply list_elem_of_lookup_2. }
    exists idxs. split; [done|]. split; [done|]. exact Hbest.
  - simpl. exists [], s', None, cs. split; [done|]. split; [done|].
    split; [simpl; lia|]. split; [constructor|]. split; [constructor|done].
Qed.

Lemma cache_aligned_boot (vs : VectorStore) : cache_aligned (boot vs).
Proof. intros bm25 H. discriminate H. Qed.

Lemma bm25_search_witness :
  exists hits s',
    _bm25_search (H := Toy.toy) "When is the payment due?" 2
      (boot (open sample_rows)) = Ok (hits, s') /\
    map chunk hits = ["Payment due in 30 days."] /\
    Forall (fun h => exists v, score h = Some v /\ (0 < v)%Q /\
                               source h = Some "bm25") hits.
Proof.
  destruct (bm25_search_contract (E := Toy.toy) (HC := toy_contracts)
              "When is the payment due?" 2 (boot (open sample_rows))
              (cache_aligned_boot _))
    as (hits & s' & bm25_opt & cs & Hrun & _ & _ & Hpos & _).
  exists hits, s'. split; [exact Hrun|]. split; [|exact Hpos].
  vm_compute in Hrun. by injection Hrun as <- _.
Defined.

(** * Re-ranking and the hybrid pipeline *)

Section Rerank.

Context `{E : Collaborators}.

Lemma rerank_unfold (query : string) (candidates : list Hit) (top_k : nat)
    (s : State) :
  _rerank query candidates top_k s =
  match rerank_result query candidates top_k with
  | Ok out => Ok (out, rerank_state candidates s)
  | Raise e => Raise e
  end.
Proof.
  unfold _rerank, rerank_result, rerank_state.
  destruct candidates as [|c cs]; [done|]. cbv beta iota.
  change (map (fun c0 => (query, chunk c0)) (c :: cs))
    with (pairs_of query (c :: cs)).
  generalize (c :: cs) as cands. intros cands.
  cbv beta iota delta [bind record lift ret get _get_cross_encoder].
  cbn [calls with_calls _cross_encoder].
  destruct (_cross_encoder s) eqn:Ece.
  - cbn [calls with_calls _cross_encoder].
    destruct (attach_scores cands _) as [scored|e]; [|done].
    destruct (rerank_keys scored) as [keyed|e]; [|done].
    unfold pairs_of. rewrite length_map.
    unfold with_calls. cbn. rewrite Ece. by rewrite <- !app_assoc.
  - cbn [calls with_calls with_cross_encoder _cross_encoder].
    destruct (attach_scores cands _) as [scored|e]; [|done].
    destruct (rerank_keys scored) as [keyed|e]; [|done].
    unfold pairs_of. rewrite length_map.
    unfold with_calls, with_cross_encoder. cbn. by rewrite <- !app_assoc.
Qed.

Lemma attach_scores_same_length (candidates : list Hit) (ce_scores : list Q) :
  length ce_scores = length candidates ->
  attach_scores candidates ce_scores =
  Ok (map (fun cv : Hit * Q => set_rerank_score cv.2 cv.1)
          (combine candidates ce_scores)).
Proof.
  revert ce_scores. induction candidates as [|c cs IH]; intros [|v vs] Hlen;
    simpl in *; try done.
  rewrite IH by lia. done.
Qed.

Lemma rerank_keys_scored (l : list (Hit * Q)) :
  rerank_keys (map (fun cv : Hit * Q => set_rerank_score cv.2 cv.1) l) =
  Ok (map (fun h => (rerank_key h, h))
          (map (fun cv : Hit * Q => set_rerank_score cv.2 cv.1) l)).
Proof.
  induction l as [|[c v] l IH]; simpl; [done|]. by rewrite IH.
Qed.

Lemma map_snd_sort_keyed (l : list Hit) :
  map snd (sort_desc fst (map (fun h => (rerank_key h, h)) l)) =
  sort_desc rerank_key l.
Proof.
  rewrite (sort_desc_map (fun h => (rerank_key h, h)) fst). simpl.
  rewrite map_map. simpl. apply map_id.
Qed.

Context {HC : Contracts E}.

(** With one score per pair, [_rerank] never raises. *)
Lemma rerank_result_ok (query : string) (candidates : list Hit) (top_k : nat) :
  rerank_result query candidates top_k =
  Ok (take top_k (sort_desc rerank_key (scored_candidates query candidates))).
Proof.
  unfold rerank_result, scored_candidates.
  destruct candidates as [|c cs]; [by destruct top_k|].
  rewrite attach_scores_same_length.
  - by rewrite rerank_keys_scored, map_snd_sort_keyed.
  - rewrite ce_predict_length. unfold pairs_of. by rewrite length_map.
Qed.

Lemma scored_candidates_spec (query : string) (candidates : list Hit) :
  Forall2 (fun c h => exists v, h = set_rerank_score v c)
          candidates (scored_candidates query candidates) /\
  map rerank_score (scored_candidates query candidates) =
  map Some (ce_predict (pairs_of query candidates)).
Proof.
  unfold scored_candidates.
  assert (Hlen : length (ce_predict (pairs_of query candidates))
                 = length candidates).
  { rewrite ce_predict_length. unfold pairs_of. by rewrite length_map. }
  revert Hlen. generalize (ce_predict (pairs_of query candidates)) as vs.
  induction candidates as [|c cs IH]; intros [|v vs] Hlen; simpl in *; try done.
  destruct (IH vs) as [H1 H2]; [lia|]. split.
  - constructor; [by eexists|done].
  - by rewrite H2.
Qed.

Lemma take_sorted_spec (l : list Hit) (top_k : nat) :
  let out := take top_k (sort_desc rerank_key l) in
  (length out <= top_k)%nat /\
  StronglySorted (fun x y => (rerank_key y <= rerank_key x)%Q) out /\
  (forall h, h ∈ out -> h ∈ l) /\
  (forall h h', h ∈ out -> h' ∈ l -> h' ∉ out ->
                (rerank_key h' <= rerank_key h)%Q).
Proof.
  intros out. split; [|split; [|split]].
  - unfold out. rewrite length_take. lia.
  - apply StronglySorted_take, (sort_desc_sorted rerank_key).
  - intros h Hh. unfold out in Hh. apply elem_of_take in Hh as (i & Hi & _).
    apply (elem_of_sort_desc rerank_key). by eapply list_elem_of_lookup_2.
  - intros h h' Hh Hh' Hn.
    apply (elem_of_sort_desc rerank_key) in Hh'.
    rewrite <- (take_drop top_k (sort_desc rerank_key l)) in Hh'.
    apply elem_of_app in Hh' as [Hin|Hin]; [done|].
    pose proof (sort_desc_sorted rerank_key l) as Hs.
    rewrite <- (take_drop top_k (sort_desc rerank_key l)) in Hs.
    by apply (StronglySorted_app_1_elem_of _ _ _ h h' Hs).
Qed.

End Rerank.

Section Hybrid.

Context `{E : Collaborators}.

Lemma hybrid_retrieve_empty (query : string) (s : State) :
  size (vector_store s) = 0%nat -> hybrid_retrieve query s = Ok ([], s).
Proof.
  intros H. unfold hybrid_retrieve, bind, store_size. by rewrite H.
Qed.

Lemma hybrid_retrieve_unfold (query : string) (s : State) :
  size (vector_store s) <> 0%nat ->
  hybrid_retrieve query s =
  let vs := vector_store s in
  let k := Nat.min RETRIEVAL_TOP_K (size vs) in
  match _get_bm25_index
          (with_calls (calls s ++ [CallSearch query k; CallBm25Search query k])
             s) with
  | Ok ((bm25_opt, all_chunks), s2) =>
      match hybrid_result vs bm25_opt all_chunks query with
      | Ok out =>
          Ok (out,
              rerank_state (hybrid_candidates vs bm25_opt all_chunks query)
                (with_calls (calls s2 ++ [CallFusion]) s2))
      | Raise e => Raise e
      end
  | Raise e => Raise e
  end.
Proof.
  intros Hn. unfold hybrid_retrieve. apply Nat.eqb_neq in Hn.
  unfold bind at 1, store_size at 1. rewrite Hn.
  unfold bind at 1, store_size at 1.
  unfold bind at 1, store_search, bind at 1, record at 1.
  cbn [calls with_calls vector_store].
  unfold bind at 1. rewrite bm25_search_unfold.
  rewrite with_calls_app_assoc. cbn [app].
  cbv zeta.
  set (k := Nat.min RETRIEVAL_TOP_K (size (vector_store s))).
  destruct (_get_bm25_index _) as [[[bm25_opt all_chunks] s2]|e]; [|done].
  unfold hybrid_result, hybrid_candidates. fold k.
  destruct (bm25_hits bm25_opt all_chunks query k) as [bm25|e]; [|done].
  unfold bind at 1, record at 1. unfold bind at 1, lift at 1.
  destruct (_reciprocal_rank_fusion _ _ _) as [fused|e]; [|done].
  by rewrite rerank_unfold.
Qed.

End Hybrid.

Section HybridTotal.

Context `{E : Collaborators} {HC : Contracts E}.

(** With the collaborators behaving as documented and an aligned cache the
    pipeline never raises, and its result is the head of the re-ranked
    candidates. *)
Lemma hybrid_result_ok (vs : VectorStore) (bm25_opt : option BM25Okapi)
    (all_chunks : list Hit) (query : string) :
  (forall bm25, bm25_opt = Some bm25 ->
                length (corpus bm25) = length all_chunks) ->
  hybrid_result vs bm25_opt all_chunks query =
  Ok (take RERANK_TOP_K
        (sort_desc rerank_key
           (scored_candidates query
              (hybrid_candidates vs bm25_opt all_chunks query)))).
Proof.
  intros Hal. unfold hybrid_result, hybrid_candidates.
  set (k := Nat.min RETRIEVAL_TOP_K (size vs)).
  assert (Hb : exists bm25, bm25_hits bm25_opt all_chunks query k = Ok bm25).
  { destruct bm25_opt as [bm25|]; [|by exists []].
    destruct (bm25_hits_spec bm25 all_chunks query k (Hal bm25 eq_refl))
      as (hits & _ & Hok & _). eauto. }
  destruct Hb as [bm25 ->].
  destruct (rrf_spec (map (set_source "semantic") (search query (Some k) vs))
              bm25 60) as (fused & -> & _).
  apply rerank_result_ok.
Qed.

Lemma hybrid_retrieve_ok (query : string) (s : State) :
  cache_aligned s ->
  exists out s',
    hybrid_retrieve query s = Ok (out, s') /\
    (length out <= RERANK_TOP_K)%nat /\
    StronglySorted (fun x y => (rerank_key y <= rerank_key x)%Q) out /\
    Forall (fun h => is_Some (rerank_score h)) out /\
    cache_aligned s'.
Proof.
  intros Ha.
  destruct (decide (size (vector_store s) = 0%nat)) as [Hz|Hnz].
  { rewrite hybrid_retrieve_empty by done. exists [], s.
    split; [done|]. split; [simpl; lia|]. split; [constructor|].
    split; [constructor|done]. }
  rewrite hybrid_retrieve_unfold by done. cbv zeta.
  set (s1 := with_calls _ s).
  destruct (get_bm25_index_aligned s1) as (b & cs & s2 & -> & Hal & Ha2);
    [exact Ha|].
  rewrite (hybrid_result_ok _ _ _ _ Hal).
  set (cands := hybrid_candidates (vector_store s) b cs query).
  destruct (take_sorted_spec (scored_candidates query cands) RERANK_TOP_K)
    as (Hlen & Hsorted & Hsub & _).
  eexists _, _. split; [done|]. split; [exact Hlen|]. split; [exact Hsorted|].
  split.
  - apply Forall_forall. intros h Hh. apply Hsub in Hh.
    destruct (scored_candidates_spec query cands) as [H2 _].
    apply list_elem_of_lookup in Hh as [i Hi].
    destruct (Forall2_lookup_r _ _ _ _ _ H2 Hi) as (c & _ & v & ->).
    by eexists.
  - unfold rerank_state. destruct cands; exact Ha2.
Qed.

End HybridTotal.

(** C4.  On an empty candidate list the re-ranker returns the empty list
    and leaves the cross-encoder alone: nothing is loaded and [predict] is
    not called.  Otherwise, the cross-encoder returning one score per pair,
    it calls [predict] once, attaches to every candidate the score predicted
    for it, and returns the first [top_k] of the candidates sorted by
    non-increasing score, so no candidate left out scores more than one that
    is returned.  Hence, on an aligned cache, [hybrid_retrieve] returns at
    most 5 results, sorted by non-increasing [rerank_score]. *)
Theorem rerank_contract `{E : Collaborators} {HC : Contracts E}
    (query : string) (candidates : list Hit) (top_k : nat) (s : State) :
  _rerank query [] top_k s = Ok ([], with_calls (calls s ++ [CallRerank]) s) /\
  (candidates <> [] ->
   let scored := scored_candidates query candidates in
   exists out s',
     _rerank query candidates top_k s = Ok (out, s') /\
     calls s' = (calls s ++ [CallRerank]
                 ++ (if _cross_encoder s then [] else [LoadCrossEncoder])
                 ++ [CallPredict (length candidates)])%list /\
     Forall2 (fun c h => exists v, h = set_rerank_score v c) candidates scored /\
     map rerank_score scored = map Some (ce_predict (pairs_of query candidates)) /\
     out = take top_k (sort_desc rerank_key scored) /\
     (length out <= top_k)%nat /\
     StronglySorted (fun x y => (rerank_key y <= rerank_key x)%Q) out /\
     (forall h, h ∈ out -> h ∈ scored) /\
     (forall h h', h ∈ out -> h' ∈ scored -> h' ∉ out ->
                   (rerank_key h' <= rerank_key h)%Q)) /\
  (cache_aligned s ->
   exists out s',
     hybrid_retrieve query s = Ok (out, s') /\
     (length out <= 5)%nat /\
     StronglySorted (fun x y => (rerank_key y <= rerank_key x)%Q) out /\
     Forall (fun h => is_Some (rerank_score h)) out).
Proof.
  split; [|split].
  - by rewrite rerank_unfold.
  - intros Hne scored. rewrite rerank_unfold, rerank_result_ok.
    destruct (scored_candidates_spec query candidates) as [H1 H2].
    destruct (take_sorted_spec scored top_k) as (Hlen & Hsorted & Hsub & Hbest).
    eexists _, _. split; [done|]. split.
    { unfold rerank_state. by destruct candidates. }
    split; [exact H1|]. split; [exact H2|]. split; [done|].
    split; [exact Hlen|]. split; [exact Hsorted|]. split; [exact Hsub|exact Hbest].
  - intros Ha. destruct (hybrid_retrieve_ok query s Ha)
      as (out & s' & Hrun & Hlen & Hsorted & Hsome & _).
    exists out, s'. split; [exact Hrun|]. split; [exact Hlen|]. by split.
Qed.

Lemma rerank_witness :
  exists out s',
    hybrid_retrieve (H := Toy.toy) "When is the payment due in days?"
      (boot (open sample_rows)) = Ok (out, s') /\
    map chunk out = ["Payment due in 30 days.";
                     "Section 5 governs termination.";
                     "Confidentiality applies for 2 years."] /\
    (length out <= 5)%nat /\
    StronglySorted (fun x y => (rerank_key y <= rerank_key x)%Q) out.
Proof.
  destruct (rerank_contract (E := Toy.toy) (HC := toy_contracts)
              "When is the payment due in days?" [sample_hit "alpha" 1] 5
              (boot (open sample_rows)))
    as (_ & Hne & Hhyb).
  destruct (Hne ltac:(discriminate)) as (out0 & s0 & _).
  destruct (Hhyb (cache_aligned_boot _)) as (out & s' & Hrun & Hlen & Hsorted & _).
  exists out, s'. split; [exact Hrun|]. split; [|by split].
  vm_compute in Hrun. by injection Hrun as <- _.
Defined.

(** * Repeated calls of the hybrid pipeline *)





Lemma get_bm25_index_current (s : State) :
  size (vector_store s) <> 0%nat ->
  cache_coherent (vector_store s) -> cache_current s ->
  exists s',
    _get_bm25_index s =
    Ok ((Some (build_index (map stored_chunk (collection (vector_store s)))),
         map stored_chunk (collection (vector_store s))), s').
Proof.
  intros Hn Hc Hcur.
  destruct (get_bm25_index_spec s Hn Hc)
    as (s' & Hrun & _ & _ & _ & Hstale & Hfresh).
  exists s'. rewrite Hrun.
  destruct (decide (Z.of_nat (size (vector_store s)) = _bm25_cache_size s))
    as [He|He].
  - rewrite (Hfresh He). destruct Hcur as [?|[-> ->]]; done.
  - by rewrite (Hstale He).
Qed.


Section Repeat.

Context `{E : Collaborators}.



End Repeat.




Section PipelineModes.

Import Chain.

(** * The retrieval mode of [query_rag] *)

Lemma stages_app (l1 l2 : list event) : stages (l1 ++ l2) = (stages l1 ++ stages l2)%list.
Proof. unfold stages. apply omap_app. Qed.

Lemma get_bm25_index_calls (s s' : State) r :
  _get_bm25_index s = Ok (r, s') ->
  exists extra, calls s' = (calls s ++ extra)%list /\ stages extra = [].
Proof.
  intros Hrun.
  destruct (decide (size (vector_store s) = 0%nat)) as [Hz|Hnz].
  { rewrite get_bm25_index_empty in Hrun by done. injection Hrun as _ <-.
    exists []. by rewrite app_nil_r. }
  destruct (decide (Z.of_nat (size (vector_store s)) = _bm25_cache_size s))
    as [He|He].
  { rewrite get_bm25_index_fresh in Hrun by done. injection Hrun as _ <-.
    exists []. by rewrite app_nil_r. }
  rewrite get_bm25_index_stale in Hrun by done.
  destruct (get_all_chunks (vector_store s)) as [[|c cs] vs'];
    injection Hrun as _ <-; simpl; eauto.
Qed.

Section Modes.

Context `{E : Collaborators}.

(** On a non-empty store a call of [hybrid_retrieve] that returns has
    entered the four stages, in order, and returns at most 5 entries. *)
Lemma hybrid_retrieve_stages (query : string) (s s' : State) (out : list Hit) :
  size (vector_store s) <> 0%nat ->
  hybrid_retrieve query s = Ok (out, s') ->
  (exists new, calls s' = (calls s ++ new)%list /\
               stages new = [Dense; Sparse; Fusion; Rerank]) /\
  (length out <= RERANK_TOP_K)%nat.
Proof.
  intros Hn Hrun. rewrite hybrid_retrieve_unfold in Hrun by done.
  cbv zeta in Hrun.
  destruct (_get_bm25_index _) as [[[b cs] s2]|e] eqn:Eidx; [|done].
  apply get_bm25_index_calls in Eidx as (extra & Hcalls & Hst).
  simpl in Hcalls.
  destruct (hybrid_result (vector_store s) b cs query) as [out'|e] eqn:Eres;
    [|done].
  injection Hrun as <- <-. split.
  - set (cands := hybrid_candidates (vector_store s) b cs query).
    assert (Hr : exists tail,
               calls (rerank_state cands (with_calls (calls s2 ++ [CallFusion]) s2))
               = (calls s2 ++ [CallFusion; CallRerank] ++ tail)%list /\
               stages tail = []).
    { unfold rerank_state. destruct cands as [|c cands].
      - exists []. simpl. by rewrite <- app_assoc.
      - eexists. simpl. rewrite <- !app_assoc. split; [reflexivity|].
        by destruct (_cross_encoder s2). }
    destruct Hr as (tail & -> & Htail). rewrite Hcalls.
    eexists. rewrite <- !app_assoc. split; [reflexivity|].
    rewrite !stages_app, Hst, Htail. reflexivity.
  - unfold hybrid_result in Eres.
    destruct (bm25_hits _ _ _ _); [|done].
    destruct (_reciprocal_rank_fusion _ _ _); [|done].
    unfold rerank_result in Eres.
    destruct (take _ _) as [|c cands]; [injection Eres as <-; simpl; lia|].
    destruct (attach_scores _ _); [|done].
    destruct (rerank_keys _); [|done].
    injection Eres as <-. rewrite length_take. lia.
Qed.

Lemma query_rag_results_empty (question : string) (s : State) :
  size (vector_store s) = 0%nat ->
  query_rag_results question s = Ok ([], s).
Proof.
  intros H. unfold query_rag_results, bind, store_size. by rewrite H.
Qed.

Lemma query_rag_results_pages (question : string) (s : State) :
  size (vector_store s) <> 0%nat ->
  _extract_page_numbers question <> [] ->
  let pages := _extract_page_numbers question in
  let s1 := with_calls (calls s ++ [CallGetChunksByPages pages]) s in
  query_rag_results question s =
  match rows_on_pages pages (vector_store s) with
  | [] => hybrid_retrieve question s1
  | rows => Ok (map (fun d => exact_result (stored_chunk d)) rows, s1)
  end.
Proof.
  intros Hn Hp pages s1. unfold query_rag_results.
  apply Nat.eqb_neq in Hn.
  unfold bind at 1, store_size at 1. rewrite Hn.
  unfold bind at 1, store_size at 1. fold pages.
  destruct pages as [|p ps] eqn:Ep; [done|].
  unfold bind at 1, store_get_chunks_by_pages, bind at 1, record.
  cbn [calls with_calls vector_store]. fold s1.
  unfold get_chunks_by_pages. unfold size in Hn. rewrite Hn.
  unfold rows_on_pages.
  destruct (filter _ (collection (vector_store s))) as [|d ds]; [done|].
  unfold ret. simpl. by rewrite map_map.
Qed.

Lemma query_rag_results_no_pages (question : string) (s : State) :
  size (vector_store s) <> 0%nat ->
  _extract_page_numbers question = [] ->
  query_rag_results question s =
  if (size (vector_store s) <=? _FULL_DOC_CHUNK_THRESHOLD)%nat then
    let '(all_data, vs') := get_all_chunks (vector_store s) in
    Ok (map exact_result all_data,
        with_store vs' (with_calls (calls s ++ [CallGetAllChunks]) s))
  else hybrid_retrieve question s.
Proof.
  intros Hn Hp. unfold query_rag_results.
  apply Nat.eqb_neq in Hn.
  unfold bind at 1, store_size at 1. rewrite Hn.
  unfold bind at 1, store_size at 1. rewrite Hp.
  destruct (_ <=? _)%nat; [|done].
  unfold bind, store_get_all_chunks, bind, record, ret. simpl.
  by destruct (get_all_chunks (vector_store s)).
Qed.

End Modes.

Lemma rows_on_pages_nil (pages : list Z) (vs : VectorStore) :
  rows_on_pages pages vs = [] <->
  forall d, d ∈ collection vs -> page (doc_meta d) ∉ pages.
Proof.
  unfold rows_on_pages. split.
  - intros Hnil d Hd Hp.
    assert (Hin : d ∈ filter (fun d => on_pages pages d) (collection vs)).
    { apply list_elem_of_filter. split; [|done].
      unfold on_pages. by apply bool_decide_pack. }
    rewrite Hnil in Hin. by apply elem_of_nil in Hin.
  - intros Hall. destruct (filter _ _) as [|d ds] eqn:Ef; [done|].
    assert (Hin : d ∈ filter (fun d => on_pages pages d) (collection vs)).
    { rewrite Ef. left. }
    apply list_elem_of_filter in Hin as [Hp Hd].
    unfold on_pages in Hp. apply bool_decide_unpack in Hp.
    by destruct (Hall d Hd).
Qed.

Lemma elem_of_rows_on_pages (pages : list Z) (vs : VectorStore) (d : Doc) :
  d ∈ rows_on_pages pages vs <->
  d ∈ collection vs /\ page (doc_meta d) ∈ pages.
Proof.
  unfold rows_on_pages. rewrite list_elem_of_filter. unfold on_pages.
  split; intros [H1 H2].
  - split; [done|]. by apply bool_decide_unpack in H1.
  - split; [|done]. by apply bool_decide_pack.
Qed.

(** C1.  For a question that names pages: if some row of the store lies on
    one of them, the results are exactly those rows, in the order of the
    store, each with relevance 1, and the only call logged is the page
    fetch: no dense search, no BM25 search, no fusion, no re-ranking, and
    the state is otherwise untouched.  If no row lies on the pages, the
    results are those of [hybrid_retrieve] for the question, which on a
    non-empty store enters the four stages in order (on an empty store
    both return the empty list at once). *)
Theorem page_targeted_mode `{E : Collaborators} (question : string)
    (s : State) :
  let pages := _extract_page_numbers question in
  let vs := vector_store s in
  let s1 := with_calls (calls s ++ [CallGetChunksByPages pages]) s in
  pages <> [] ->
  ((exists d, d ∈ collection vs /\ page (doc_meta d) ∈ pages) ->
   query_rag_results question s =
     Ok (map (fun d => exact_result (stored_chunk d)) (rows_on_pages pages vs),
         s1) /\
   stages [CallGetChunksByPages pages] = [] /\
   (forall d, d ∈ rows_on_pages pages vs <->
              d ∈ collection vs /\ page (doc_meta d) ∈ pages) /\
   (forall d, rerank_score (exact_result (stored_chunk d)) = Some 1%Q /\
              chunk (exact_result (stored_chunk d)) = doc_text d /\
              metadata (exact_result (stored_chunk d)) = doc_meta d)) /\
  ((forall d, d ∈ collection vs -> page (doc_meta d) ∉ pages) ->
   query_rag_results question s =
     hybrid_retrieve question (if (size vs =? 0)%nat then s else s1) /\
   (size vs <> 0%nat ->
    forall out s',
      query_rag_results question s = Ok (out, s') ->
      exists new, calls s' = (calls s1 ++ new)%list /\
                  stages new = [Dense; Sparse; Fusion; Rerank])).
Proof.
  intros pages vs s1 Hp. split.
  - intros (d & Hd & Hpg).
    assert (Hn : size vs <> 0%nat).
    { unfold size, count. destruct (collection vs) eqn:Ec; [|done].
      by apply elem_of_nil in Hd. }
    split; [|split; [done|split; [apply elem_of_rows_on_pages|done]]].
    rewrite query_rag_results_pages by done. fold pages vs s1.
    destruct (rows_on_pages pages vs) as [|d0 ds] eqn:Er; [|done].
    exfalso. pose proof (proj1 (rows_on_pages_nil pages vs) Er d Hd). done.
  - intros Hnone. apply rows_on_pages_nil in Hnone.
    destruct (size vs =? 0)%nat eqn:En.
    + apply Nat.eqb_eq in En. split; [|done].
      by rewrite query_rag_results_empty, hybrid_retrieve_empty.
    + apply Nat.eqb_neq in En.
      assert (Heq : query_rag_results question s = hybrid_retrieve question s1).
      { rewrite query_rag_results_pages by done. fold pages vs s1.
        by rewrite Hnone. }
      split; [exact Heq|]. intros _ out s' Hrun. rewrite Heq in Hrun.
      by destruct (hybrid_retrieve_stages question s1 s' out En Hrun).
Qed.

(** C2.  For a question that names no page, on a non-empty store whose
    chunk list is the one the store would hand out: with at most 40 chunks
    the results are all the rows of the store, one result per row, each
    with relevance 1, and no stage of the hybrid pipeline is entered; with
    41 chunks or more the results are those of [hybrid_retrieve], which
    enters the four stages and returns at most 5 entries. *)
Theorem full_corpus_threshold `{E : Collaborators} (question : string)
    (s : State) :
  let vs := vector_store s in
  _extract_page_numbers question = [] ->
  size vs <> 0%nat -> cache_coherent vs ->
  _FULL_DOC_CHUNK_THRESHOLD = 40%nat /\
  ((size vs <= 40)%nat ->
   exists s',
     query_rag_results question s =
       Ok (map (fun d => exact_result (stored_chunk d)) (collection vs), s') /\
     calls s' = (calls s ++ [CallGetAllChunks])%list /\
     stages [CallGetAllChunks] = [] /\
     length (map (fun d => exact_result (stored_chunk d)) (collection vs))
       = size vs /\
     (forall d, rerank_score (exact_result (stored_chunk d)) = Some 1%Q /\
                chunk (exact_result (stored_chunk d)) = doc_text d /\
                metadata (exact_result (stored_chunk d)) = doc_meta d)) /\
  ((41 <= size vs)%nat ->
   query_rag_results question s = hybrid_retrieve question s /\
   forall out s',
     query_rag_results question s = Ok (out, s') ->
     (exists new, calls s' = (calls s ++ new)%list /\
                  stages new = [Dense; Sparse; Fusion; Rerank]) /\
     (length out <= 5)%nat).
Proof.
  intros vs Hp Hn Hc. split; [reflexivity|]. split.
  - intros Hle. rewrite query_rag_results_no_pages by done.
    apply Nat.leb_le in Hle. unfold _FULL_DOC_CHUNK_THRESHOLD. fold vs.
    rewrite Hle.
    destruct (get_all_chunks_coherent vs Hc Hn) as (Hall & _ & _).
    destruct (get_all_chunks vs) as [all_data vs']. simpl in Hall. subst.
    eexists. split; [by rewrite map_map|]. split; [done|]. split; [done|].
    split; [by rewrite length_map|done].
  - intros Hge.
    assert (Heq : query_rag_results question s = hybrid_retrieve question s).
    { rewrite query_rag_results_no_pages by done.
      unfold _FULL_DOC_CHUNK_THRESHOLD. fold vs.
      destruct (size vs <=? 40)%nat eqn:El; [|done].
      apply Nat.leb_le in El. lia. }
    split; [exact Heq|]. intros out s' Hrun. rewrite Heq in Hrun.
    exact (hybrid_retrieve_stages question s s' out Hn Hrun).
Qed.

Lemma page_targeted_witness :
  query_rag_results (H := Toy.toy) "What does page 2 say about payment?"
    (boot (open sample_rows))
  = Ok ([exact_result (stored_chunk (sample_doc "Payment due in 30 days." 2))],
        with_calls [CallGetChunksByPages [2]] (boot (open sample_rows))) /\
  exists out s',
    query_rag_results (H := Toy.toy) "What does page 9 say about payment?"
      (boot (open sample_rows)) = Ok (out, s') /\
    map chunk out = ["Section 5 governs termination.";
                     "Payment due in 30 days.";
                     "Confidentiality applies for 2 years."] /\
    stages (calls s') = [Dense; Sparse; Fusion; Rerank].
Proof.
  split.
  - destruct (page_targeted_mode (E := Toy.toy)
                "What does page 2 say about payment?" (boot (open sample_rows)))
      as [Hhit _]; [vm_compute; discriminate|].
    destruct Hhit as (Hrun & _).
    + exists (sample_doc "Payment due in 30 days." 2).
      split; [right; left|vm_compute; left].
    + rewrite Hrun. vm_compute. reflexivity.
  - destruct (page_targeted_mode (E := Toy.toy)
                "What does page 9 say about payment?" (boot (open sample_rows)))
      as [_ Hmiss]; [vm_compute; discriminate|].
    destruct Hmiss as (Hrun & Hst).
    + intros d Hd Hp. vm_compute in Hp.
      apply list_elem_of_singleton in Hp.
      repeat (apply elem_of_cons in Hd as [->|Hd]; [discriminate Hp|]).
      by apply elem_of_nil in Hd.
    + assert (Eq : exists out s',
                 query_rag_results (H := Toy.toy)
                   "What does page 9 say about payment?"
                   (boot (open sample_rows)) = Ok (out, s') /\
                 map chunk out = ["Section 5 governs termination.";
                                  "Payment due in 30 days.";
                                  "Confidentiality applies for 2 years."]).
      { eexists _, _. split; [vm_compute; reflexivity|reflexivity]. }
      destruct Eq as (out & s' & Eq & Hmap).
      exists out, s'. split; [exact Eq|]. split; [exact Hmap|].
      destruct (Hst ltac:(discriminate) out s' Eq) as (new & Hcalls & Hnew).
      rewrite Hcalls, stages_app, Hnew. reflexivity.
Defined.

Lemma full_corpus_witness :
  (exists s',
     query_rag_results (H := Toy.toy) "What is the termination clause?"
       (boot (open sample_rows))
     = Ok (map (fun d => exact_result (stored_chunk d)) sample_rows, s')) /\
  (exists out s',
     query_rag_results (H := Toy.toy) "What is the termination clause?"
       (boot (open many_rows)) = Ok (out, s') /\
     length out = 5%nat /\
     stages (calls s') = [Dense; Sparse; Fusion; Rerank]).
Proof.
  split.
  - destruct (full_corpus_threshold (E := Toy.toy)
                "What is the termination clause?" (boot (open sample_rows)))
      as (_ & Hsmall & _).
    + vm_compute. reflexivity.
    + discriminate.
    + intros c Hc. discriminate Hc.
    + destruct Hsmall as (s' & Hrun & _); [vm_compute; lia|]. eauto.
  - destruct (full_corpus_threshold (E := Toy.toy)
                "What is the termination clause?" (boot (open many_rows)))
      as (_ & _ & Hlarge).
    + vm_compute. reflexivity.
    + discriminate.
    + intros c Hc. discriminate Hc.
    + destruct Hlarge as (Heq & Hst); [vm_compute; lia|].
      assert (Eq : exists out s',
                 query_rag_results (H := Toy.toy)
                   "What is the termination clause?" (boot (open many_rows))
                 = Ok (out, s') /\ length out = 5%nat).
      { eexists _, _. split; [vm_compute; reflexivity|reflexivity]. }
      destruct Eq as (out & s' & Eq & Hlen).
      exists out, s'. split; [exact Eq|]. split; [exact Hlen|].
      destruct (Hst out s' Eq) as [(new & Hcalls & Hnew) _].
      rewrite Hcalls, stages_app, Hnew. reflexivity.
Defined.

End PipelineModes.

Section SharedObjects.

Import Heap HeapLogic.

(** * Queries and the shared cache *)

Lemma keeps_refl n0 s : keeps n0 s s.
Proof. by split_and!. Qed.

Lemma keeps_trans n0 s1 s2 s3 : keeps n0 s1 s2 -> keeps n0 s2 s3 -> keeps n0 s1 s3.
Proof.
  intros (L1 & O1 & R1) (L2 & O2 & R2). split_and!; [lia| |congruence].
  intros l Hl. by rewrite O2, O1.
Qed.

Lemma quiet_framing : Framing quiet.
Proof.
  constructor.
  - intros n0 s. split; [apply keeps_refl|done].
  - intros n0 s1 s2 s3 [K1 C1] [K2 C2].
    split; [by eapply keeps_trans|congruence].
  - by intros n0 s s' [K _].
Qed.

Lemma frame_framing : Framing frame.
Proof.
  constructor.
  - intros n0 s. split; [apply keeps_refl|by left].
  - intros n0 s1 s2 s3 [K1 C1] [K2 C2].
    split; [by eapply keeps_trans|].
    destruct K1 as (_ & _ & R1).
    destruct C1 as [C1|(N1 & D1 & E1)], C2 as [C2|(N2 & D2 & E2)].
    + left. congruence.
    + right. unfold pcache in C1. injection C1 as Hs _ _.
      rewrite R1, Hs in *. done.
    + right. unfold pcache in C2. injection C2 as Hs _ _.
      split_and!; [done|done|congruence].
    + right. split_and!; [done|done|]. by rewrite E2, R1.
  - by intros n0 s s' [K _].
Qed.

Lemma quiet_frame n0 s s' : quiet n0 s s' -> frame n0 s s'.
Proof. intros [K C]. split; [done|by left]. Qed.

Section Rules.

Context (F : nat -> PState -> PState -> Prop) {HF : Framing F} (n0 : nat).

Lemma triple_ret {A : Type} (Pre : PState -> Prop) (a : A) :
  triple F n0 Pre (pret a) (fun b s => b = a /\ Pre s).
Proof.
  intros s Hn Hp. split; [apply framing_refl|]. by intros b [= <-].
Qed.

Lemma triple_raise {A : Type} (Pre : PState -> Prop) (e : error)
    (Post : A -> PState -> Prop) :
  triple F n0 Pre (raise e) Post.
Proof. intros s Hn Hp. split; [apply framing_refl|]. by intros b. Qed.

Lemma triple_bind {A B : Type} (Pre : PState -> Prop) (m : P A)
    (Mid : A -> PState -> Prop) (f : A -> P B) (Post : B -> PState -> Prop) :
  triple F n0 Pre m Mid ->
  (forall a, triple F n0 (Mid a) (f a) Post) ->
  triple F n0 Pre (pbind m f) Post.
Proof.
  intros Hm Hf s Hn Hp. destruct (Hm s Hn Hp) as [Hfr Hpost].
  unfold pbind. destruct (m s) as [[a|e] s1] eqn:E; simpl in *.
  - assert (Hn1 : (n0 <= length (heap s1))%nat).
    { apply framing_keeps in Hfr as (L & _). lia. }
    destruct (Hf a s1 Hn1 (Hpost a eq_refl)) as [Hfr2 Hpost2].
    split; [by eapply framing_trans|done].
  - split; [done|by intros b].
Qed.

Lemma triple_conseq {A : Type} (Pre Pre' : PState -> Prop) (m : P A)
    (Post Post' : A -> PState -> Prop) :
  triple F n0 Pre m Post ->
  (forall s, Pre' s -> Pre s) -> (forall a s, Post a s -> Post' a s) ->
  triple F n0 Pre' m Post'.
Proof.
  intros Hm Hpre Hpost s Hn Hp. destruct (Hm s Hn (Hpre s Hp)) as [Hfr Hq].
  split; [done|]. intros a Ha. by apply Hpost, Hq.
Qed.

Lemma triple_pget (Pre : PState -> Prop) :
  triple F n0 Pre pget (fun a s => a = s /\ Pre s).
Proof.
  intros s Hn Hp. split; [apply framing_refl|]. by intros b [= <-].
Qed.

(** A fact that does not depend on the state may be assumed. *)
Lemma triple_assume {A : Type} (Pre : PState -> Prop) (Fact : Prop) (m : P A)
    (Post : A -> PState -> Prop) :
  (forall s, Pre s -> Fact) ->
  (Fact -> triple F n0 Pre m Post) -> triple F n0 Pre m Post.
Proof. intros Hf Hm s Hn Hp. by apply Hm; [eapply Hf|..]. Qed.

End Rules.

Lemma triple_weaken {A : Type} n0 (Pre : PState -> Prop) (m : P A)
    (Post : A -> PState -> Prop) :
  triple quiet n0 Pre m Post -> triple frame n0 Pre m Post.
Proof.
  intros Hm s Hn Hp. destruct (Hm s Hn Hp) as [Hq Hpost].
  split; [by apply quiet_frame|done].
Qed.

#[local] Existing Instance quiet_framing.
#[local] Existing Instance frame_framing.

(** A quiet step keeps what is known of the rows and of the cache. *)
Lemma triple_quiet_inv {A : Type} n0 (Pre : PState -> Prop) (m : P A)
    (Post : A -> PState -> Prop)
    (I : list Doc -> Z * option BM25Okapi * loc -> Prop) :
  triple quiet n0 Pre m Post ->
  triple quiet n0 (fun s => Pre s /\ I (rows s) (pcache s)) m
    (fun a s' => Post a s' /\ I (rows s') (pcache s')).
Proof.
  intros Hm s Hn [Hp Hi]. destruct (Hm s Hn Hp) as [Hq Hpost].
  split; [done|]. intros a Ha. split; [by apply Hpost|].
  destruct Hq as [(_ & _ & ->) ->]. done.
Qed.

Section Primitives.

Context (n0 : nat).

Lemma triple_alloc (Pre : PState -> Prop) (o : obj) :
  triple quiet n0 Pre (alloc o)
    (fun l s' => (n0 <= l)%nat /\ heap s' !! l = Some o).
Proof.
  intros s Hn Hp. unfold alloc. simpl. split.
  - split; [|done]. split_and!; simpl; [rewrite length_app; lia| |done].
    intros l Hl. apply lookup_app_l. lia.
  - intros a [= <-]. split; [done|]. simpl. apply list_lookup_middle. done.
Qed.

Lemma triple_readonly {A : Type} F {HF : Framing F} (Pre : PState -> Prop)
    (m : P A) :
  readonly m ->
  triple F n0 Pre m (fun a s' => Pre s' /\ (m s').1 = Done a).
Proof.
  intros Hr s Hn Hp. split; [rewrite Hr; apply framing_refl|].
  intros a Ha. rewrite !Hr. by split.
Qed.

Lemma readonly_bind {A B : Type} (m : P A) (f : A -> P B) :
  readonly m -> (forall a, readonly (f a)) -> readonly (pbind m f).
Proof.
  intros Hm Hf s. unfold pbind. specialize (Hm s).
  destruct (m s) as [[a|e] s1]; simpl in *; subst; [apply Hf|done].
Qed.

Lemma readonly_ret {A : Type} (a : A) : readonly (pret a).
Proof. done. Qed.

Lemma readonly_raise {A : Type} (e : error) : readonly (raise (A := A) e).
Proof. done. Qed.

Lemma readonly_load (l : loc) : readonly (load l).
Proof. intros s. unfold load. by destruct (heap s !! l). Qed.

Lemma readonly_load_dict (l : loc) : readonly (load_dict l).
Proof.
  apply readonly_bind; [apply readonly_load|]. by intros [d|xs].
Qed.

Lemma readonly_load_list (l : loc) : readonly (load_list l).
Proof.
  apply readonly_bind; [apply readonly_load|]. by intros [d|xs].
Qed.

Lemma readonly_getitem (l : loc) (key : string) : readonly (getitem l key).
Proof.
  apply readonly_bind; [apply readonly_load_dict|].
  intros d. by destruct (d !! key).
Qed.

Lemma readonly_as_str (v : val) : readonly (as_str v).
Proof. by destruct v. Qed.

Lemma readonly_as_num (v : val) : readonly (as_num v).
Proof. by destruct v. Qed.

Lemma readonly_index {A : Type} (xs : list A) (i : nat) : readonly (index xs i).
Proof. unfold index. by destruct (xs !! i). Qed.

Lemma readonly_lift_result {A : Type} (r : result A) : readonly (lift_result r).
Proof. by destruct r as [a|[]]. Qed.

Lemma readonly_map_each {A B : Type} (f : A -> P B) (xs : list A) :
  (forall x, readonly (f x)) -> readonly (map_each f xs).
Proof.
  intros Hf. induction xs as [|x xs IH]; [done|]. simpl.
  apply readonly_bind; [apply Hf|]. intros y.
  apply readonly_bind; [apply IH|]. done.
Qed.

Lemma readonly_fold_each {A S : Type} (f : S -> A -> P S) (xs : list A) :
  (forall a x, readonly (f a x)) -> forall acc, readonly (fold_each f acc xs).
Proof.
  intros Hf. induction xs as [|x xs IH]; intros acc; [done|]. simpl.
  apply readonly_bind; [apply Hf|]. apply IH.
Qed.

Lemma load_list_done (l : loc) (s : PState) (xs : list loc) :
  (load_list l s).1 = Done xs -> heap s !! l = Some (OList xs).
Proof.
  unfold load_list, pbind, load. destruct (heap s !! l) as [[d|ys]|]; simpl;
    try done. by intros [= <-].
Qed.

Lemma triple_load_list F {HF : Framing F} (Pre : PState -> Prop) (l : loc) :
  triple F n0 Pre (load_list l)
    (fun xs s' => Pre s' /\ heap s' !! l = Some (OList xs)).
Proof.
  eapply triple_conseq;
    [apply (triple_readonly F), readonly_load_list|done|].
  intros xs s [Hp Hd]. split; [done|]. by apply load_list_done.
Qed.

Lemma triple_setitem (Pre : PState -> Prop) (l : loc) (key : string) (v : val) :
  (n0 <= l)%nat -> triple quiet n0 Pre (setitem l key v) (fun _ _ => True).
Proof.
  intros Hl s Hn Hp. split; [|done].
  unfold setitem, pbind. pose proof (readonly_load_dict l s) as Hr.
  destruct (load_dict l s) as [[d|e] s1]; simpl in *; subst s1.
  - unfold pmodify. simpl. split; [|done].
    split_and!; simpl; [by rewrite length_insert| |done].
    intros l' Hl'. apply list_lookup_insert_ne. lia.
  - split; [apply keeps_refl|done].
Qed.

Lemma triple_set_list (Pre : PState -> Prop) (l : loc) (xs : list loc) :
  (n0 <= l)%nat -> triple quiet n0 Pre (set_list l xs) (fun _ _ => True).
Proof.
  intros Hl s Hn Hp. split; [|done].
  unfold set_list, pbind. pose proof (readonly_load_list l s) as Hr.
  destruct (load_list l s) as [[d|e] s1]; simpl in *; subst s1.
  - unfold pmodify. simpl. split; [|done].
    split_and!; simpl; [by rewrite length_insert| |done].
    intros l' Hl'. apply list_lookup_insert_ne. lia.
  - split; [apply keeps_refl|done].
Qed.

Lemma triple_set_store_cache (Pre : PState -> Prop) (l : loc) (n : Z) :
  triple quiet n0 Pre (pmodify (set_store_cache l n)) (fun _ _ => True).
Proof. intros s Hn Hp. split; [|done]. split; [by split_and!|done]. Qed.

Lemma triple_set_cross_encoder (Pre : PState -> Prop) (b : bool) :
  triple quiet n0 Pre (pmodify (set_cross_encoder b)) (fun _ _ => True).
Proof. intros s Hn Hp. split; [|done]. split; [by split_and!|done]. Qed.

(** Loops. *)
Lemma triple_map_each {A B : Type} F {HF : Framing F} (f : A -> P B)
    (Q : B -> Prop) (xs : list A) :
  (forall x, x ∈ xs -> triple F n0 (fun _ => True) (f x) (fun y _ => Q y)) ->
  triple F n0 (fun _ => True) (map_each f xs) (fun ys _ => Forall Q ys).
Proof.
  induction xs as [|x xs IH]; intros Hf; simpl.
  - eapply triple_conseq;
      [apply (triple_ret F n0 (fun _ => True))|done|].
    intros ys s [-> _]. constructor.
  - apply (triple_bind F n0 _ _ (fun y _ => Q y)); [apply Hf; left|].
    intros y. apply (triple_assume F n0 _ (Q y)); [done|]. intros Hy.
    apply (triple_bind F n0 _ _ (fun ys _ => Forall Q ys)).
    { eapply triple_conseq; [apply IH|done|done].
      intros x' Hx'. apply Hf. by right. }
    intros ys. apply (triple_assume F n0 _ (Forall Q ys)); [done|]. intros Hys.
    eapply triple_conseq;
      [apply (triple_ret F n0 (fun _ => True))|done|].
    intros zs s [-> _]. by constructor.
Qed.

Lemma triple_for_each {A : Type} F {HF : Framing F} (f : A -> P unit)
    (xs : list A) :
  (forall x, x ∈ xs -> triple F n0 (fun _ => True) (f x) (fun _ _ => True)) ->
  triple F n0 (fun _ => True) (for_each f xs) (fun _ _ => True).
Proof.
  induction xs as [|x xs IH]; intros Hf; simpl.
  - eapply triple_conseq;
      [apply (triple_ret F n0 (fun _ => True))|done|done].
  - apply (triple_bind F n0 _ _ (fun _ _ => True)); [apply Hf; left|].
    intros _. apply IH. intros x' Hx'. apply Hf. by right.
Qed.

End Primitives.

(** ** The functions of the retriever *)

Section Basic.

Context (n0 : nat).

Lemma triple_any {A : Type} F (Pre : PState -> Prop) (m : P A)
    (Post : A -> PState -> Prop) :
  triple F n0 (fun _ => True) m Post -> triple F n0 Pre m Post.
Proof. intros H. eapply triple_conseq; [exact H|done|done]. Qed.

Lemma triple_ret_any {A : Type} F {HF : Framing F} (Pre : PState -> Prop)
    (a : A) :
  triple F n0 Pre (pret a) (fun _ _ => True).
Proof. eapply triple_conseq; [apply (triple_ret F n0 Pre)|done|done]. Qed.

Lemma triple_pget_any F {HF : Framing F} (Pre : PState -> Prop) :
  triple F n0 Pre pget (fun _ _ => True).
Proof. eapply triple_conseq; [apply (triple_pget F n0 Pre)|done|done]. Qed.

Lemma triple_alloc_any (Pre : PState -> Prop) (o : obj) :
  triple quiet n0 Pre (alloc o) (fun _ _ => True).
Proof. eapply triple_conseq; [apply (triple_alloc n0 Pre)|done|done]. Qed.

Lemma triple_alloc_fresh (Pre : PState -> Prop) (o : obj) :
  triple quiet n0 Pre (alloc o) (fun l _ => (n0 <= l)%nat).
Proof.
  eapply triple_conseq; [apply (triple_alloc n0 Pre)|done|].
  by intros l s [Hl _].
Qed.

Lemma triple_alloc_list (Pre : PState -> Prop) (xs : list loc) :
  Forall (fun x => (n0 <= x)%nat) xs ->
  triple quiet n0 Pre (alloc (OList xs)) (fresh_list n0).
Proof.
  intros Hxs. eapply triple_conseq; [apply (triple_alloc n0 Pre)|done|].
  intros l s [Hl Hh]. split; [done|]. eauto.
Qed.

Lemma triple_read {A : Type} F {HF : Framing F} (Pre : PState -> Prop)
    (m : P A) :
  readonly m -> triple F n0 Pre m (fun _ _ => True).
Proof.
  intros H. eapply triple_conseq; [by apply (triple_readonly n0 F Pre)|done|done].
Qed.

End Basic.

Ltac step Mid := apply (triple_bind _ _ _ _ Mid).
Ltac step_any := apply (triple_bind _ _ _ _ (fun _ _ => True)).

Section Functions.

Context `{E : Collaborators} (n0 : nat).

Lemma triple_new_chunk_dict (extra : list (string * val)) (d : Doc) :
  triple quiet n0 (fun _ => True) (new_chunk_dict extra d)
    (fun l _ => (n0 <= l)%nat).
Proof.
  unfold new_chunk_dict. step_any; [apply triple_alloc_any|].
  intros m. apply triple_alloc_fresh.
Qed.

Lemma triple_search (query : string) (top_k : option nat) :
  triple quiet n0 (fun _ => True) (search query top_k) (fresh_list n0).
Proof.
  unfold search. step_any; [apply triple_pget_any; apply _|].
  intros s. destruct (_ =? 0)%nat.
  { apply triple_alloc_list. constructor. }
  step (fun (hits : list loc) (_ : PState) =>
          Forall (fun x => (n0 <= x)%nat) hits).
  { apply triple_map_each; [apply _|].
    intros r _. apply triple_new_chunk_dict. }
  intros hits. apply (triple_assume quiet n0 _ _ _ _ (fun s H => H)).
  intros Hhits. by apply triple_alloc_list.
Qed.

Lemma triple_get_all_chunks :
  triple quiet n0 (fun _ => True) get_all_chunks (fun _ _ => True).
Proof.
  unfold get_all_chunks. step_any; [apply triple_pget_any; apply _|].
  intros s. destruct (_ =? 0)%nat; [apply triple_alloc_any|].
  assert (Hrefresh : triple quiet n0 (fun _ => True)
            (let! cs := map_each (new_chunk_dict []) (rows s) in
             let! l := alloc (OList cs) in
             pmodify (set_store_cache l (Z.of_nat (length (rows s)))) >>
             pret l) (fun _ _ => True)).
  { step_any.
    { eapply triple_conseq;
        [apply (triple_map_each n0 quiet _ (fun l => (n0 <= l)%nat))|done|done].
      intros r _. apply triple_new_chunk_dict. }
    intros cs. step_any; [apply triple_alloc_any|].
    intros l. step_any; [apply triple_set_store_cache|].
    intros _. apply triple_ret_any; apply _. }
  destruct (all_chunks_cache s) as [cached|]; [|exact Hrefresh].
  destruct (_ =? _)%Z; [|exact Hrefresh].
  apply triple_ret_any; apply _.
Qed.

Lemma readonly_chunk_text (c : loc) :
  readonly (let! v := getitem c "chunk" in as_str v).
Proof.
  apply readonly_bind; [apply readonly_getitem|]. apply readonly_as_str.
Qed.

Lemma triple_bm25_collect (scores_np : list Q) (cs : list loc)
    (top_indices : list nat) :
  triple quiet n0 (fun _ => True) (bm25_collect scores_np cs top_indices)
    (fun _ _ => True).
Proof.
  induction top_indices as [|idx rest IH]; simpl.
  { apply triple_ret_any; apply _. }
  step_any; [apply triple_read; [apply _|apply readonly_index]|].
  intros v. destruct (Qle_bool v 0); [exact IH|].
  step_any; [apply triple_read; [apply _|apply readonly_index]|].
  intros c. step_any; [apply triple_read; [apply _|apply readonly_getitem]|].
  intros text.
  step_any; [apply triple_read; [apply _|apply readonly_getitem]|].
  intros meta. step_any; [apply triple_alloc_any|].
  intros h. step_any; [exact IH|].
  intros results. apply triple_ret_any; apply _.
Qed.

Lemma triple_weaken_any {A : Type} (m : P A) (Post : A -> PState -> Prop)
    (Pre : PState -> Prop) :
  triple quiet n0 (fun _ => True) m Post -> triple frame n0 Pre m Post.
Proof. intros H. by apply triple_any, triple_weaken. Qed.

(** A quiet step under a frame keeps what is known of the rows and of the
    cache. *)
Lemma triple_keep {A : Type} (I : list Doc -> Z * option BM25Okapi * loc -> Prop)
    (m : P A) (Post : A -> PState -> Prop) :
  triple quiet n0 (fun _ => True) m Post ->
  triple frame n0 (fun s => I (rows s) (pcache s)) m
    (fun _ s' => I (rows s') (pcache s')).
Proof.
  intros H. apply triple_weaken. intros s Hn Hi.
  destruct (triple_quiet_inv n0 _ _ _ I H s Hn (conj Logic.I Hi)) as [Hq Hp].
  split; [done|]. intros a Ha. by destruct (Hp a Ha).
Qed.

Lemma triple_index {A : Type} F {HF : Framing F} (Pre : PState -> Prop)
    (xs : list A) (i : nat) :
  triple F n0 Pre (index xs i) (fun x s' => Pre s' /\ xs !! i = Some x).
Proof.
  eapply triple_conseq;
    [apply (triple_readonly n0 F Pre), readonly_index|done|].
  intros x s [Hp Hx]. split; [done|]. unfold index in Hx.
  destruct (xs !! i); simpl in Hx; [by injection Hx as ->|done].
Qed.

Lemma triple_bind_pget {A : Type} F (Pre : PState -> Prop) (k : PState -> P A)
    (Post : A -> PState -> Prop) :
  (forall s0, triple F n0 (fun s => s = s0 /\ Pre s) (k s0) Post) ->
  triple F n0 Pre (let! s := pget in k s) Post.
Proof. intros H s Hn Hp. unfold pbind, pget. simpl. by apply (H s s Hn). Qed.

Lemma triple_get_bm25_index :
  triple frame n0 (fun _ => True) _get_bm25_index (fun _ _ => True).
Proof.
  unfold _get_bm25_index. apply triple_bind_pget. intros s0.
  destruct (length (rows s0) =? 0)%nat eqn:En.
  { apply triple_weaken_any.
    step_any; [apply triple_alloc_any|]. intros l.
    apply triple_ret_any; apply _. }
  destruct (Z.of_nat (length (rows s0)) =? bm25_cache_size s0)%Z eqn:Es; simpl.
  { apply triple_ret_any; apply _. }
  apply Nat.eqb_neq in En. apply Z.eqb_neq in Es.
  set (I := fun (r : list Doc) (c : Z * option BM25Okapi * loc) =>
              r = rows s0 /\ c.1.1 = bm25_cache_size s0).
  assert (Hrows : rows s0 <> []).
  { intros Hr. rewrite Hr in En. done. }
  match goal with
  | |- triple _ _ _ ?m _ =>
      assert (Ht : triple frame n0 (fun s => I (rows s) (pcache s)) m
                     (fun _ _ => True))
  end.
  { step (fun (_ : loc) s' => I (rows s') (pcache s')).
    { apply (triple_keep I _ (fun _ _ => True)), triple_get_all_chunks. }
    intros all_chunks.
    step (fun (_ : list loc) s' => I (rows s') (pcache s')).
    { apply (triple_keep I _ (fun _ _ => True)), triple_read;
        [apply _|apply readonly_load_list]. }
    intros [|c cs].
    { apply triple_weaken_any. step_any; [apply triple_alloc_any|].
      intros l. apply triple_ret_any; apply _. }
    step (fun (_ : list string) s' => I (rows s') (pcache s')).
    { apply (triple_keep I _ (fun _ _ => True)), triple_read; [apply _|].
      apply readonly_map_each. intros x. apply readonly_chunk_text. }
    intros texts. step_any.
    { intros s Hs [Hr Hc]. split; [|done]. split; [by split_and!|].
      right. simpl in *. rewrite Hr. split_and!; [done|by rewrite Hc|done]. }
    intros _. step_any; [apply triple_pget_any; apply _|].
    intros s. apply triple_ret_any; apply _. }
  intros s Hn [-> _]. by apply Ht.
Qed.

Lemma triple_bm25_search (query : string) (top_k : nat) :
  triple frame n0 (fun _ => True) (_bm25_search query top_k) (fun _ _ => True).
Proof.
  unfold _bm25_search. step_any; [apply triple_get_bm25_index|].
  intros [[bm25|] all_chunks]; apply triple_weaken_any;
    [|apply triple_alloc_any].
  destruct (_ =? 0)%nat; [apply triple_alloc_any|].
  step_any; [apply triple_read; [apply _|apply readonly_lift_result]|].
  intros top_indices.
  step_any; [apply triple_read; [apply _|apply readonly_load_list]|].
  intros cs. step_any; [apply triple_bm25_collect|].
  intros results. apply triple_alloc_any.
Qed.

Lemma readonly_rrf_step (w : Q) (overwrite : bool) (k : nat) (a : acc)
    (item : nat * loc) :
  readonly (rrf_step w overwrite k a item).
Proof.
  destruct item as [rank r]. unfold rrf_step.
  apply readonly_bind; [apply readonly_getitem|]. intros v.
  apply readonly_bind; [apply readonly_as_str|]. done.
Qed.

(** A fused entry is a new dict: the copy is made before the score is
    written, and the score is written to the copy. *)
Lemma triple_rrf_entry (a : acc) (text : string) :
  triple quiet n0 (fun _ => True) (rrf_entry a text)
    (fun l _ => (n0 <= l)%nat).
Proof.
  unfold rrf_entry. destruct (chunk_map a !! text) as [r|];
    [|apply triple_raise; apply _].
  step_any; [apply triple_read; [apply _|apply readonly_load_dict]|].
  intros d. step (fun (l : loc) (_ : PState) => (n0 <= l)%nat).
  { apply triple_alloc_fresh. }
  intros entry. apply (triple_assume quiet n0 _ _ _ _ (fun s H => H)).
  intros Hentry. step_any; [by apply triple_setitem|].
  intros _. eapply triple_conseq;
    [apply (triple_ret quiet n0 (fun _ => True))|done|].
  by intros l s [-> _].
Qed.

Lemma triple_rrf (semantic_results bm25_results : loc) (k : nat) :
  triple quiet n0 (fun _ => True)
    (_reciprocal_rank_fusion semantic_results bm25_results k) (fresh_list n0).
Proof.
  unfold _reciprocal_rank_fusion.
  step_any; [apply triple_read; [apply _|apply readonly_load_list]|].
  intros sem.
  step_any; [apply triple_read; [apply _|apply readonly_load_list]|].
  intros bm. step_any.
  { apply triple_read; [apply _|]. apply readonly_fold_each.
    intros a x. apply readonly_rrf_step. }
  intros a1. step_any.
  { apply triple_read; [apply _|]. apply readonly_fold_each.
    intros a x. apply readonly_rrf_step. }
  intros a2.
  step (fun (fused : list loc) (_ : PState) =>
          Forall (fun x => (n0 <= x)%nat) fused).
  { apply triple_map_each; [apply _|]. intros t _. apply triple_rrf_entry. }
  intros fused. apply (triple_assume quiet n0 _ _ _ _ (fun s H => H)).
  intros Hfused. by apply triple_alloc_list.
Qed.

(** The re-ranker writes to the dicts of the list it is given and sorts
    that list; handed a list made during the query, of dicts made during
    the query, it leaves every older object alone. *)
Lemma triple_rerank (query : string) (candidates : loc) (top_k : nat) :
  triple quiet n0 (fresh_list n0 candidates) (_rerank query candidates top_k)
    (fun _ _ => True).
Proof.
  unfold _rerank.
  step (fun (cs : list loc) s' =>
          fresh_list n0 candidates s' /\
          heap s' !! candidates = Some (OList cs)).
  { apply triple_load_list. apply _. }
  intros cs.
  apply (triple_assume quiet n0 _
           ((n0 <= candidates)%nat /\ Forall (fun x => (n0 <= x)%nat) cs)).
  { intros s [(Hc & xs & Hl & Hxs) Hl']. rewrite Hl in Hl'.
    injection Hl' as <-. done. }
  intros [Hc Hcs]. apply triple_any.
  destruct cs as [|c0 cs0]; [apply triple_alloc_any|].
  set (cs := c0 :: cs0) in *.
  step_any; [apply triple_set_cross_encoder|]. intros _.
  step_any.
  { apply triple_read; [apply _|]. apply readonly_map_each.
    intros x. apply readonly_chunk_text. }
  intros texts. step_any.
  { apply triple_for_each; [apply _|]. intros [i sc] _. unfold attach_score.
    step (fun (c : loc) (_ : PState) => cs !! i = Some c).
    { eapply triple_conseq;
        [apply (triple_index quiet (fun _ => True))|done|].
      by intros x s [_ Hx]. }
    intros c. apply (triple_assume quiet n0 _ _ _ _ (fun s H => H)).
    intros Hi. apply triple_setitem.
    rewrite Forall_forall in Hcs. apply Hcs.
    by eapply list_elem_of_lookup_2. }
  intros _. step_any.
  { apply triple_read; [apply _|]. apply readonly_map_each. intros x.
    apply readonly_bind; [apply readonly_getitem|]. intros v.
    apply readonly_bind; [apply readonly_as_num|]. done. }
  intros keyed. step_any; [by apply triple_set_list|].
  intros _. apply triple_alloc_any.
Qed.

Lemma triple_hybrid_retrieve (query : string) :
  triple frame n0 (fun _ => True) (hybrid_retrieve query) (fun _ _ => True).
Proof.
  unfold hybrid_retrieve. step_any; [apply triple_pget_any; apply _|].
  intros s. destruct (_ =? 0)%nat.
  { apply triple_weaken_any, triple_alloc_any. }
  step (fresh_list n0). { apply triple_weaken, triple_search. }
  intros semantic_hits.
  step (fun (hs : list loc) s' =>
          fresh_list n0 semantic_hits s' /\
          heap s' !! semantic_hits = Some (OList hs)).
  { apply triple_load_list. apply _. }
  intros hs.
  apply (triple_assume frame n0 _ (Forall (fun x => (n0 <= x)%nat) hs)).
  { intros s1 [(Hc & xs & Hl & Hxs) Hl']. rewrite Hl in Hl'.
    by injection Hl' as <-. }
  intros Hhs. apply triple_any. step_any.
  { apply triple_weaken, triple_for_each; [apply _|]. intros h Hh.
    apply triple_setitem. rewrite Forall_forall in Hhs. by apply Hhs. }
  intros _. step_any; [apply triple_bm25_search|].
  intros bm25_hits. step (fresh_list n0).
  { apply triple_weaken, triple_rrf. }
  intros fused.
  step (fun (fs : list loc) s' =>
          fresh_list n0 fused s' /\ heap s' !! fused = Some (OList fs)).
  { apply triple_load_list. apply _. }
  intros fs.
  apply (triple_assume frame n0 _ (Forall (fun x => (n0 <= x)%nat) fs)).
  { intros s1 [(Hc & xs & Hl & Hxs) Hl']. rewrite Hl in Hl'.
    by injection Hl' as <-. }
  intros Hfs. apply triple_any. step (fresh_list n0).
  { apply triple_weaken, triple_alloc_list. by apply Forall_take. }
  intros slice. apply triple_weaken, triple_rerank.
Qed.

End Functions.

(** What [keeps] says of the heap, as one equation: the heap the query
    started from is an initial segment of the heap it ends with. *)
Lemma keeps_prefix (s s' : PState) :
  keeps (length (heap s)) s s' -> heap s `prefix_of` heap s'.
Proof.
  intros (Hlen & Hold & _). exists (drop (length (heap s)) (heap s')).
  rewrite <- (take_drop (length (heap s)) (heap s')) at 1. f_equal.
  apply list_eq. intros i.
  destruct (decide (i < length (heap s))%nat) as [Hi|Hi].
  - rewrite lookup_take_lt by done. by apply Hold.
  - rewrite lookup_take_ge by lia. symmetry. apply lookup_ge_None. lia.
Qed.

(** C10. A call to [hybrid_retrieve], whatever the collaborators return and
    whether it returns or raises, changes no object that existed when it
    started: the heap at its end extends the heap at its start, so the list
    the BM25 cache points to, the chunk dicts in that list and their metadata
    dicts are as they were (fusion writes its score to a copy, the re-ranker
    writes to those copies and sorts a list made during the call).  The rows
    of the store are untouched, and the three cache variables keep their
    values unless the store is not empty and its size differs from the
    cached size, the case in which the index is rebuilt and the cache is
    pointed at another list. *)
Theorem hybrid_retrieve_frame `{E : Collaborators} (query : string)
    (s : PState) :
  let s' := (Heap.hybrid_retrieve query s).2 in
  heap s `prefix_of` heap s' /\
  rows s' = rows s /\
  ((bm25_cache_size s', bm25_index s', bm25_chunks s')
     = (bm25_cache_size s, bm25_index s, bm25_chunks s) \/
   (rows s <> [] /\ Z.of_nat (length (rows s)) <> bm25_cache_size s /\
    bm25_cache_size s' = Z.of_nat (length (rows s)))).
Proof.
  intros s'.
  destruct (triple_hybrid_retrieve (length (heap s)) query s) as [[Hk Hc] _];
    [done|done|].
  fold s' in Hk, Hc. split; [by apply keeps_prefix|].
  split; [by destruct Hk as (_ & _ & ?)|exact Hc].
Qed.

(** On the sample store the heap model returns what the value model
    returns; the first call rebuilds the cache, and the second call leaves
    the cache variables and every object of the heap as they were. *)
Lemma hybrid_retrieve_frame_witness :
  let q := "termination payment" in
  let r1 := @Heap.hybrid_retrieve Toy.toy q (Heap.boot sample_rows) in
  let r2 := @Heap.hybrid_retrieve Toy.toy q r1.2 in
  (exists l1 l2 hits v1,
     r1.1 = Done l1 /\ r2.1 = Done l2 /\
     @Retriever.hybrid_retrieve Toy.toy q (Retriever.boot (open sample_rows))
       = Ok (hits, v1) /\
     read_hits (heap r1.2) l1 = Some hits /\
     read_hits (heap r2.2) l2 = Some hits /\
     length hits = 3%nat) /\
  bm25_cache_size r1.2 = 3 /\
  heap r1.2 `prefix_of` heap r2.2 /\
  rows r2.2 = rows r1.2 /\
  (bm25_cache_size r2.2, bm25_index r2.2, bm25_chunks r2.2)
    = (bm25_cache_size r1.2, bm25_index r1.2, bm25_chunks r1.2).
Proof.
  intros q r1 r2.
  split.
  { eexists _, _, _, _.
    split; [vm_compute; reflexivity|].
    split; [vm_compute; reflexivity|].
    split; [vm_compute; reflexivity|].
    split; [vm_compute; reflexivity|].
    split; vm_compute; reflexivity. }
  split; [vm_compute; reflexivity|].
  destruct (@hybrid_retrieve_frame Toy.toy q r1.2) as (Hpre & Hrows & Hcache).
  split; [exact Hpre|]. split; [exact Hrows|].
  destruct Hcache as [Hc|Hstale]; [exact Hc|].
  exfalso. apply (proj1 (proj2 Hstale)). vm_compute. reflexivity.
Defined.

End SharedObjects.

(** * The rest of the vector store *)

Section StoreLemmas.

Import StoreOps.

(** ** Batches *)

Lemma slices_concat {A : Type} (l : list A) (step k : nat) :
  concat (map (fun i => slice l (i * step) step) (seq 0 k))
  = take (k * step) l.
Proof.
  induction k as [|k IH]; [done|].
  rewrite seq_S, map_app, concat_app, IH. cbn [map concat Nat.add].
  rewrite app_nil_r. unfold slice.
  replace (S k * step)%nat with (k * step + step)%nat by lia.
  rewrite <- (take_drop (k * step) (take (k * step + step) l)).
  rewrite take_take, Nat.min_l by lia. f_equal.
  by rewrite take_drop_commute.
Qed.

Lemma div_up_covers (n step : nat) :
  (0 < step)%nat -> (n <= (n + step - 1) / step * step)%nat.
Proof.
  intros Hs.
  pose proof (Nat.div_mod (n + step - 1) step ltac:(lia)) as Hd.
  pose proof (Nat.mod_upper_bound (n + step - 1) step ltac:(lia)) as Hm.
  nia.
Qed.

Lemma foldl_collection_add (texts : list string) (metadatas : list Metadata)
    (ix : list nat) (rows : list Doc) :
  foldl (fun rows i =>
           collection_add (slice texts i batch_size)
             (slice metadatas i batch_size) rows) rows ix
  = (rows ++ concat (map (fun i =>
                map (fun tm : string * Metadata =>
                       {| doc_text := tm.1; doc_meta := tm.2 |})
                    (combine (slice texts i batch_size)
                       (slice metadatas i batch_size))) ix))%list.
Proof.
  revert rows. induction ix as [|i ix IH]; intros rows; simpl.
  - by rewrite app_nil_r.
  - rewrite IH. unfold collection_add. by rewrite <- app_assoc.
Qed.

Lemma slice_rows (chunks : list Doc) (i n : nat) :
  map (fun tm : string * Metadata => {| doc_text := tm.1; doc_meta := tm.2 |})
      (combine (slice (texts_of chunks) i n) (slice (metadatas_of chunks) i n))
  = slice chunks i n.
Proof.
  unfold slice, texts_of, metadatas_of.
  rewrite !skipn_map, !firstn_map.
  induction (take n (drop i chunks)) as [|[t m] l IH]; simpl; [done|].
  by rewrite IH.
Qed.

(** X1.  The batches of [add_chunks] are not visible from outside: the rows end
    up appended in the order given, whatever their number, the returned
    total is the old count plus the number of chunks, and the cache is
    dropped.  This is [Store.add_chunks], the form the retrieval proofs
    use. *)
Theorem add_chunks_batches_append (chunks : list Doc) (vs : VectorStore) :
  StoreOps.add_chunks chunks vs = Store.add_chunks chunks vs /\
  (StoreOps.add_chunks chunks vs).1 = (count vs + length chunks)%nat /\
  collection (StoreOps.add_chunks chunks vs).2
    = (collection vs ++ chunks)%list.
Proof.
  assert (Heq : StoreOps.add_chunks chunks vs = Store.add_chunks chunks vs).
  { destruct chunks as [|c cs]; [done|].
    unfold StoreOps.add_chunks, Store.add_chunks.
    set (chunks := c :: cs).
    rewrite foldl_collection_add. unfold range_step.
    rewrite map_map.
    rewrite (map_ext _ (fun i => slice chunks (i * batch_size) batch_size))
      by (intros i; apply slice_rows).
    rewrite slices_concat, take_ge; [done|].
    unfold texts_of. rewrite length_map.
    apply div_up_covers. unfold batch_size. lia. }
  rewrite Heq. destruct chunks as [|c cs]; simpl.
  - split; [done|]. split; [lia|by rewrite app_nil_r].
  - split; [done|]. split; [|done]. unfold count. simpl.
    by rewrite length_app.
Qed.

(** ** Deleting a document *)

Lemma filter_of_document_nil (name : string) (rows : list Doc) :
  filter (fun d => of_document name d) rows = [] ->
  filter (fun d => negb (of_document name d)) rows = rows.
Proof.
  induction rows as [|d rows IH]; [done|].
  rewrite !filter_cons. destruct (of_document name d) eqn:E; simpl.
  - done.
  - intros H. by rewrite IH.
Qed.

Lemma filter_none {A : Type} (f : A -> bool) (l : list A) :
  (forall x, x ∈ l -> f x = false) -> filter (fun x => f x) l = [].
Proof.
  induction l as [|x l IH]; intros H; [done|].
  rewrite filter_cons, (H x) by left. simpl. apply IH.
  intros y Hy. apply H. by right.
Qed.

Lemma filter_split_length {A : Type} (f : A -> bool) (l : list A) :
  (length (filter (fun x => f x) l)
   + length (filter (fun x => negb (f x)) l) = length l)%nat.
Proof.
  induction l as [|x l IH]; [done|].
  rewrite !filter_cons. destruct (f x); simpl; lia.
Qed.

(** X2.  [delete_chunks_by_document] returns the number of rows of the document,
    which is by how much the store shrinks; afterwards no row of that
    document is left, [get_chunks_by_document] finds nothing, and the rows
    of the other documents are all there, in their order.  When the store
    has no row of the document the store is left as it is, cache
    included. *)
Theorem delete_chunks_by_document_spec (name : string) (vs : VectorStore) :
  let n := (delete_chunks_by_document name vs).1 in
  let vs' := (delete_chunks_by_document name vs).2 in
  n = length (filter (fun d => of_document name d) (collection vs)) /\
  (size vs' + n = size vs)%nat /\
  collection vs'
    = filter (fun d => negb (of_document name d)) (collection vs) /\
  (forall d, d ∈ collection vs' <->
             d ∈ collection vs /\ document (doc_meta d) <> name) /\
  get_chunks_by_document name vs' = [] /\
  (delete_chunks_by_document name vs').1 = 0%nat /\
  (n = 0%nat -> vs' = vs).
Proof.
  intros n vs'.
  assert (Hcases :
    n = length (filter (fun d => of_document name d) (collection vs)) /\
    collection vs'
      = filter (fun d => negb (of_document name d)) (collection vs) /\
    (n = 0%nat -> vs' = vs)).
  { subst n vs'. unfold delete_chunks_by_document, count, of_document.
    destruct (collection vs) as [|r rows] eqn:Er; [done|].
    cbn [length Nat.eqb].
    destruct (filter _ (r :: rows)) as [|x xs] eqn:Ef.
    - split; [done|]. split; [|done]. simpl. rewrite Er.
      symmetry. by apply (filter_of_document_nil name (r :: rows)).
    - split; [done|]. split; [done|]. discriminate. }
  destruct Hcases as (Hn & Hc & Hz).
  assert (Hin : forall d, d ∈ collection vs' <->
                          d ∈ collection vs /\ document (doc_meta d) <> name).
  { intros d. rewrite Hc, list_elem_of_filter. unfold of_document.
    rewrite negb_True, bool_decide_spec. tauto. }
  assert (Hnone : filter (fun d => of_document name d) (collection vs') = []).
  { apply filter_none. intros d Hd.
    apply Hin in Hd as [_ Hd]. apply bool_decide_eq_false. exact Hd. }
  split; [exact Hn|]. split.
  { unfold size, count. rewrite Hc, Hn.
    pose proof (filter_split_length (of_document name) (collection vs)). lia. }
  split; [exact Hc|]. split; [exact Hin|]. split.
  { unfold get_chunks_by_document. destruct (count vs' =? 0)%nat; [done|].
    by rewrite Hnone. }
  split; [|exact Hz].
  unfold delete_chunks_by_document. destruct (count vs' =? 0)%nat; [done|].
  fold (of_document name). unfold of_document in Hnone |- *.
  by rewrite Hnone.
Qed.

(** ** The cache of [get_all_chunks] *)

Lemma reachable_cache_exact (vs : VectorStore) :
  reachable vs -> cache_exact vs.
Proof.
  induction 1 as [rows|chunks vs _ IH|vs _ IH|name vs _ IH|vs _ IH].
  - intros cached Hc. discriminate Hc.
  - destruct chunks as [|c cs]; [exact IH|]. intros cached Hc.
    discriminate Hc.
  - unfold get_all_chunks. destruct (count vs =? 0)%nat; [exact IH|].
    destruct (_all_chunks_cache vs) as [cached|] eqn:Ec.
    + destruct (_all_chunks_cache_size vs =? Z.of_nat (count vs))%Z;
        [exact IH|].
      intros c Hc. simpl in Hc. injection Hc as <-. done.
    + intros c Hc. simpl in Hc. injection Hc as <-. done.
  - unfold delete_chunks_by_document.
    destruct (count vs =? 0)%nat; [exact IH|].
    destruct (filter _ (collection vs)); [exact IH|].
    intros cached Hc. discriminate Hc.
  - intros cached Hc. discriminate Hc.
Qed.

(** X3.  In every store a process can reach by opening the collection, adding,
    deleting, clearing and listing, the cache of [get_all_chunks] is never
    out of date: [get_all_chunks] returns the rows of the collection, all
    of them and in their order, and leaves the rows as they are. *)
Theorem get_all_chunks_never_stale (vs : VectorStore) :
  reachable vs ->
  cache_coherent vs /\
  (get_all_chunks vs).1 = map stored_chunk (collection vs) /\
  collection (get_all_chunks vs).2 = collection vs /\
  (get_all_chunks (get_all_chunks vs).2).1 = (get_all_chunks vs).1.
Proof.
  intros Hr. pose proof (reachable_cache_exact vs Hr) as Hx.
  pose proof (reachable_cache_exact _ (reach_get_all_chunks vs Hr)) as Hx'.
  assert (Hget : forall v, cache_exact v ->
            (get_all_chunks v).1 = map stored_chunk (collection v) /\
            collection (get_all_chunks v).2 = collection v).
  { intros v Hv. unfold get_all_chunks, count.
    destruct (collection v) as [|r rows] eqn:Er; [simpl; by rewrite ?Er|].
    cbn [length Nat.eqb].
    destruct (_all_chunks_cache v) as [cached|] eqn:Ec;
      [|simpl; by rewrite ?Er].
    destruct (_all_chunks_cache_size v =? _)%Z; [|simpl; by rewrite ?Er].
    destruct (Hv cached Ec) as [-> _]. simpl. by rewrite ?Er. }
  split.
  { intros cached Hc _. by destruct (Hx cached Hc). }
  destruct (Hget vs Hx) as [H1 H2]. destruct (Hget _ Hx') as [H3 _].
  split; [exact H1|]. split; [exact H2|]. by rewrite H3, H2, H1.
Qed.

Lemma get_all_chunks_never_stale_witness :
  let vs := (delete_chunks_by_document "beta.pdf"
               (Store.add_chunks sample_rows
                  (get_all_chunks (open sample_rows)).2).2).2 in
  reachable vs /\
  (get_all_chunks vs).1 = map stored_chunk (sample_rows ++ sample_rows).
Proof.
  intros vs.
  assert (Hr : reachable vs).
  { apply reach_delete, reach_add_chunks, reach_get_all_chunks, reach_open. }
  split; [exact Hr|].
  destruct (get_all_chunks_never_stale vs Hr) as (_ & Hall & _).
  rewrite Hall. vm_compute. reflexivity.
Defined.

(** ** The documents of the store *)

Lemma str_le_total : Total str_le.
Proof. intros a b. apply String.leb_total. Qed.

Lemma str_le_lt (a b : string) : str_le a b -> a <> b -> str_lt a b.
Proof.
  unfold str_le, str_lt, String.leb, String.ltb. intros Hle Hne.
  destruct (String.compare a b) eqn:E; [|done|done].
  by apply String.compare_eq_iff in E.
Qed.

Lemma Sorted_strict {A : Type} (R R' : A -> A -> Prop) (l : list A) :
  (forall a b, R a b -> a <> b -> R' a b) ->
  Sorted R l -> NoDup l -> Sorted R' l.
Proof.
  intros HR. induction 1 as [|a l Hs IH Hhd]; intros Hnd; [constructor|].
  apply NoDup_cons in Hnd as [Ha Hnd]. constructor; [by apply IH|].
  destruct Hhd as [|b l Hab]; constructor. apply HR; [done|].
  intros ->. apply Ha. by left.
Qed.

(** X4.  [get_documents] lists the document names of the rows, each once, in
    strictly ascending order; on an empty store it lists nothing. *)
Theorem get_documents_sorted_names (vs : VectorStore) :
  Sorted str_lt (get_documents vs) /\
  NoDup (get_documents vs) /\
  (forall name,
     name ∈ get_documents vs <->
     exists d, d ∈ collection vs /\ document (doc_meta d) = name) /\
  (size vs = 0%nat -> get_documents vs = []).
Proof.
  unfold get_documents, size, count.
  destruct (collection vs) as [|r rows] eqn:Er.
  { simpl. split; [constructor|]. split; [constructor|]. split; [|done].
    intros name. split; [by intros ?%elem_of_nil|].
    by intros (d & ?%elem_of_nil & _). }
  cbn [length Nat.eqb].
  set (names := list_to_set _ : gset string).
  assert (Hperm : merge_sort str_le (elements names) ≡ₚ elements names)
    by apply merge_sort_Permutation.
  assert (Hnd : NoDup (merge_sort str_le (elements names))).
  { rewrite Hperm. apply NoDup_elements. }
  split.
  { apply (Sorted_strict str_le); [apply str_le_lt| |exact Hnd].
    refine (@Sorted_merge_sort _ str_le _ str_le_total _). }
  split; [exact Hnd|]. split; [|discriminate].
  intros name. rewrite Hperm, elem_of_elements. unfold names.
  rewrite elem_of_list_to_set, elem_of_map. split.
  - intros (d & -> & Hd). by exists d.
  - intros (d & Hd & <-). by exists d.
Qed.

(** ** Dense search *)

Lemma search_rows `{E : Collaborators} {HC : ChromaContract E}
    (query : string) (top_k : option nat) (vs : VectorStore) (h : Hit) :
  h ∈ search query top_k vs ->
  exists d dist,
    d ∈ collection vs /\
    h = {| chunk := doc_text d; metadata := doc_meta d;
           score := Some dist; source := None; rrf_score := None;
           rerank_score := None |}.
Proof.
  unfold search. destruct (count vs =? 0)%nat; [by intros ?%elem_of_nil|].
  intros Hh. apply elem_of_map in Hh as ([d dist] & -> & Hd).
  exists d, dist. split; [|done]. by eapply chroma_query_rows.
Qed.

Lemma search_length `{E : Collaborators} {HC : ChromaContract E}
    (query : string) (top_k : option nat) (vs : VectorStore) :
  length (search query top_k vs) = Nat.min (requested top_k) (count vs).
Proof.
  unfold search, requested, count.
  destruct (collection vs) as [|r rows] eqn:Er.
  { simpl. by rewrite Nat.min_0_r. }
  cbn [length Nat.eqb].
  rewrite length_map, chroma_query_length; [done|].
  destruct top_k as [[|n]|]; unfold RETRIEVAL_TOP_K; cbn [length]; lia.
Qed.

(** X5.  [search] never asks ChromaDB for no result or for more results than
    there are rows, and returns as many hits as it asked for:
    [min(top_k, count)], where a [top_k] of 0 counts as no [top_k] at all and
    stands for [RETRIEVAL_TOP_K] = 15.  Every hit is a row of the store with
    its distance as ["score"], and no other key.  On an empty store there is
    no hit. *)
Theorem search_returns_stored_rows `{E : Collaborators} {HC : ChromaContract E}
    (query : string) (top_k : option nat) (vs : VectorStore) :
  length (search query top_k vs) = Nat.min (requested top_k) (count vs) /\
  requested (Some 0%nat) = 15%nat /\ requested None = 15%nat /\
  (forall h, h ∈ search query top_k vs ->
     exists d dist,
       d ∈ collection vs /\
       h = {| chunk := doc_text d; metadata := doc_meta d;
              score := Some dist; source := None; rrf_score := None;
              rerank_score := None |}).
Proof.
  split; [apply search_length|].
  split; [done|split; [done|intros h; apply search_rows]].
Qed.

Lemma toy_chroma : ChromaContract Toy.toy.
Proof.
  split.
  - intros rows q k Hk. simpl. unfold Toy.nearest.
    rewrite length_take, length_map. lia.
  - intros rows q k d dist Hd. simpl in Hd. unfold Toy.nearest in Hd.
    apply elem_of_take in Hd as (i & Hd & _).
    apply list_elem_of_lookup_2 in Hd.
    apply elem_of_map in Hd as (d' & Heq & Hd'). by injection Heq as -> _.
Qed.

Lemma search_returns_stored_rows_witness :
  length (search (H := Toy.toy) "termination" (Some 0%nat) (open many_rows))
    = 15%nat /\
  length (search (H := Toy.toy) "termination" (Some 2%nat) (open sample_rows))
    = 2%nat.
Proof.
  split.
  - rewrite (proj1 (search_returns_stored_rows (E := Toy.toy)
                      (HC := toy_chroma) _ _ _)).
    vm_compute. reflexivity.
  - rewrite (proj1 (search_returns_stored_rows (E := Toy.toy)
                      (HC := toy_chroma) _ _ _)).
    vm_compute. reflexivity.
Defined.

End StoreLemmas.

(** * More on the retriever *)

Section RetrieverMore.

Import StoreOps.

Lemma retained_in (t : string) (sem bm : list Hit) (r : Hit) :
  retained t sem bm = Some r -> r ∈ sem \/ r ∈ bm.
Proof.
  unfold retained. destruct (last_with t sem) as [r'|] eqn:E.
  - intros [= <-]. left. by apply last_with_chunk in E as [_ ?].
  - intros H. right. by apply first_with_chunk in H as [_ ?].
Qed.

Lemma NoDup_map_take {A B : Type} (f : A -> B) (n : nat) (l : list A) :
  NoDup (map f l) -> NoDup (map f (take n l)).
Proof.
  intros H. rewrite <- firstn_map.
  exact (sublist_NoDup _ _ H (sublist_take _ _)).
Qed.

Lemma scored_candidates_chunks `{E : Collaborators} {HC : Contracts E}
    (query : string) (candidates : list Hit) :
  map chunk (scored_candidates query candidates) = map chunk candidates.
Proof.
  destruct (scored_candidates_spec query candidates) as [HF _].
  induction HF as [|c h cs hs (v & ->) _ IH]; [done|].
  simpl. by rewrite IH.
Qed.

Section Provenance.

Context `{E : Collaborators} {HC : Contracts E} {HQ : ChromaContract E}.

Lemma semantic_hit_of_row (query : string) (k : option nat) (vs : VectorStore)
    (r : Hit) :
  r ∈ map (set_source "semantic") (search query k vs) ->
  exists d, d ∈ collection vs /\ chunk r = doc_text d /\
            metadata r = doc_meta d /\ source r = Some "semantic" /\
            is_Some (score r).
Proof.
  intros Hr. apply elem_of_map in Hr as (h & -> & Hh).
  apply search_rows in Hh as (d & dist & Hd & ->).
  exists d. simpl. by eauto.
Qed.

Lemma bm25_hit_of_row (vs : VectorStore) (bm25 : BM25Okapi) (query : string)
    (top_k : nat) (hits : list Hit) (r : Hit) :
  let all_chunks := map stored_chunk (collection vs) in
  length (corpus bm25) = length all_chunks ->
  bm25_hits (Some bm25) all_chunks query top_k = Ok hits -> r ∈ hits ->
  exists d, d ∈ collection vs /\ chunk r = doc_text d /\
            metadata r = doc_meta d /\ source r = Some "bm25" /\
            is_Some (score r).
Proof.
  intros all_chunks Hlen Hhits Hr.
  destruct (bm25_hits_spec bm25 all_chunks query top_k Hlen)
    as (hits' & idxs & Hrun & _ & _ & HF & _).
  rewrite Hhits in Hrun. injection Hrun as <-.
  apply list_elem_of_lookup_1 in Hr as [j Hj].
  destruct (Forall2_lookup_r _ _ _ _ _ HF Hj) as (i & _ & Hat).
  unfold bm25_hit_at in Hat.
  destruct (all_chunks !! i) as [c|] eqn:Ec; [|done].
  injection Hat as <-. unfold all_chunks in Ec.
  apply list_lookup_fmap_Some in Ec as (d & -> & Hd).
  exists d. simpl. split; [by eapply list_elem_of_lookup_2|by eauto].
Qed.


(** X6.  What [hybrid_retrieve] returns are rows of the store: on a store whose
    caches are current it returns at most 5 hits, no two with the same
    text, and each has the text and the metadata of a row of the store, the
    tag of the search that found it and the three scores.  Nothing is
    returned that is not stored. *)
Theorem hybrid_retrieve_returns_stored_rows (query : string) (s : State) :
  cache_coherent (vector_store s) -> cache_current s ->
  exists out s',
    hybrid_retrieve query s = Ok (out, s') /\
    (length out <= 5)%nat /\
    NoDup (map chunk out) /\
    Forall (hit_of_row (vector_store s)) out.
Proof.
  intros Hcoh Hcur.
  destruct (decide (size (vector_store s) = 0%nat)) as [Hz|Hnz].
  { exists [], s. rewrite hybrid_retrieve_empty by done.
    split; [done|]. split; [simpl; lia|]. split; constructor. }
  rewrite hybrid_retrieve_unfold by done. cbv zeta.
  set (vs := vector_store s).
  set (k := Nat.min RETRIEVAL_TOP_K (size vs)).
  set (s0 := with_calls _ s).
  destruct (get_bm25_index_current s0 Hnz Hcoh Hcur) as [s2 Hidx].
  rewrite Hidx. change (vector_store s0) with vs.
  set (all_chunks := map stored_chunk (collection vs)).
  assert (Hlen : length (corpus (build_index all_chunks)) = length all_chunks).
  { unfold build_index. simpl. by rewrite length_map. }
  rewrite hybrid_result_ok by (by intros bm25 [= <-]).
  eexists _, _. split; [reflexivity|].
  set (cands := hybrid_candidates vs _ all_chunks query).
  destruct (take_sorted_spec (scored_candidates query cands) RERANK_TOP_K)
    as (Hle & _ & Hsub & _).
  set (sem := map (set_source "semantic") (search query (Some k) vs)).
  destruct (bm25_hits_spec (build_index all_chunks) all_chunks query k Hlen)
    as (hits & idxs & Hhits & _).
  destruct (rrf_spec sem hits 60) as (fused & Hfuse & Hnd & _ & Hent & _).
  assert (Hcands : cands
            = take (Nat.min (RETRIEVAL_TOP_K * 2) (length fused)) fused).
  { unfold cands, hybrid_candidates. fold k. fold sem.
    by rewrite Hhits, Hfuse. }
  split; [exact Hle|]. split.
  { apply NoDup_map_take.
    assert (Hp : map chunk (sort_desc rerank_key (scored_candidates query cands))
                 ≡ₚ map chunk (scored_candidates query cands))
      by apply Permutation_map, sort_desc_perm.
    rewrite Hp, scored_candidates_chunks, Hcands. by apply NoDup_map_take. }
  apply Forall_forall. intros h Hh. apply Hsub in Hh.
  destruct (scored_candidates_spec query cands) as [HF _].
  apply list_elem_of_lookup_1 in Hh as [j Hj].
  destruct (Forall2_lookup_r _ _ _ _ _ HF Hj) as (c & Hc & v & ->).
  apply list_elem_of_lookup_2 in Hc. rewrite Hcands in Hc.
  apply elem_of_take in Hc as (i & Hc & _).
  apply list_elem_of_lookup_2 in Hc.
  destruct (Hent c Hc) as (r & v' & Hret & -> & _).
  assert (Hrow : exists d, d ∈ collection vs /\ chunk r = doc_text d /\
                   metadata r = doc_meta d /\
                   (source r = Some "semantic" \/ source r = Some "bm25") /\
                   is_Some (score r)).
  { apply retained_in in Hret as [Hr|Hr].
    - destruct (semantic_hit_of_row query (Some k) vs r Hr)
        as (d & ? & ? & ? & ? & ?).
      exists d. by eauto 10.
    - destruct (bm25_hit_of_row vs (build_index all_chunks) query k hits r
                  Hlen Hhits Hr) as (d & ? & ? & ? & ? & ?).
      exists d. by eauto 10. }
  destruct Hrow as (d & Hd & Ht & Hm & Hsrc & Hsc).
  exists d. simpl. by eauto 10.
Qed.

End Provenance.

Lemma hybrid_retrieve_returns_stored_rows_witness :
  exists out s',
    hybrid_retrieve (H := Toy.toy) "When is the payment due in days?"
      (boot (open sample_rows)) = Ok (out, s') /\
    NoDup (map chunk out) /\
    Forall (hit_of_row (open sample_rows)) out.
Proof.
  destruct (hybrid_retrieve_returns_stored_rows (E := Toy.toy)
              (HC := toy_contracts) (HQ := toy_chroma)
              "When is the payment due in days?" (boot (open sample_rows)))
    as (out & s' & Hrun & _ & Hnd & Hrows).
  - intros cached Hc. discriminate Hc.
  - left. discriminate.
  - exists out, s'. split; [exact Hrun|]. split; [exact Hnd|exact Hrows].
Defined.

(** ** The cross-encoder singleton *)

Ltac no_load :=
  repeat (rewrite ?elem_of_app, ?elem_of_cons, ?elem_of_nil);
  intuition discriminate.

Lemma get_bm25_index_keeps_encoder (s s' : State) r :
  _get_bm25_index s = Ok (r, s') ->
  _cross_encoder s' = _cross_encoder s /\
  exists extra, calls s' = (calls s ++ extra)%list /\
                (LoadCrossEncoder ∉ extra).
Proof.
  destruct (decide (size (vector_store s) = 0%nat)) as [Hz|Hnz].
  { rewrite get_bm25_index_empty by done. intros [= <- <-].
    split; [done|]. exists []. split; [by rewrite app_nil_r|no_load]. }
  destruct (decide (Z.of_nat (size (vector_store s)) = _bm25_cache_size s))
    as [Hf|Hst].
  { rewrite get_bm25_index_fresh by done. intros [= <- <-].
    split; [done|]. exists []. split; [by rewrite app_nil_r|no_load]. }
  rewrite get_bm25_index_stale by done.
  destruct (get_all_chunks (vector_store s)) as [[|c cs] vs'].
  - intros [= <- <-]. split; [done|]. eexists. split; [reflexivity|no_load].
  - intros [= <- <-]. split; [done|]. eexists. split; [reflexivity|no_load].
Qed.

Lemma hybrid_result_nonempty `{E : Collaborators} (vs : VectorStore)
    (bm25_opt : option BM25Okapi) (all_chunks : list Hit) (query : string)
    (out : list Hit) :
  hybrid_result vs bm25_opt all_chunks query = Ok out -> out <> [] ->
  hybrid_candidates vs bm25_opt all_chunks query <> [].
Proof.
  unfold hybrid_result, hybrid_candidates.
  destruct (bm25_hits _ _ _ _) as [bm|]; [|done].
  destruct (_reciprocal_rank_fusion _ _ _) as [fused|]; [|done].
  destruct (take _ fused); [|done]. simpl. by intros [= <-].
Qed.

(** X7.  The cross-encoder is a singleton: a call of [hybrid_retrieve] loads the
    model at most once, and only when it has not been loaded before; once
    loaded it stays loaded, and it is loaded after every call that returned
    a hit.  So the model is loaded once in the life of the process. *)
Theorem cross_encoder_loaded_once `{E : Collaborators} (query : string)
    (s s' : State) (out : list Hit) :
  hybrid_retrieve query s = Ok (out, s') ->
  exists new,
    calls s' = (calls s ++ new)%list /\
    ((LoadCrossEncoder ∉ new) /\ _cross_encoder s' = _cross_encoder s \/
     _cross_encoder s = false /\ loaded_once new /\
     _cross_encoder s' = true) /\
    (out <> [] -> _cross_encoder s' = true).
Proof.
  destruct (decide (size (vector_store s) = 0%nat)) as [Hz|Hnz].
  { rewrite hybrid_retrieve_empty by done. intros [= <- <-].
    exists []. split; [by rewrite app_nil_r|]. split; [|done].
    left. split; [no_load|done]. }
  rewrite hybrid_retrieve_unfold by done. cbv zeta.
  set (k := Nat.min RETRIEVAL_TOP_K (size (vector_store s))).
  set (s0 := with_calls _ s).
  destruct (_get_bm25_index s0) as [[[bm25_opt all_chunks] s2]|] eqn:Eidx;
    [|done].
  destruct (get_bm25_index_keeps_encoder _ _ _ Eidx)
    as (Henc & extra & Hcalls & Hextra).
  change (vector_store s0) with (vector_store s).
  destruct (hybrid_result _ _ _ _) as [out'|] eqn:Eres; [|done].
  intros [= <- <-].
  pose proof (hybrid_result_nonempty _ _ _ _ _ Eres) as Hne.
  set (cands := hybrid_candidates _ _ _ _) in *.
  change (_cross_encoder s0) with (_cross_encoder s) in Henc.
  change (calls s0)
    with (calls s ++ [CallSearch query k; CallBm25Search query k])%list
    in Hcalls.
  destruct cands as [|c cs] eqn:Ec.
  { eexists. split.
    { simpl. rewrite Hcalls, <- !app_assoc. reflexivity. }
    split; [|by intros ?%Hne].
    left. split; [|exact Henc]. revert Hextra. no_load. }
  simpl. rewrite Henc. destruct (_cross_encoder s) eqn:Eflag.
  - eexists. split; [rewrite Hcalls, <- !app_assoc; reflexivity|].
    split; [|done]. left. split; [|done]. revert Hextra. no_load.
  - eexists. split; [rewrite Hcalls, <- !app_assoc; reflexivity|].
    split; [|done]. right. split; [done|]. split; [|done].
    exists ([CallSearch query k; CallBm25Search query k] ++ extra
            ++ [CallFusion; CallRerank])%list,
           [CallPredict (length (c :: cs))].
    split; [by rewrite <- !app_assoc|]. split; [|no_load].
    revert Hextra. no_load.
Qed.

Lemma cross_encoder_loaded_once_witness :
  exists out s1 s2 new1 new2,
    hybrid_retrieve (H := Toy.toy) "payment" (boot (open sample_rows))
      = Ok (out, s1) /\
    hybrid_retrieve (H := Toy.toy) "payment" s1 = Ok (out, s2) /\
    calls s1 = new1 /\ loaded_once new1 /\
    calls s2 = (calls s1 ++ new2)%list /\ (LoadCrossEncoder ∉ new2).
Proof.
  assert (R1 : exists out s1,
             hybrid_retrieve (H := Toy.toy) "payment" (boot (open sample_rows))
               = Ok (out, s1) /\ out <> [] /\
             exists s2, hybrid_retrieve (H := Toy.toy) "payment" s1
                        = Ok (out, s2)).
  { eexists _, _. split; [vm_compute; reflexivity|]. split; [discriminate|].
    eexists. vm_compute. reflexivity. }
  destruct R1 as (out & s1 & R1 & Hne & s2 & R2).
  destruct (cross_encoder_loaded_once (E := Toy.toy) _ _ _ _ R1)
    as (new1 & Hc1 & H1 & Hon1).
  destruct (cross_encoder_loaded_once (E := Toy.toy) _ _ _ _ R2)
    as (new2 & Hc2 & H2 & _).
  exists out, s1, s2, new1, new2. split; [exact R1|]. split; [exact R2|].
  split; [exact Hc1|].
  destruct H1 as [[_ Hsame]|(_ & Hl1 & _)].
  { rewrite (Hon1 Hne) in Hsame. discriminate Hsame. }
  split; [exact Hl1|]. split; [exact Hc2|].
  destruct H2 as [[Hno _]|(Hoff & _)]; [exact Hno|].
  rewrite (Hon1 Hne) in Hoff. discriminate Hoff.
Defined.

(** ** Keyword search and letter case *)

Lemma lower_char_idempotent (c : ascii) :
  PyStr.lower_char (PyStr.lower_char c) = PyStr.lower_char c.
Proof. destruct c as [[] [] [] [] [] [] [] []]; reflexivity. Qed.

Lemma lower_idempotent (q : string) :
  PyStr.lower (PyStr.lower q) = PyStr.lower q.
Proof.
  induction q as [|c q IH]; [done|].
  simpl. by rewrite lower_char_idempotent, IH.
Qed.

(** What [_get_bm25_index] answers depends on the store and on the cache,
    not on the log. *)
Lemma get_bm25_index_same (s t s' : State) r :
  vector_store t = vector_store s -> same_cache t s ->
  _get_bm25_index s = Ok (r, s') ->
  exists t', _get_bm25_index t = Ok (r, t') /\
             vector_store t' = vector_store s' /\ same_cache t' s'.
Proof.
  intros Hvs (Hsz & Hix & Hcs).
  destruct (decide (size (vector_store s) = 0%nat)) as [Hz|Hnz].
  { rewrite get_bm25_index_empty by done. intros [= <- <-].
    exists t. rewrite get_bm25_index_empty by (by rewrite Hvs). done. }
  destruct (decide (Z.of_nat (size (vector_store s)) = _bm25_cache_size s))
    as [Hf|Hst].
  { rewrite get_bm25_index_fresh by done. intros [= <- <-].
    exists t. rewrite get_bm25_index_fresh by (by rewrite Hvs, ?Hsz).
    by rewrite Hix, Hcs. }
  rewrite get_bm25_index_stale by done.
  rewrite (get_bm25_index_stale t) by (by rewrite Hvs, ?Hsz).
  rewrite Hvs.
  destruct (get_all_chunks (vector_store s)) as [[|c cs] vs'].
  - intros [= <- <-]. eexists. split; [reflexivity|]. split; [done|].
    by split_and!.
  - intros [= <- <-]. eexists. split; [reflexivity|]. split; [done|].
    by split_and!.
Qed.

(** X8.  Keyword search does not look at the letter case of the query: two
    queries that are equal once lower-cased get the same BM25 hits, with the
    same scores and in the same order, and leave the same store and cache
    behind.  In particular a query and its lower-cased form do. *)
Theorem bm25_search_ignores_case `{E : Collaborators} (q1 q2 : string)
    (top_k : nat) (s s1 : State) (hits : list Hit) :
  PyStr.lower q1 = PyStr.lower q2 ->
  _bm25_search q1 top_k s = Ok (hits, s1) ->
  (exists s2, _bm25_search q2 top_k s = Ok (hits, s2) /\
              vector_store s2 = vector_store s1 /\ same_cache s2 s1) /\
  (exists s3, _bm25_search (PyStr.lower q1) top_k s = Ok (hits, s3) /\
              vector_store s3 = vector_store s1 /\ same_cache s3 s1).
Proof.
  assert (Hgen : forall q, PyStr.lower q1 = PyStr.lower q ->
            _bm25_search q1 top_k s = Ok (hits, s1) ->
            exists s2, _bm25_search q top_k s = Ok (hits, s2) /\
                       vector_store s2 = vector_store s1 /\ same_cache s2 s1).
  { intros q Hq. rewrite !bm25_search_unfold.
    destruct (_get_bm25_index (with_calls (calls s ++ [CallBm25Search q1 top_k]) s))
      as [[[bm25_opt all_chunks] s']|] eqn:Eidx; [|done].
    apply (get_bm25_index_same _
             (with_calls (calls s ++ [CallBm25Search q top_k]) s)) in Eidx
      as (t' & -> & Hvs & Hcache); [|done|done].
    assert (Hhits : bm25_hits bm25_opt all_chunks q top_k
                    = bm25_hits bm25_opt all_chunks q1 top_k).
    { unfold bm25_hits, tokenize. by rewrite Hq. }
    rewrite Hhits. destruct (bm25_hits _ _ q1 _) as [h|]; [|done].
    intros [= <- <-]. by exists t'. }
  intros Hq Hrun. split; [by apply Hgen|].
  apply Hgen; [|done]. by rewrite lower_idempotent.
Qed.

Lemma bm25_search_ignores_case_witness :
  exists hits s1 s2,
    _bm25_search (H := Toy.toy) "PAYMENT due" 5 (boot (open sample_rows))
      = Ok (hits, s1) /\
    _bm25_search (H := Toy.toy) "payment DUE" 5 (boot (open sample_rows))
      = Ok (hits, s2) /\
    hits <> [].
Proof.
  assert (R1 : exists hits s1,
             _bm25_search (H := Toy.toy) "PAYMENT due" 5
               (boot (open sample_rows)) = Ok (hits, s1) /\ hits <> []).
  { eexists _, _. split; [vm_compute; reflexivity|discriminate]. }
  destruct R1 as (hits & s1 & R1 & Hne).
  destruct (bm25_search_ignores_case (E := Toy.toy)
              "PAYMENT due" "payment DUE" 5 _ _ _ eq_refl R1)
    as [(s2 & R2 & _) _].
  exists hits, s1, s2. split; [exact R1|]. split; [exact R2|exact Hne].
Defined.

(** ** Tokens *)

Lemma all_chars_of_list (P : ascii -> bool) (l : list ascii) :
  all_chars P (string_of_list_ascii l) = forallb P l.
Proof. induction l as [|c l IH]; [done|]. simpl. by rewrite IH. Qed.

Lemma forallb_rev {A : Type} (P : A -> bool) (l : list A) :
  forallb P (rev l) = forallb P l.
Proof.
  induction l as [|x l IH]; [done|].
  simpl. rewrite forallb_app, IH. simpl. rewrite andb_true_r.
  apply andb_comm.
Qed.

Lemma string_of_list_nonempty (c : ascii) (l : list ascii) :
  string_of_list_ascii (rev (c :: l)) <> "".
Proof.
  simpl. destruct (rev l) as [|x xs]; simpl; discriminate.
Qed.

Lemma split_aux_tokens (P : ascii -> bool) (s : string) :
  forall cur,
    forallb P cur = true -> forallb (fun c => negb (PyStr.isspace c)) cur = true ->
    all_chars P s = true ->
    Forall (fun t => t <> "" /\
                     all_chars (fun c => negb (PyStr.isspace c) && P c) t = true)
           (PyStr.split_aux cur s).
Proof.
  assert (Hflush : forall cur,
            forallb P cur = true ->
            forallb (fun c => negb (PyStr.isspace c)) cur = true ->
            forall k,
              Forall (fun t => t <> "" /\
                     all_chars (fun c => negb (PyStr.isspace c) && P c) t = true) k ->
              Forall (fun t => t <> "" /\
                     all_chars (fun c => negb (PyStr.isspace c) && P c) t = true)
                match cur with
                | [] => k
                | _ => string_of_list_ascii (rev cur) :: k
                end).
  { intros cur HP Hsp k Hk. destruct cur as [|c cur]; [done|].
    constructor; [|done]. split; [apply string_of_list_nonempty|].
    rewrite all_chars_of_list, forallb_rev.
    apply forallb_forall. intros x Hx.
    rewrite forallb_forall in HP, Hsp. by rewrite (HP x Hx), (Hsp x Hx). }
  induction s as [|c s IH]; intros cur HP Hsp Hs.
  - simpl. by apply Hflush.
  - cbn [PyStr.split_aux]. cbn [all_chars] in Hs.
    apply andb_true_iff in Hs as [Hc Hs].
    destruct (PyStr.isspace c) eqn:Esp.
    + apply Hflush; [done|done|]. by apply IH.
    + apply IH; [|by simpl; rewrite Esp|done]. simpl. by rewrite Hc.
Qed.

Lemma lower_no_upper (s : string) :
  all_chars (fun c => negb (PyStr.isupper c)) (PyStr.lower s) = true.
Proof.
  induction s as [|c s IH]; [done|].
  simpl. rewrite IH, andb_true_r.
  destruct c as [[] [] [] [] [] [] [] []]; reflexivity.
Qed.

(** X24.  The tokens BM25 works with, those of the indexed chunks and those
    of the query, are never empty and hold no white space and no upper-case
    ASCII letter; a text of white space only has no token.  The index that
    [_get_bm25_index] builds has one such list of tokens per chunk. *)
Theorem tokens_are_lower_case_words (doc : string) (all_chunks : list Hit) :
  Forall well_formed_token (tokenize doc) /\
  (all_chars PyStr.isspace doc = true -> tokenize doc = []) /\
  length (corpus (build_index all_chunks)) = length all_chunks /\
  Forall (Forall well_formed_token) (corpus (build_index all_chunks)).
Proof.
  assert (Htok : forall d, Forall well_formed_token (tokenize d)).
  { intros d. unfold tokenize, PyStr.split.
    eapply Forall_impl;
      [apply (split_aux_tokens (fun c => negb (PyStr.isupper c)));
       [done|done|apply lower_no_upper]|].
    intros t [Hne Hall]. split; [done|]. exact Hall. }
  split; [apply Htok|]. split.
  { unfold tokenize, PyStr.split. induction doc as [|c doc IH]; [done|].
    cbn [all_chars]. intros [Hc Hd]%andb_true_iff.
    cbn [PyStr.lower PyStr.split_aux].
    assert (Hl : PyStr.isspace (PyStr.lower_char c) = true).
    { revert Hc. destruct c as [[] [] [] [] [] [] [] []]; done. }
    rewrite Hl. by apply IH. }
  split; [unfold build_index; simpl; by rewrite length_map|].
  unfold build_index. simpl. apply Forall_forall. intros ts Hts.
  apply elem_of_map in Hts as (c & -> & _). apply Htok.
Qed.

End RetrieverMore.

(** * The retrieval service *)

Section RetrievalServiceLemmas.

Import RetrievalService.

Lemma py_min_spec (x : Q) (xs : list Q) :
  (py_min x xs ∈ x :: xs) /\
  (forall y, y ∈ x :: xs -> (py_min x xs <= y)%Q).
Proof.
  unfold py_min. revert x. induction xs as [|z xs IH]; intros x; simpl.
  - split; [by left|]. intros y ->%list_elem_of_singleton. lra.
  - destruct (Qle_bool x z) eqn:E.
    + apply Qle_bool_iff in E. destruct (IH x) as [Hin Hle]. split.
      * apply elem_of_cons in Hin as [->|Hin]; [by left|]. right. by right.
      * intros y [->|[->|Hy]%elem_of_cons]%elem_of_cons.
        -- apply Hle. by left.
        -- specialize (Hle x ltac:(by left)). lra.
        -- apply Hle. by right.
    + assert (Hlt : (z < x)%Q).
      { apply Qnot_le_lt. intros H. apply Qle_bool_iff in H. congruence. }
      destruct (IH z) as [Hin Hle]. split; [by right|].
      intros y [->|Hy]%elem_of_cons; [|by apply Hle].
      specialize (Hle z ltac:(by left)). lra.
Qed.

Lemma py_max_spec (x : Q) (xs : list Q) :
  (py_max x xs ∈ x :: xs) /\
  (forall y, y ∈ x :: xs -> (y <= py_max x xs)%Q).
Proof.
  unfold py_max. revert x. induction xs as [|z xs IH]; intros x; simpl.
  - split; [by left|]. intros y ->%list_elem_of_singleton. lra.
  - destruct (Qle_bool z x) eqn:E.
    + apply Qle_bool_iff in E. destruct (IH x) as [Hin Hle]. split.
      * apply elem_of_cons in Hin as [->|Hin]; [by left|]. right. by right.
      * intros y [->|[->|Hy]%elem_of_cons]%elem_of_cons.
        -- apply Hle. by left.
        -- specialize (Hle x ltac:(by left)). lra.
        -- apply Hle. by right.
    + assert (Hlt : (x < z)%Q).
      { apply Qnot_le_lt. intros H. apply Qle_bool_iff in H. congruence. }
      destruct (IH z) as [Hin Hle]. split; [by right|].
      intros y [->|Hy]%elem_of_cons; [|by apply Hle].
      specialize (Hle z ltac:(by left)). lra.
Qed.

(** X10.  [get_min_similarity] and [get_max_similarity] are 0 on no results; on
    some results each is the score of one of them (0 standing for a missing
    score) and they bound the scores of all.  On a list in non-increasing
    order of score, as [hybrid_retrieve] returns it, the largest is the
    score of the first result. *)
Theorem similarity_bounds (results : list Hit) :
  get_min_similarity [] = 0%Q /\ get_max_similarity [] = 0%Q /\
  (results <> [] ->
   (exists r, r ∈ results /\ get_min_similarity results = rerank_score_or_zero r) /\
   (exists r, r ∈ results /\ get_max_similarity results = rerank_score_or_zero r) /\
   (forall r, r ∈ results ->
      (get_min_similarity results <= rerank_score_or_zero r)%Q /\
      (rerank_score_or_zero r <= get_max_similarity results)%Q)) /\
  (forall r rs, results = r :: rs ->
     StronglySorted (fun x y => (rerank_score_or_zero y <= rerank_score_or_zero x)%Q)
       results ->
     (get_max_similarity results == rerank_score_or_zero r)%Q).
Proof.
  split; [done|]. split; [done|].
  assert (Hb : forall r rs, results = r :: rs ->
    (exists r', r' ∈ results /\ get_min_similarity results = rerank_score_or_zero r') /\
    (exists r', r' ∈ results /\ get_max_similarity results = rerank_score_or_zero r') /\
    (forall r', r' ∈ results ->
      (get_min_similarity results <= rerank_score_or_zero r')%Q /\
      (rerank_score_or_zero r' <= get_max_similarity results)%Q)).
  { intros r rs ->. unfold get_min_similarity, get_max_similarity.
    cbn [map].
    destruct (py_min_spec (rerank_score_or_zero r) (map rerank_score_or_zero rs))
      as [Hmin Hlow].
    destruct (py_max_spec (rerank_score_or_zero r) (map rerank_score_or_zero rs))
      as [Hmax Hhigh].
    change (rerank_score_or_zero r :: map rerank_score_or_zero rs)
      with (map rerank_score_or_zero (r :: rs)) in *.
    apply elem_of_map in Hmin as (r1 & Hr1 & Hin1).
    apply elem_of_map in Hmax as (r2 & Hr2 & Hin2).
    split; [by exists r1|]. split; [by exists r2|].
    intros r' Hr'. split.
    - apply Hlow, elem_of_map. by exists r'.
    - apply Hhigh, elem_of_map. by exists r'. }
  split.
  { intros Hne. destruct results as [|r rs]; [done|]. by apply (Hb r rs). }
  intros r rs Heq Hsorted. destruct (Hb r rs Heq) as (_ & (r' & Hin & Hmax) & Hall).
  apply Qle_antisym; [|apply Hall; rewrite Heq; by left].
  rewrite Hmax. rewrite Heq in Hin, Hsorted.
  apply StronglySorted_inv in Hsorted as [_ Hhd].
  apply elem_of_cons in Hin as [->|Hin]; [lra|].
  by apply (proj1 (Forall_forall _ _) Hhd).
Qed.

Lemma slice_to_prefix {A : Type} (l : list A) (n : Z) :
  slice_to l n `prefix_of` l.
Proof. unfold slice_to. destruct (0 <=? n)%Z; apply prefix_take. Qed.

Lemma retrieve_unfold `{E : Collaborators} (question : string) (top_k : Z)
    (s : State) :
  retrieve question top_k s =
  match hybrid_retrieve question s with
  | Ok (out, s') => Ok (slice_to out top_k, s')
  | Raise e => Raise e
  end.
Proof.
  destruct (decide (size (vector_store s) = 0%nat)) as [Hz|Hnz].
  - rewrite hybrid_retrieve_empty by done. unfold retrieve, bind, store_size.
    rewrite Hz. simpl. unfold slice_to, ret.
    destruct (0 <=? top_k)%Z; by rewrite take_nil.
  - unfold retrieve, bind at 1, store_size.
    destruct (size (vector_store s) =? 0)%nat eqn:Esz;
      [by apply Nat.eqb_eq in Esz|].
    unfold bind, ret. by destruct (hybrid_retrieve question s) as [[out s']|].
Qed.

(** X9.  [retrieve] returns the first [top_k] hits of [hybrid_retrieve] and
    leaves the state [hybrid_retrieve] leaves.  As [hybrid_retrieve] returns
    5 hits at most, a [top_k] of 5 or more changes nothing: asking for 10
    results gives at most 5.  A negative [top_k] drops that many hits from
    the end, so -5 and below give none. *)
Theorem retrieve_is_capped `{E : Collaborators} {HC : Contracts E}
    (question : string) (top_k : Z) (s : State) :
  cache_aligned s ->
  exists out s',
    hybrid_retrieve question s = Ok (out, s') /\
    retrieve question top_k s = Ok (slice_to out top_k, s') /\
    slice_to out top_k `prefix_of` out /\
    (5 <= top_k -> slice_to out top_k = out) /\
    (0 <= top_k ->
       (length (slice_to out top_k) <= Nat.min (Z.to_nat top_k) 5)%nat) /\
    (top_k <= -5 -> slice_to out top_k = []).
Proof.
  intros Hal.
  destruct (hybrid_retrieve_ok question s Hal)
    as (out & s' & Hrun & Hlen & _).
  unfold RERANK_TOP_K in Hlen.
  exists out, s'. split; [exact Hrun|]. split.
  { by rewrite retrieve_unfold, Hrun. }
  split; [apply slice_to_prefix|]. unfold slice_to. split.
  { intros H. destruct (0 <=? top_k)%Z eqn:Ek; [|lia].
    apply take_ge. lia. }
  split.
  { intros H. destruct (0 <=? top_k)%Z eqn:Ek; [|lia].
    rewrite length_take. lia. }
  intros H. destruct (0 <=? top_k)%Z eqn:Ek; [lia|].
  replace (length out - Z.to_nat (- top_k))%nat with 0%nat by lia. done.
Qed.

Lemma retrieve_is_capped_witness :
  exists out s',
    retrieve (H := Toy.toy) "When is the payment due?" 10
      (boot (open sample_rows)) = Ok (out, s') /\
    (length out <= 5)%nat.
Proof.
  destruct (retrieve_is_capped (E := Toy.toy) (HC := toy_contracts)
              "When is the payment due?" 10 (boot (open sample_rows))
              (cache_aligned_boot _))
    as (out & s' & _ & Hrun & _ & _ & Hlen & _).
  exists (slice_to out 10), s'. split; [exact Hrun|].
  specialize (Hlen ltac:(lia)). lia.
Defined.

End RetrievalServiceLemmas.

(** * Conversation memory *)

Section SessionLemmas.

Import Sessions.

Lemma dict_set_known {V : Type} (d : odict V) (k : string) (v : V) :
  k ∈ keys d -> keys (dict_set d k v) = keys d.
Proof.
  intros Hk. rewrite keys_dict_set. unfold add_key.
  by rewrite bool_decide_eq_true_2.
Qed.

Lemma dict_set_new {V : Type} (d : odict V) (k : string) (v : V) :
  k ∉ keys d -> dict_set d k v = (d ++ [(k, v)])%list.
Proof.
  induction d as [|[k0 v0] d IH]; intros Hk; simpl; [done|].
  destruct (String.eqb k0 k) eqn:E.
  - apply String.eqb_eq in E as ->. exfalso. apply Hk. simpl. by left.
  - rewrite IH; [done|]. intros Hin. apply Hk. simpl. by right.
Qed.

Lemma dict_set_length {V : Type} (d : odict V) (k : string) (v : V) :
  length (dict_set d k v) = length (add_key (keys d) k).
Proof. rewrite <- (keys_dict_set d k v). unfold keys. by rewrite length_map. Qed.

Lemma dict_get_absent {V : Type} (d : odict V) (k : string) (dflt : V) :
  k ∉ keys d -> dict_get d k dflt = dflt.
Proof.
  induction d as [|[k0 v0] d IH]; intros Hk; simpl; [done|].
  destruct (String.eqb k0 k) eqn:E.
  - apply String.eqb_eq in E as ->. exfalso. apply Hk. simpl. by left.
  - apply IH. intros Hin. apply Hk. simpl. by right.
Qed.

Lemma dict_get_elem {V : Type} (d : odict V) (k : string) (dflt : V) :
  k ∈ keys d -> (k, dict_get d k dflt) ∈ d.
Proof.
  induction d as [|[k0 v0] d IH]; simpl; [by intros ?%elem_of_nil|].
  intros Hk. destruct (String.eqb k0 k) eqn:E.
  - apply String.eqb_eq in E as ->. by left.
  - right. apply IH. apply elem_of_cons in Hk as [->|Hk]; [|done].
    by rewrite String.eqb_refl in E.
Qed.

Lemma dict_set_elems {V : Type} (d : odict V) (k : string) (v : V)
    (kv : string * V) :
  kv ∈ dict_set d k v -> kv = (k, v) \/ kv ∈ d.
Proof.
  induction d as [|[k0 v0] d IH]; simpl.
  - intros ->%list_elem_of_singleton. by left.
  - destruct (String.eqb k0 k) eqn:E.
    + apply String.eqb_eq in E as ->.
      intros [->|H]%elem_of_cons; [by left|]. right. by right.
    + intros [->|H]%elem_of_cons; [right; by left|].
      destruct (IH H) as [->|H']; [by left|]. right. by right.
Qed.

Lemma dict_del_absent {V : Type} (d : odict V) (k : string) :
  k ∉ keys d -> dict_del d k = d.
Proof.
  induction d as [|[k0 v0] d IH]; intros Hk; simpl; [done|].
  destruct (String.eqb k0 k) eqn:E.
  - apply String.eqb_eq in E as ->. exfalso. apply Hk. simpl. by left.
  - rewrite IH; [done|]. intros Hin. apply Hk. simpl. by right.
Qed.

Lemma dict_del_head {V : Type} (k : string) (v : V) (d : odict V) :
  NoDup (keys ((k, v) :: d)) -> dict_del ((k, v) :: d) k = d.
Proof.
  intros Hnd. simpl in Hnd. apply NoDup_cons in Hnd as [Hk _].
  simpl. rewrite String.eqb_refl. by apply dict_del_absent.
Qed.

Lemma keys_dict_del {V : Type} (d : odict V) (k : string) :
  keys (dict_del d k) = filter (fun k' => k' <> k) (keys d).
Proof.
  induction d as [|[k0 v0] d IH]; [done|].
  simpl. rewrite filter_cons. destruct (String.eqb k0 k) eqn:E.
  - apply String.eqb_eq in E as ->. by rewrite decide_False by (by intros []).
  - apply String.eqb_neq in E. rewrite decide_True by done. simpl.
    by rewrite IH.
Qed.

Lemma dict_get_del {V : Type} (d : odict V) (k k' : string) (dflt : V) :
  dict_get (dict_del d k) k' dflt =
  if String.eqb k k' then dflt else dict_get d k' dflt.
Proof.
  induction d as [|[k0 v0] d IH]; simpl.
  - by destruct (String.eqb k k').
  - destruct (String.eqb k0 k) eqn:E; simpl.
    + apply String.eqb_eq in E as ->. rewrite IH.
      by destruct (String.eqb k k').
    + rewrite IH. destruct (String.eqb k0 k') eqn:E'; [|done].
      apply String.eqb_eq in E' as ->. rewrite String.eqb_sym in E.
      by rewrite E.
Qed.

Lemma evict_loop_drop (fuel : nat) (ss : sessions) :
  well_formed ss -> (length ss - _MAX_SESSIONS <= fuel)%nat ->
  evict_loop fuel ss = drop (length ss - _MAX_SESSIONS) ss.
Proof.
  revert ss. induction fuel as [|fuel IH]; intros ss Hwf Hfuel.
  - simpl. replace (length ss - _MAX_SESSIONS)%nat with 0%nat by lia. done.
  - cbn [evict_loop]. destruct (_MAX_SESSIONS <? length ss)%nat eqn:E.
    + apply Nat.ltb_lt in E. destruct ss as [|[k v] ss]; [simpl in E; lia|].
      rewrite dict_del_head by done. rewrite IH.
      * cbn [length] in *.
        replace (S (length ss) - _MAX_SESSIONS)%nat
          with (S (length ss - _MAX_SESSIONS))%nat by lia.
        done.
      * unfold well_formed in *. simpl in Hwf. by apply NoDup_cons in Hwf as [_ ?].
      * cbn [length] in *. lia.
    + apply Nat.ltb_ge in E.
      replace (length ss - _MAX_SESSIONS)%nat with 0%nat by lia. done.
Qed.

Lemma dict_get_drop {V : Type} (d : odict V) (n : nat) (k : string) (dflt : V) :
  NoDup (keys d) -> k ∈ keys (drop n d) ->
  dict_get (drop n d) k dflt = dict_get d k dflt.
Proof.
  revert d. induction n as [|n IH]; intros d Hnd Hk; [by rewrite drop_0|].
  destruct d as [|[k0 v0] d]; [done|].
  simpl in Hnd. apply NoDup_cons in Hnd as [Hk0 Hnd].
  cbn [drop] in *. rewrite IH by done. simpl.
  destruct (String.eqb k0 k) eqn:E; [|done].
  apply String.eqb_eq in E as ->. exfalso. apply Hk0.
  unfold keys in *. rewrite <- skipn_map in Hk.
  exact (subseteq_drop n _ _ Hk).
Qed.

Lemma keys_drop {V : Type} (d : odict V) (n : nat) :
  keys (drop n d) = drop n (keys d).
Proof. unfold keys. by rewrite skipn_map. Qed.

Lemma NoDup_drop {A : Type} (n : nat) (l : list A) : NoDup l -> NoDup (drop n l).
Proof. intros H. exact (sublist_NoDup _ _ H (sublist_drop _ _)). Qed.

Lemma NoDup_add_key (ks : list string) (k : string) :
  NoDup ks -> NoDup (add_key ks k).
Proof. intros H. exact (NoDup_add_keys ks [k] H). Qed.

Lemma last_n_length {A : Type} (n : nat) (l : list A) :
  (length (last_n n l) <= n)%nat.
Proof. unfold last_n. rewrite length_drop. lia. Qed.

Lemma last_n_all {A : Type} (n : nat) (l : list A) :
  (length l <= n)%nat -> last_n n l = l.
Proof.
  intros H. unfold last_n.
  replace (length l - n)%nat with 0%nat by lia. done.
Qed.

Lemma last_n_last_n {A : Type} (n m : nat) (l : list A) :
  (n <= m)%nat -> last_n n (last_n m l) = last_n n l.
Proof.
  intros H. unfold last_n. rewrite length_drop, drop_drop. f_equal. lia.
Qed.

Lemma last_n_snoc {A : Type} (n : nat) (l : list A) (x : A) :
  (0 < n)%nat -> exists pre, last_n n (l ++ [x]) = (pre ++ [x])%list.
Proof.
  intros H. unfold last_n. rewrite length_app. simpl.
  exists (drop (length l + 1 - n) l).
  rewrite drop_app_le by lia. done.
Qed.

Lemma last_n_snoc2 {A : Type} (n : nat) (l : list A) (x y : A) :
  (2 <= n)%nat -> exists pre, last_n n (l ++ [x; y]) = (pre ++ [x; y])%list.
Proof.
  intros H. unfold last_n. rewrite length_app. simpl.
  exists (drop (length l + 2 - n) l).
  rewrite drop_app_le by lia. done.
Qed.

(** ** Eviction *)

(** X11.  [_evict_sessions_if_needed] stops with at most 200 sessions: it drops
    the sessions that were created first and keeps the 200 newest, in their
    order and with their turns; with 200 sessions or fewer it does
    nothing. *)
Theorem evict_sessions_keeps_newest (ss : sessions) :
  well_formed ss ->
  _evict_sessions_if_needed ss = drop (length ss - 200) ss /\
  (length (_evict_sessions_if_needed ss) <= 200)%nat /\
  ((length ss <= 200)%nat -> _evict_sessions_if_needed ss = ss).
Proof.
  intros Hwf. unfold _evict_sessions_if_needed.
  rewrite evict_loop_drop by (done || lia). unfold _MAX_SESSIONS.
  split; [done|]. split; [rewrite length_drop; lia|].
  intros H. replace (length ss - 200)%nat with 0%nat by lia. done.
Qed.

(** ** Adding a turn *)

Lemma add_turn_unfold (session_id role content : string) (ss : sessions) :
  well_formed ss ->
  let turn := {| role := role; content := content |} in
  let turns := (turns_of session_id ss ++ [turn])%list in
  let ss3 := dict_set ss session_id (last_n _MAX_TURNS_PER_SESSION turns) in
  _add_turn session_id role content ss
    = drop (length ss3 - _MAX_SESSIONS) ss3 /\
  well_formed ss3 /\
  keys ss3 = add_key (keys ss) session_id.
Proof.
  intros Hwf turn turns ss3.
  assert (Hkeys : keys ss3 = add_key (keys ss) session_id)
    by apply keys_dict_set.
  assert (Hwf3 : well_formed ss3).
  { unfold well_formed. rewrite Hkeys. by apply NoDup_add_key. }
  split; [|done].
  assert (Hset : forall d (a b : list Turn),
            dict_set (dict_set d session_id a) session_id b
            = dict_set d session_id b).
  { intros d a b. induction d as [|[k0 v0] d IH]; simpl.
    - by rewrite String.eqb_refl.
    - destruct (String.eqb k0 session_id) eqn:E; simpl; rewrite E; [done|].
      by rewrite IH. }
  assert (Hss3 :
    (let '(turns0, ss1) := getitem_default session_id ss in
     let turns1 := (turns0 ++ [turn])%list in
     let ss2 := dict_set ss1 session_id turns1 in
     if (_MAX_TURNS_PER_SESSION <? length turns1)%nat
     then dict_set ss2 session_id (last_n _MAX_TURNS_PER_SESSION turns1)
     else ss2) = ss3).
  { unfold getitem_default, ss3, turns, turns_of.
    destruct (decide (session_id ∈ keys ss)) as [Hin|Hnin].
    - rewrite bool_decide_eq_true_2 by done.
      destruct (_ <? _)%nat eqn:E; [by rewrite Hset|].
      apply Nat.ltb_ge in E. by rewrite last_n_all.
    - rewrite bool_decide_eq_false_2 by done.
      rewrite (dict_get_absent ss) by done. rewrite Hset.
      destruct (_ <? _)%nat eqn:E; [by rewrite Hset|].
      apply Nat.ltb_ge in E. by rewrite last_n_all. }
  unfold _add_turn. fold turn.
  destruct (getitem_default session_id ss) as [turns0 ss1].
  cbv zeta in Hss3. rewrite Hss3.
  unfold _evict_sessions_if_needed. by rewrite evict_loop_drop by (done || lia).
Qed.

Lemma add_turn_shape (session_id role content : string) (ss : sessions) :
  well_formed ss ->
  well_formed (_add_turn session_id role content ss) /\
  (length (_add_turn session_id role content ss) <= 200)%nat.
Proof.
  intros Hwf.
  destruct (add_turn_unfold session_id role content ss Hwf)
    as (Hrun & Hwf3 & _).
  cbv zeta in Hrun, Hwf3. rewrite Hrun. unfold _MAX_SESSIONS. split.
  - unfold well_formed. rewrite keys_drop. by apply NoDup_drop.
  - rewrite length_drop. lia.
Qed.

Lemma add_turn_keys (session_id role content : string) (ss : sessions)
    (k : string) :
  well_formed ss -> k ∈ keys (_add_turn session_id role content ss) ->
  k = session_id \/ k ∈ keys ss.
Proof.
  intros Hwf.
  destruct (add_turn_unfold session_id role content ss Hwf)
    as (Hrun & _ & Hkeys).
  cbv zeta in Hrun, Hkeys. rewrite Hrun, keys_drop. intros Hk.
  apply subseteq_drop in Hk. rewrite Hkeys in Hk. unfold add_key in Hk.
  case_bool_decide; [by right|].
  apply elem_of_app in Hk as [Hk| ->%list_elem_of_singleton];
    [by right|by left].
Qed.

(** X12.  [_add_turn] keeps the memory within its bounds: afterwards there are at
    most 200 sessions, whatever their number before, the session written to
    has at most 50 turns, and if no session had more than 50 turns none
    has.  Keys stay unique. *)
Theorem add_turn_bounded (session_id role content : string) (ss : sessions) :
  well_formed ss ->
  let ss' := _add_turn session_id role content ss in
  well_formed ss' /\
  (length ss' <= 200)%nat /\
  (length (turns_of session_id ss') <= 50)%nat /\
  (bounded ss -> bounded ss').
Proof.
  intros Hwf ss'.
  destruct (add_turn_unfold session_id role content ss Hwf)
    as (Hrun & Hwf3 & Hkeys).
  cbv zeta in Hrun, Hwf3, Hkeys.
  set (turns := (turns_of session_id ss ++ [_])%list) in *.
  set (ss3 := dict_set ss session_id _) in *.
  subst ss'. rewrite Hrun. unfold _MAX_SESSIONS, _MAX_TURNS_PER_SESSION in *.
  assert (Hlen : (length (drop (length ss3 - 200) ss3) <= 200)%nat)
    by (rewrite length_drop; lia).
  split.
  { unfold well_formed. rewrite keys_drop. by apply NoDup_drop. }
  split; [exact Hlen|]. split.
  { unfold turns_of.
    destruct (decide (session_id ∈ keys (drop (length ss3 - 200) ss3)))
      as [Hin|Hnin].
    - rewrite dict_get_drop by done. unfold ss3.
      rewrite dict_get_set, String.eqb_refl. apply last_n_length.
    - rewrite dict_get_absent by done. simpl. lia. }
  intros [_ Hall]. split; [exact Hlen|].
  apply Forall_forall. intros kv Hkv.
  apply (subseteq_drop (length ss3 - 200) ss3), dict_set_elems
    in Hkv as [->|Hkv].
  - simpl. apply last_n_length.
  - by apply (proj1 (Forall_forall _ _) Hall).
Qed.

Lemma many_sessions_well_formed : well_formed many_sessions.
Proof. apply (bool_decide_unpack _). vm_compute. reflexivity. Qed.

Lemma two_sessions_well_formed : well_formed two_sessions.
Proof. apply (bool_decide_unpack _). vm_compute. reflexivity. Qed.

Lemma evict_sessions_keeps_newest_witness :
  well_formed many_sessions /\
  _evict_sessions_if_needed many_sessions = drop 1 many_sessions /\
  length (_evict_sessions_if_needed many_sessions) = 200%nat.
Proof.
  split; [exact many_sessions_well_formed|].
  destruct (evict_sessions_keeps_newest many_sessions
              many_sessions_well_formed) as (Hrun & _ & _).
  rewrite Hrun. split; vm_compute; reflexivity.
Defined.

Lemma add_turn_bounded_witness :
  well_formed many_sessions /\
  (length (_add_turn "new" "human" "Hello" many_sessions) <= 200)%nat /\
  (length (turns_of "new" (_add_turn "new" "human" "Hello" many_sessions))
   <= 50)%nat.
Proof.
  split; [exact many_sessions_well_formed|].
  destruct (add_turn_bounded "new" "human" "Hello" many_sessions
              many_sessions_well_formed) as (_ & Hn & Ht & _).
  split; [exact Hn|exact Ht].
Defined.

(** ** What a session remembers *)

(** The session [_add_turn] writes to survives the eviction when it is new
    or among the 200 newest. *)
Lemma add_turn_history (session_id role content : string) (ss : sessions) :
  well_formed ss ->
  (session_id ∈ keys ss ->
   session_id ∈ keys (drop (length ss - 200) ss)) ->
  let turn := {| role := role; content := content |} in
  let turns := (turns_of session_id ss ++ [turn])%list in
  let ss' := _add_turn session_id role content ss in
  session_id ∈ keys ss' /\
  turns_of session_id ss' = last_n 50 turns /\
  _get_history session_id ss' = (last_n 10 turns, ss') /\
  (forall other, other <> session_id -> other ∈ keys ss' ->
                 turns_of other ss' = turns_of other ss).
Proof.
  intros Hwf Hnew turn turns ss'.
  destruct (add_turn_unfold session_id role content ss Hwf)
    as (Hrun & Hwf3 & Hkeys).
  cbv zeta in Hrun, Hwf3, Hkeys. fold turn in Hrun, Hwf3, Hkeys.
  fold turns in Hrun, Hwf3, Hkeys.
  set (ss3 := dict_set ss session_id _) in *.
  unfold _MAX_SESSIONS, _MAX_TURNS_PER_SESSION in *.
  assert (Hin : session_id ∈ keys (drop (length ss3 - 200) ss3)).
  { destruct (decide (session_id ∈ keys ss)) as [Hk|Hk].
    - assert (Hl : length ss3 = length ss).
      { unfold ss3. rewrite dict_set_length. unfold add_key.
        rewrite bool_decide_eq_true_2 by done. unfold keys.
        by rewrite length_map. }
      rewrite Hl, keys_drop, Hkeys. unfold add_key.
      rewrite bool_decide_eq_true_2 by done. rewrite <- keys_drop.
      by apply Hnew.
    - unfold ss3. rewrite dict_set_new by done.
      rewrite length_app. cbn [length].
      rewrite drop_app_le by lia. unfold keys. rewrite map_app.
      apply elem_of_app. right. simpl. by left. }
  assert (Hturns : turns_of session_id ss' = last_n 50 turns).
  { unfold turns_of, ss'. rewrite Hrun, dict_get_drop by done.
    unfold ss3. by rewrite dict_get_set, String.eqb_refl. }
  assert (Hhist : _get_history session_id ss' = (last_n 10 turns, ss')).
  { unfold _get_history, getitem_default.
    rewrite bool_decide_eq_true_2 by (unfold ss'; by rewrite Hrun).
    fold (turns_of session_id ss'). rewrite Hturns.
    unfold MAX_HISTORY_TURNS. cbn [Nat.mul Nat.add].
    by rewrite last_n_last_n by lia. }
  split; [unfold ss'; by rewrite Hrun|]. split; [exact Hturns|].
  split; [exact Hhist|].
  intros other Hne Hother. unfold turns_of, ss' in *. rewrite Hrun in *.
  rewrite dict_get_drop by done. unfold ss3. rewrite dict_get_set.
  destruct (String.eqb session_id other) eqn:E; [|done].
  apply String.eqb_eq in E. congruence.
Qed.

(** X13.  With at most 200 sessions in memory, [_add_turn] does not lose the turn
    it adds: the session is there afterwards, its turns are the old ones
    followed by the new one, cut to the last 50, and [_get_history] returns
    the last 10 of them, the new turn last, without changing the memory.
    The turns of the other sessions that are still there are as they
    were. *)
Theorem add_turn_then_history (session_id role content : string)
    (ss : sessions) :
  well_formed ss -> (length ss <= 200)%nat ->
  let turn := {| role := role; content := content |} in
  let turns := (turns_of session_id ss ++ [turn])%list in
  let ss' := _add_turn session_id role content ss in
  session_id ∈ keys ss' /\
  turns_of session_id ss' = last_n 50 turns /\
  _get_history session_id ss' = (last_n 10 turns, ss') /\
  (exists earlier, (_get_history session_id ss').1 = (earlier ++ [turn])%list) /\
  (forall other, other <> session_id -> other ∈ keys ss' ->
                 turns_of other ss' = turns_of other ss).
Proof.
  intros Hwf Hlen turn turns ss'.
  destruct (add_turn_history session_id role content ss Hwf)
    as (Hin & Hturns & Hhist & Hother).
  { intros Hk. replace (length ss - 200)%nat with 0%nat by lia.
    by rewrite drop_0. }
  split; [exact Hin|]. split; [exact Hturns|]. split; [exact Hhist|].
  split; [|exact Hother].
  fold ss' in Hhist. fold turn in Hhist. rewrite Hhist. simpl.
  apply last_n_snoc. lia.
Qed.

Lemma add_turn_then_history_witness :
  well_formed two_sessions /\
  (_get_history "alice" (_add_turn "alice" "human" "And clause 6?"
                           two_sessions)).1
  = [{| role := "human"; content := "What is clause 5?" |};
     {| role := "ai"; content := "Termination." |};
     {| role := "human"; content := "And clause 6?" |}].
Proof.
  split; [exact two_sessions_well_formed|].
  destruct (add_turn_then_history "alice" "human" "And clause 6?"
              two_sessions two_sessions_well_formed) as (_ & _ & Hh & _).
  - simpl. lia.
  - rewrite Hh. vm_compute. reflexivity.
Defined.

Lemma get_history_unfold (session_id : string) (ss : sessions) :
  _get_history session_id ss
  = (last_n 10 (turns_of session_id ss),
     if bool_decide (session_id ∈ keys ss) then ss
     else (ss ++ [(session_id, [])])%list).
Proof.
  unfold _get_history, getitem_default, turns_of, MAX_HISTORY_TURNS.
  cbn [Nat.mul Nat.add]. case_bool_decide as Hin; [done|].
  by rewrite dict_get_absent, dict_set_new by done.
Qed.

Lemma get_history_memory (session_id : string) (ss : sessions) :
  well_formed ss ->
  let ss' := (_get_history session_id ss).2 in
  well_formed ss' /\
  (session_id ∈ keys ss') /\
  (length ss' <= S (length ss))%nat /\
  ((length ss <= 200)%nat ->
   session_id ∈ keys (drop (length ss' - 200) ss')) /\
  (forall other, turns_of other ss' = turns_of other ss).
Proof.
  intros Hwf. rewrite get_history_unfold. cbn [snd].
  case_bool_decide as Hin.
  - split; [done|]. split; [done|]. split; [lia|]. split; [|done].
    intros Hlen. replace (length ss - 200)%nat with 0%nat by lia.
    by rewrite drop_0.
  - split.
    { unfold well_formed, keys. rewrite map_app.
      apply NoDup_app. split; [exact Hwf|]. split; [|apply NoDup_singleton].
      intros k Hk ->%list_elem_of_singleton. by apply Hin. }
    split.
    { unfold keys. rewrite map_app, elem_of_app. right. by left. }
    split; [rewrite length_app; simpl; lia|]. split.
    { intros Hlen. rewrite length_app. cbn [length].
      rewrite drop_app_le by lia. unfold keys.
      rewrite map_app, elem_of_app. right. by left. }
    intros other. unfold turns_of.
    rewrite <- (dict_set_new ss session_id []) by done.
    rewrite dict_get_set. destruct (String.eqb session_id other) eqn:E; [|done].
    apply String.eqb_eq in E as <-. by rewrite dict_get_absent.
Qed.

(** X14.  [_get_history] returns the last 10 turns of the session at most, in
    their order, and changes no history.  It is not a pure read: asked
    about a session that is not known, it returns nothing and files the
    session, with no turns, as the newest one; nothing is evicted then. *)
Theorem get_history_last_ten (session_id : string) (ss : sessions) :
  let history := (_get_history session_id ss).1 in
  let ss' := (_get_history session_id ss).2 in
  history = last_n 10 (turns_of session_id ss) /\
  (length history <= 10)%nat /\
  history `suffix_of` turns_of session_id ss /\
  (session_id ∈ keys ss -> ss' = ss) /\
  (session_id ∉ keys ss ->
     history = [] /\ ss' = (ss ++ [(session_id, [])])%list) /\
  (forall other, turns_of other ss' = turns_of other ss).
Proof.
  unfold _get_history, getitem_default, turns_of, MAX_HISTORY_TURNS.
  cbn [Nat.mul Nat.add].
  destruct (decide (session_id ∈ keys ss)) as [Hin|Hnin].
  - rewrite bool_decide_eq_true_2 by done. cbn [fst snd].
    split; [done|]. split; [apply last_n_length|].
    split; [apply suffix_drop|]. split; [done|]. split; [done|done].
  - rewrite bool_decide_eq_false_2 by done. cbn [fst snd].
    rewrite (dict_get_absent ss session_id) by done.
    split; [done|]. split; [simpl; lia|]. split; [done|].
    split; [done|]. split; [by rewrite dict_set_new|].
    intros other. rewrite dict_get_set.
    destruct (String.eqb session_id other) eqn:E; [|done].
    apply String.eqb_eq in E as <-. by rewrite dict_get_absent.
Qed.

(** X15.  [clear_session] forgets the session and nothing else: its turns are
    gone, the other sessions keep their turns and their order, and clearing
    a session that is not known, or clearing twice, changes nothing and
    raises nothing.  [clear_all_sessions] leaves no session. *)
Theorem clear_session_forgets_one (session_id : string) (ss : sessions) :
  let ss' := clear_session session_id ss in
  (session_id ∉ keys ss') /\
  turns_of session_id ss' = [] /\
  keys ss' = filter (fun k => k <> session_id) (keys ss) /\
  (forall other, other <> session_id ->
                 turns_of other ss' = turns_of other ss) /\
  (session_id ∉ keys ss -> ss' = ss) /\
  clear_session session_id ss' = ss' /\
  keys (clear_all_sessions ss) = [].
Proof.
  intros ss'. unfold ss', clear_session, turns_of.
  assert (Hout : session_id ∉ keys (dict_del ss session_id)).
  { rewrite keys_dict_del, list_elem_of_filter. by intros [? _]. }
  split; [exact Hout|]. split.
  { by rewrite dict_get_del, String.eqb_refl. }
  split; [apply keys_dict_del|]. split.
  { intros other Hne. rewrite dict_get_del.
    destruct (String.eqb session_id other) eqn:E; [|done].
    apply String.eqb_eq in E. congruence. }
  split; [apply dict_del_absent|]. split; [by apply dict_del_absent|done].
Qed.

(** X16.  [_add_turn] can lose the turn it adds when there are more than 200
    sessions.  [_get_history]
    files an unknown session without evicting, so a full memory of 200
    sessions grows to 201; a turn then added to the oldest session is lost
    at once, for [_add_turn] evicts the session it has just written to. *)
Theorem add_turn_can_evict_its_session (oldest unknown role content : string)
    (turns : list Turn) (rest : sessions) :
  let ss := (oldest, turns) :: rest in
  well_formed ss -> length ss = 200%nat -> unknown ∉ keys ss ->
  let ss1 := (_get_history unknown ss).2 in
  let ss2 := _add_turn oldest role content ss1 in
  length ss1 = 201%nat /\
  (oldest ∉ keys ss2) /\
  turns_of oldest ss2 = [] /\
  ss2 = (rest ++ [(unknown, [])])%list.
Proof.
  intros ss Hwf Hlen Hunknown ss1 ss2.
  assert (Hss1 : ss1 = (ss ++ [(unknown, [])])%list).
  { unfold ss1, _get_history, getitem_default.
    rewrite bool_decide_eq_false_2 by done. cbn [fst snd].
    by apply dict_set_new. }
  assert (Hwf1 : well_formed ss1).
  { unfold well_formed. rewrite Hss1. unfold keys. rewrite map_app.
    apply NoDup_app. split; [exact Hwf|]. split; [|apply NoDup_singleton].
    intros k Hk ->%list_elem_of_singleton. by apply Hunknown. }
  destruct (add_turn_unfold oldest role content ss1 Hwf1) as (Hrun & _ & _).
  cbv zeta in Hrun. unfold _MAX_SESSIONS in Hrun.
  assert (Hset : forall v,
            dict_set ss1 oldest v = ((oldest, v) :: rest ++ [(unknown, [])])%list).
  { intros v. rewrite Hss1. unfold ss. simpl. by rewrite String.eqb_refl. }
  rewrite Hset in Hrun. cbn [length] in Hrun. rewrite length_app in Hrun.
  unfold ss in Hlen. cbn [length] in Hlen, Hrun.
  replace (S (length rest + 1) - 200)%nat with 1%nat in Hrun by lia.
  cbn [drop] in Hrun. rewrite drop_0 in Hrun.
  assert (Hout : oldest ∉ keys ss2).
  { unfold ss2. rewrite Hrun. unfold keys. rewrite map_app.
    unfold well_formed, ss in Hwf. simpl in Hwf.
    apply NoDup_cons in Hwf as [Hk _].
    intros [Hin| ->%list_elem_of_singleton]%elem_of_app; [by apply Hk|].
    apply Hunknown. unfold ss. simpl. by left. }
  split; [rewrite Hss1, length_app; unfold ss; cbn [length]; lia|].
  split; [exact Hout|]. split; [by apply dict_get_absent|exact Hrun].
Qed.

Lemma add_turn_can_evict_its_session_witness :
  exists turns rest,
    many_sessions = (String (ascii_of_nat 0) "", turns) ::
                    ((String (ascii_of_nat 1) "", []) :: rest) /\
    let ss := (String (ascii_of_nat 1) "", []) :: rest in
    length ss = 200%nat /\
    String (ascii_of_nat 1) ""
      ∉ keys (_add_turn (String (ascii_of_nat 1) "") "human" "Hello"
                (_get_history "visitor" ss).2).
Proof.
  eexists _, _. split; [vm_compute; reflexivity|].
  intros ss.
  assert (Hwf : well_formed ss).
  { apply (bool_decide_unpack _). vm_compute. reflexivity. }
  assert (Hlen : length ss = 200%nat) by (vm_compute; reflexivity).
  assert (Hun : "visitor" ∉ keys ss).
  { apply (bool_decide_unpack _). vm_compute. reflexivity. }
  split; [exact Hlen|].
  exact (proj1 (proj2 (add_turn_can_evict_its_session _ "visitor" "human"
                         "Hello" _ _ Hwf Hlen Hun))).
Defined.

End SessionLemmas.

(** * The question-answering chain, end to end *)

Section RagLemmas.

Import Chain Sessions Rag.




(** ** Strings *)












(** ** Rounding *)





(** ** The call of the language model *)

Section Call.

Context `{E : Collaborators} `{L : LanguageModel}.

Lemma query_rag_unfold (question session_id : string) (s s1 : State)
    (ss : sessions) (results : list Hit) :
  size (vector_store s) <> 0%nat ->
  query_rag_results question s = Ok (results, s1) -> results <> [] ->
  let history := last_n 10 (turns_of session_id ss) in
  let ss1 := (_get_history session_id ss).2 in
  let prompt := full_prompt history question in
  let system_msg := RAG_SYSTEM_PROMPT_head ++ _build_context results ++ nl in
  query_rag question session_id s ss =
  match generate prompt system_msg with
  | None => GenerateRaised s1 ss1 [(prompt, system_msg)]
  | Some text =>
      Answered
        {| answer := text;
           sources := map source_of (enumerate_from_1 results);
           session_id := session_id |}
        s1
        (_add_turn session_id "ai" text
           (_add_turn session_id "human" question ss1))
        [(prompt, system_msg)]
  end.
Proof.
  intros Hn Hres Hne history ss1 prompt system_msg.
  unfold query_rag. rewrite Hres.
  apply Nat.eqb_neq in Hn. rewrite Hn.
  destruct results as [|r rs]; [done|].
  unfold ss1, prompt, history. rewrite get_history_unfold. cbn [fst snd].
  done.
Qed.


Lemma last_two_turns (n : nat) (old : list Turn) (x y : Turn) :
  (2 <= n)%nat ->
  exists earlier,
    last_n n (last_n 50 (old ++ [x]) ++ [y]) = (earlier ++ [x; y])%list.
Proof.
  intros Hn. destruct (last_n_snoc 50 old x ltac:(lia)) as [pre ->].
  rewrite <- app_assoc. cbn [app]. by apply last_n_snoc2.
Qed.

(** X18.  With at most 200 sessions in memory, an answered question is
    remembered: afterwards the history of the session ends with the
    question and the answer, in this order, the memory is within its
    bounds, and the turns of the other sessions that are still there are
    as they were.  When the language model raises, no turn is recorded
    for any session; the session asked about is known from then on. *)
Theorem query_rag_records_the_exchange (question sid : string)
    (s s1 : State) (ss : sessions) (results : list Hit) :
  well_formed ss -> (length ss <= 200)%nat ->
  size (vector_store s) <> 0%nat ->
  query_rag_results question s = Ok (results, s1) -> results <> [] ->
  match query_rag question sid s ss with
  | Answered a s' ss' sent =>
      well_formed ss' /\ (length ss' <= 200)%nat /\
      (exists earlier,
         (_get_history sid ss').1
         = (earlier ++ [{| role := "human"; content := question |};
                        {| role := "ai"; content := answer a |}])%list) /\
      (_get_history sid ss').2 = ss' /\
      (forall other, other <> sid -> other ∈ keys ss' ->
                     turns_of other ss' = turns_of other ss)
  | GenerateRaised s' ss' sent =>
      (forall any, turns_of any ss' = turns_of any ss) /\ (sid ∈ keys ss')
  | RetrievalRaised _ => False
  end.
Proof.
  intros Hwf Hlen Hn Hres Hne.
  rewrite (query_rag_unfold _ _ _ _ _ _ Hn Hres Hne). cbv zeta.
  destruct (get_history_memory sid ss Hwf)
    as (Hwf1 & Hin1 & _ & Hkeep1 & Hturns1).
  cbv zeta in Hwf1, Hin1, Hkeep1, Hturns1.
  set (ss1 := (_get_history sid ss).2) in *.
  destruct (generate _ _) as [text|]; [|by split].
  cbn [answer].
  destruct (add_turn_history sid "human" question ss1 Hwf1
              (fun _ => Hkeep1 Hlen)) as (Hin2 & Hturns2 & _ & Hother2).
  destruct (add_turn_shape sid "human" question ss1 Hwf1) as [Hwf2 Hlen2].
  cbv zeta in Hin2, Hturns2, Hother2.
  set (ss2 := _add_turn sid "human" question ss1) in *.
  destruct (add_turn_history sid "ai" text ss2 Hwf2) as (Hin3 & _ & Hhist3 & Hother3).
  { intros _. replace (length ss2 - 200)%nat with 0%nat by lia.
    by rewrite drop_0. }
  destruct (add_turn_shape sid "ai" text ss2 Hwf2) as [Hwf3 Hlen3].
  cbv zeta in Hin3, Hhist3, Hother3.
  set (ss3 := _add_turn sid "ai" text ss2) in *.
  split; [exact Hwf3|]. split; [exact Hlen3|]. split.
  { rewrite Hhist3. cbn [fst]. rewrite Hturns2. apply last_two_turns. lia. }
  split; [by rewrite Hhist3|].
  intros other Hne' Hother.
  rewrite Hother3 by done.
  assert (Hin : other ∈ keys ss2).
  { destruct (add_turn_keys sid "ai" text ss2 other Hwf2 Hother); done. }
  rewrite Hother2 by done. apply Hturns1.
Qed.

(** X23.  While nothing is uploaded every query comes back empty and
    nothing is touched: the store queries and [delete_chunks_by_document]
    find nothing, [hybrid_retrieve], [retrieve] and [_bm25_search] return no
    hit without a search, a cache rebuild or a model load, and [query_rag]
    answers that no documents have been uploaded, with no sources, without
    calling the language model and without touching the conversation
    memory. *)
Theorem nothing_uploaded_nothing_found (question sid : string) (top_k : Z)
    (k : nat) (pages : list Z) (s : State) (ss : sessions) :
  size (vector_store s) = 0%nat ->
  search question (Some k) (vector_store s) = [] /\
  get_all_chunks (vector_store s) = ([], vector_store s) /\
  get_chunks_by_pages pages (vector_store s) = [] /\
  StoreOps.get_chunks_by_document question (vector_store s) = [] /\
  StoreOps.get_documents (vector_store s) = [] /\
  delete_chunks_by_document question (vector_store s)
    = (0%nat, vector_store s) /\
  _bm25_search question k s
    = Ok ([], with_calls (calls s ++ [CallBm25Search question k]) s) /\
  hybrid_retrieve question s = Ok ([], s) /\
  RetrievalService.retrieve question top_k s = Ok ([], s) /\
  query_rag question sid s ss
    = Answered
        {| answer := "No documents have been uploaded yet. Please upload a document first.";
           sources := []; session_id := sid |} s ss [].
Proof.
  intros Hz. pose proof Hz as Hc. unfold size in Hc.
  split; [unfold search; by rewrite Hc|].
  split; [unfold get_all_chunks; by rewrite Hc|].
  split; [unfold get_chunks_by_pages; by rewrite Hc|].
  split; [unfold StoreOps.get_chunks_by_document; by rewrite Hc|].
  split; [unfold StoreOps.get_documents; by rewrite Hc|].
  split; [unfold delete_chunks_by_document; by rewrite Hc|].
  split.
  { rewrite bm25_search_unfold, get_bm25_index_empty by done. done. }
  split; [by apply hybrid_retrieve_empty|].
  split.
  { rewrite retrieve_unfold, hybrid_retrieve_empty by done.
    unfold RetrievalService.slice_to.
    destruct (0 <=? top_k)%Z; by rewrite take_nil. }
  unfold query_rag. rewrite query_rag_results_empty by done.
  by rewrite Hz.
Qed.



End Call.

Lemma nothing_uploaded_nothing_found_witness :
  hybrid_retrieve (H := Toy.toy) "Who signed?" (boot (open [])) 
    = Ok ([], boot (open [])) /\
  match query_rag (H := Toy.toy) (H0 := echo) "Who signed?" "alice"
          (boot (open [])) two_sessions with
  | Answered a _ ss' sent => sources a = [] /\ ss' = two_sessions /\ sent = []
  | _ => False
  end.
Proof.
  destruct (nothing_uploaded_nothing_found (E := Toy.toy) (L := echo)
              "Who signed?" "alice" 5 5 [] (boot (open [])) two_sessions
              eq_refl)
    as (_ & _ & _ & _ & _ & _ & _ & Hh & _ & Hq).
  split; [exact Hh|]. rewrite Hq. split; [reflexivity|].
  split; reflexivity.
Defined.

Lemma page_two_results :
  exists results s1,
    query_rag_results (H := Toy.toy) "What is on page 2?"
      (boot (open sample_rows)) = Ok (results, s1) /\
    results <> [] /\ length results = 1%nat.
Proof.
  eexists _, _. split; [vm_compute; reflexivity|].
  split; [discriminate|reflexivity].
Qed.


Lemma query_rag_records_the_exchange_witness :
  match query_rag (H := Toy.toy) (H0 := echo) "What is on page 2?" "alice"
          (boot (open sample_rows)) two_sessions with
  | Answered a _ ss' _ =>
      exists earlier,
        (_get_history "alice" ss').1
        = (earlier ++ [{| role := "human"; content := "What is on page 2?" |};
                       {| role := "ai"; content := answer a |}])%list
  | _ => False
  end.
Proof.
  destruct page_two_results as (results & s1 & Hres & Hne & Hlen).
  pose proof (query_rag_records_the_exchange (E := Toy.toy) (L := echo)
                "What is on page 2?" "alice" (boot (open sample_rows)) s1
                two_sessions results two_sessions_well_formed
                ltac:(simpl; lia) ltac:(discriminate) Hres Hne) as H.
  match goal with
  | |- match ?q with _ => _ end =>
      destruct q as [a s' ss' sent|e|s' ss' sent] eqn:Erun
  end.
  - by destruct H as (_ & _ & He & _).
  - exact H.
  - apply (f_equal (fun o => match o with
                             | GenerateRaised _ _ _ => true
                             | _ => false
                             end)) in Erun.
    vm_compute in Erun. discriminate Erun.
Defined.


End RagLemmas.

(** * What the weights of the fusion imply *)

Section FusionOrder.

Import StoreOps.

Lemma rrf_term_cross (i j : nat) :
  (3 * i < 244 + 7 * j)%nat ->
  (rrf_term BM25_WEIGHT 60 j < rrf_term SEMANTIC_WEIGHT 60 i)%Q.
Proof.
  intros H. unfold rrf_term, BM25_WEIGHT, SEMANTIC_WEIGHT.
  set (A := Z.of_nat (60 + i + 1)). set (B := Z.of_nat (60 + j + 1)).
  assert (HA : (0 < A)%Z) by (unfold A; lia).
  assert (HB : (0 < B)%Z) by (unfold B; lia).
  assert (HAB : (3 * A < 7 * B)%Z) by (unfold A, B; lia).
  apply Qlt_shift_div_l.
  { unfold Qlt. simpl. lia. }
  unfold Qdiv. rewrite <- Qmult_assoc, (Qmult_comm (/ inject_Z B)), Qmult_assoc.
  apply Qlt_shift_div_r.
  { unfold Qlt. simpl. lia. }
  unfold Qlt, Qmult, inject_Z. simpl. lia.
Qed.

(** X20.  The weights put the dense search first.  In the fused list an entry
    whose text the dense search returned at rank [i] comes before every
    entry that only the BM25 search returned, once, at rank [j], whenever
    [3 i < 244 + 7 j]: so for every dense rank up to 81, and for each of the
    15 dense hits of the pipeline.  BM25 can move a dense hit up; it cannot
    lift a hit of its own above one. *)
Theorem dense_hits_outrank_bm25_only (sem bm fused : list Hit) (a b : Hit)
    (i j : nat) :
  _reciprocal_rank_fusion sem bm 60 = Ok fused ->
  a ∈ fused -> b ∈ fused ->
  position_of (chunk a) sem (Some i) ->
  absent (chunk b) sem -> only_at (chunk b) j bm ->
  (3 * i < 244 + 7 * j)%nat ->
  (rrf_key b < rrf_key a)%Q /\
  (forall ia ib, fused !! ia = Some a -> fused !! ib = Some b -> (ia < ib)%nat).
Proof.
  intros Hrun Ha Hb (ra & Hra & Hta) Hbs Hbj Hij.
  destruct (fused_score _ _ _ _ _ Hrun Ha) as [_ Hka].
  destruct (fused_score _ _ _ _ _ Hrun Hb) as [_ Hkb].
  unfold rrf_sum in Hka, Hkb.
  pose proof (contributions_ge SEMANTIC_WEIGHT 60 (chunk a) sem
                semantic_weight_pos 0 i ra Hra Hta) as Hsa.
  pose proof (contributions_nonneg BM25_WEIGHT 60 (chunk a) bm
                bm25_weight_pos 0) as Hba.
  pose proof (contributions_absent SEMANTIC_WEIGHT 60 (chunk b) sem Hbs 0)
    as Hsb.
  pose proof (contributions_only_at BM25_WEIGHT 60 (chunk b) bm 0 j Hbj)
    as Hbb.
  pose proof (rrf_term_cross i j Hij) as Hcross.
  cbn [Nat.add] in Hsa, Hbb.
  assert (Hlt : (rrf_key b < rrf_key a)%Q) by lra.
  split; [exact Hlt|].
  intros ia ib Hia Hib.
  destruct (rrf_spec sem bm 60) as (fused' & Hrun' & _ & _ & _ & Hsorted).
  rewrite Hrun in Hrun'. injection Hrun' as <-.
  destruct (Nat.lt_trichotomy ia ib) as [Hl|[He|Hg]]; [exact Hl| |].
  - subst ib. rewrite Hia in Hib. injection Hib as ->. lra.
  - pose proof (StronglySorted_lookup _ _ Hsorted ib ia b a Hg Hib Hia) as H.
    simpl in H. lra.
Qed.

Lemma dense_hits_outrank_bm25_only_witness :
  exists fused a b,
    _reciprocal_rank_fusion
      [sample_hit "alpha" 1; sample_hit "beta" 2]
      [sample_hit "gamma" 3; sample_hit "alpha" 1] 60 = Ok fused /\
    fused !! 1%nat = Some a /\ chunk a = "beta" /\
    fused !! 2%nat = Some b /\ chunk b = "gamma" /\
    (rrf_key b < rrf_key a)%Q.
Proof.
  assert (R : exists fused a b,
            _reciprocal_rank_fusion
              [sample_hit "alpha" 1; sample_hit "beta" 2]
              [sample_hit "gamma" 3; sample_hit "alpha" 1] 60 = Ok fused /\
            fused !! 1%nat = Some a /\ chunk a = "beta" /\
            fused !! 2%nat = Some b /\ chunk b = "gamma").
  { eexists _, _, _. split; [vm_compute; reflexivity|].
    split; [reflexivity|]. split; [reflexivity|].
    split; [reflexivity|reflexivity]. }
  destruct R as (fused & a & b & Hrun & Ha & Hta & Hb & Htb).
  exists fused, a, b. split; [exact Hrun|]. split; [exact Ha|].
  split; [exact Hta|]. split; [exact Hb|]. split; [exact Htb|].
  refine (proj1 (dense_hits_outrank_bm25_only _ _ fused a b 1 0 Hrun _ _ _ _ _ _)).
  - by eapply list_elem_of_lookup_2.
  - by eapply list_elem_of_lookup_2.
  - rewrite Hta. eexists. split; [reflexivity|reflexivity].
  - rewrite Htb. intros r Hr.
    repeat (apply elem_of_cons in Hr as [->|Hr]; [discriminate|]).
    by apply elem_of_nil in Hr.
  - rewrite Htb. split.
    + eexists. split; [reflexivity|reflexivity].
    + intros [|[|[|?]]] r Hr Hc; simpl in Hr; try done;
        injection Hr as <-; discriminate Hc.
  - lia.
Defined.

(** ** Every candidate is re-ranked *)


Section Rerank.

Context `{E : Collaborators} {HC : Contracts E} {HQ : ChromaContract E}.


End Rerank.


End FusionOrder.

(** * Questions that cannot name a page *)

Section PageWord.

Import Re Chain.

Section Class.

Variables (P : ascii -> bool) (lit : ascii -> bool) (dig : bool).

Hypothesis lit_sound :
  forall a c, lit c = true ->
    Ascii.eqb (PyStr.lower_char a) (PyStr.lower_char c) = true -> P a = true.
Hypothesis dig_sound :
  forall a, dig = true -> PyStr.isdigit a = true -> P a = true.





End Class.



End PageWord.
